(** * An LRU cache over [std::list] and [std::unordered_map]

    Shallow embedding of [cppExamples/lru_cache.cpp] and the properties of
    its [LRUCache] class.  The class keeps a doubly linked list of nodes
    ([priorityQ], least recently used at the front) and a hash map from keys
    to list iterators ([keyToNode]).  List iterators are modelled as node
    identities, so that the aliasing between the two containers is part of
    the model; every operation whose C++ behaviour is undefined (reading the
    front of an empty list, erasing through an iterator that designates no
    node) is an explicit fault. *)

From stdpp Require Import gmap list fin_maps strings sorting.
From Stdlib Require Import ZArith Lia.
From Stdlib Require QArith Qcanon.

(** ** Machine integers *)

(** [capacity], keys and values are C++ [int]s; [keyToNode.size()] is a
    [size_t].  The comparison [capacity == keyToNode.size()] converts the
    [int] to [size_t], i.e. reduces it modulo [2 ^ 64] (a 64-bit [size_t]).
    No arithmetic is done on keys and values, and the size of a container
    is the number of its elements. *)
Definition INT_MAX : Z := 2147483647.

Definition to_size_t (i : Z) : Z := (i mod 2 ^ 64)%Z.

(** ** Outcomes of an operation *)

Inductive fault : Type :=
  | front_of_empty_list
  | pop_front_of_empty_list
  | erase_of_end_iterator
  | invalid_list_iterator.

Inductive result (A : Type) : Type :=
  | Ok (a : A)
  | Fault (f : fault).
Arguments Ok {A} a.
Arguments Fault {A} f.

#[global] Instance result_bind : MBind result := λ A B f r,
  match r with
  | Ok a => f a
  | Fault e => Fault e
  end.
#[global] Instance result_fmap : FMap result := λ A B f r,
  match r with
  | Ok a => Ok (f a)
  | Fault e => Fault e
  end.

(** ** Nodes and the two containers *)

Module Node.
Record t : Type := mk { key : Z; val : Z }.
End Node.

(** A [list<Node>::iterator] that designates an element is the identity of
    the list node holding it. *)
Definition iterator : Type := nat.

(** [std::list<Node>]: the nodes from front to back, each with its
    identity. *)
Module StdList.
Abbreviation t := (list (iterator * Node.t)).

Definition front (q : t) : result Node.t :=
  match q with
  | [] => Fault front_of_empty_list
  | (_, n) :: _ => Ok n
  end.

Definition pop_front (q : t) : result t :=
  match q with
  | [] => Fault pop_front_of_empty_list
  | _ :: q' => Ok q'
  end.

(** [*it] *)
Fixpoint deref (it : iterator) (q : t) : result Node.t :=
  match q with
  | [] => Fault invalid_list_iterator
  | (h, n) :: q' => if decide (h = it) then Ok n else deref it q'
  end.

(** [q.erase(it)] *)
Fixpoint erase (it : iterator) (q : t) : result t :=
  match q with
  | [] => Fault invalid_list_iterator
  | (h, n) :: q' =>
      if decide (h = it) then Ok q' else cons (h, n) <$> erase it q'
  end.

(** [q.push_back(n)], the new list node taking the identity [fresh]. *)
Definition push_back (n : Node.t) (fresh : iterator) (q : t) : t :=
  q ++ [(fresh, n)].

(** [prev(q.end())] *)
Definition prev_end (q : t) : result iterator :=
  match last q with
  | None => Fault invalid_list_iterator
  | Some (h, _) => Ok h
  end.
End StdList.

(** [std::unordered_map<int, list<Node>::iterator>] *)
Module UMap.
Definition find (k : Z) (m : gmap Z iterator) : option iterator := m !! k.

(** [m.erase(m.find(k))]: erasing through [end()] is undefined. *)
Definition erase_found (k : Z) (m : gmap Z iterator) : result (gmap Z iterator) :=
  match find k m with
  | None => Fault erase_of_end_iterator
  | Some _ => Ok (delete k m)
  end.

(** [m.insert({k, it})] keeps an existing binding of [k]. *)
Definition insert (k : Z) (it : iterator) (m : gmap Z iterator) : gmap Z iterator :=
  match m !! k with
  | Some _ => m
  | None => <[k:=it]> m
  end.
End UMap.

(** ** The cache *)

(** [next_node] is the identity the next allocated list node receives; node
    identities are never reused, so a stale iterator designates no node. *)
Record LRUCache : Type := mkLRUCache {
  priorityQ : StdList.t;
  keyToNode : gmap Z iterator;
  capacity : Z;
  next_node : iterator
}.

(** [LRUCache(int _capacity)]: the constructor body is empty. *)
Definition LRUCache_new (_capacity : Z) : result LRUCache :=
  Ok {| priorityQ := []; keyToNode := ∅; capacity := _capacity; next_node := 0 |}.

(** [int get(int key)]; returns the value and the cache after the call. *)
Definition get (key : Z) (c : LRUCache) : result (Z * LRUCache) :=
  match UMap.find key (keyToNode c) with
  | None => Ok ((-1)%Z, c)
  | Some it =>
      n ← StdList.deref it (priorityQ c);
      let valToReturn := Node.val n in
      q1 ← StdList.erase it (priorityQ c);
      let m1 := delete key (keyToNode c) in
      let q2 := StdList.push_back (Node.mk key valToReturn) (next_node c) q1 in
      it' ← StdList.prev_end q2;
      Ok (valToReturn,
          {| priorityQ := q2;
             keyToNode := UMap.insert key it' m1;
             capacity := capacity c;
             next_node := S (next_node c) |})
  end.

(** [void put(int key, int value)].  [keyExist] is [kToNode != end()], so
    the branch [if (keyExist)] is the case where [kToNode] holds an
    iterator. *)
Definition put (key value : Z) (c : LRUCache) : result LRUCache :=
  let kToNode := UMap.find key (keyToNode c) in
  let keyExist := bool_decide (is_Some kToNode) in
  '(q1, m1) ←
    (if (to_size_t (capacity c) =? Z.of_nat (size (keyToNode c)))%Z && negb keyExist
     then
       n ← StdList.front (priorityQ c);
       let keyToEvict := Node.key n in
       m ← UMap.erase_found keyToEvict (keyToNode c);
       q ← StdList.pop_front (priorityQ c);
       Ok (q, m)
     else Ok (priorityQ c, keyToNode c));
  '(q2, m2) ←
    match kToNode with
    | Some it => q ← StdList.erase it q1; Ok (q, delete key m1)
    | None => Ok (q1, m1)
    end;
  let q3 := StdList.push_back (Node.mk key value) (next_node c) q2 in
  it' ← StdList.prev_end q3;
  Ok {| priorityQ := q3;
        keyToNode := UMap.insert key it' m2;
        capacity := capacity c;
        next_node := S (next_node c) |}.

(** ** Sequences of calls *)

Inductive op : Type :=
  | Get (key : Z)
  | Put (key value : Z).

Definition op_key (o : op) : Z :=
  match o with
  | Get k => k
  | Put k _ => k
  end.

Definition step (o : op) (c : LRUCache) : result LRUCache :=
  match o with
  | Get k => snd <$> get k c
  | Put k v => put k v c
  end.

Fixpoint run (ops : list op) (c : LRUCache) : result LRUCache :=
  match ops with
  | [] => Ok c
  | o :: ops' => c' ← step o c; run ops' c'
  end.

(** The cache obtained from the constructor by a sequence of calls. *)
Definition after (cap : Z) (ops : list op) : result LRUCache :=
  c ← LRUCache_new cap; run ops c.

(** ** Observations *)

(** The entries from least to most recently used. *)
Definition nodes (c : LRUCache) : list Node.t := (priorityQ c).*2.

Definition keys (c : LRUCache) : list Z := Node.key <$> nodes c.

Definition cached (k : Z) (c : LRUCache) : Prop := is_Some (keyToNode c !! k).

(** The entry the index designates for key [k]. *)
Definition entry (k : Z) (c : LRUCache) : option Node.t :=
  match keyToNode c !! k with
  | None => None
  | Some it =>
      match StdList.deref it (priorityQ c) with
      | Ok n => Some n
      | Fault _ => None
      end
  end.

(** The value returned by [get], the cache after it being dropped. *)
Definition get_value (k : Z) (c : LRUCache) : result Z := fst <$> get k c.

(** The guard of the eviction branch of [put]:
    [capacity == keyToNode.size() and !keyExist]. *)
Definition eviction_branch (key : Z) (c : LRUCache) : bool :=
  (to_size_t (capacity c) =? Z.of_nat (size (keyToNode c)))%Z
  && negb (bool_decide (is_Some (UMap.find key (keyToNode c)))).

(** A capacity the constructor's [int] parameter can hold and that the
    design calls positive. *)
Definition positive_capacity (cap : Z) : Prop := (0 < cap ≤ INT_MAX)%Z.

(** The constructor reports capacity [cap] as an error. *)
Definition construction_rejects (cap : Z) : Prop :=
  ∃ f, LRUCache_new cap = Fault f.

(** Key [k] is gone from the cache at some point of the calls [ops] made
    on [c]. *)
Definition evicted_during (k : Z) (ops : list op) (c : LRUCache) : Prop :=
  ∃ pre c', pre `prefix_of` ops ∧ run pre c = Ok c' ∧ ¬ cached k c'.

(** "[k] is evicted last": whenever [k] has just been touched by call [o]
    and the later calls [ops] are [quiet], [k] leaves the cache only after
    every other key cached at that moment has left it.  [quiet k c ops]
    says which later calls count as "no further touches". *)
Definition evicted_last (quiet : Z → LRUCache → list op → Prop) : Prop :=
  ∀ cap ops0 c0 o c ops c',
    positive_capacity cap →
    after cap ops0 = Ok c0 →
    step o c0 = Ok c →
    cached (op_key o) c →
    quiet (op_key o) c ops →
    run ops c = Ok c' →
    ¬ cached (op_key o) c' →
    ∀ k', cached k' c → k' ≠ op_key o → evicted_during k' ops c.

(** No later call names [k]. *)
Definition untouched (k : Z) (c : LRUCache) (ops : list op) : Prop :=
  k ∉ op_key <$> ops.

(** No later call names a key cached in [c]. *)
Definition all_untouched (k : Z) (c : LRUCache) (ops : list op) : Prop :=
  ∀ o, o ∈ ops → ¬ cached (op_key o) c.

(** Insertions of a list of key-value pairs, and the entries they make. *)
Definition puts (kvs : list (Z * Z)) : list op := (λ kv, Put kv.1 kv.2) <$> kvs.

Definition entries (kvs : list (Z * Z)) : list Node.t :=
  (λ kv, Node.mk kv.1 kv.2) <$> kvs.

(** ** The representation invariant *)

(** Index and list describe the same entries: node identities and keys are
    unique in the list, no node carries an identity yet to be allocated, and
    the index binds [k] to [it] exactly when node [it] of the list has key
    [k]. *)
Record coupled (c : LRUCache) : Prop := mk_coupled {
  coupled_ids : NoDup (priorityQ c).*1;
  coupled_keys : NoDup (keys c);
  coupled_fresh : Forall (λ hn, hn.1 < next_node c) (priorityQ c);
  coupled_index : ∀ k it,
    keyToNode c !! k = Some it ↔ ∃ v, (it, Node.mk k v) ∈ priorityQ c
}.

Definition within_capacity (c : LRUCache) : Prop :=
  (Z.of_nat (size (keyToNode c)) ≤ to_size_t (capacity c))%Z.

(** The effect of a hit or of an insertion: the entry of [k], if any,
    leaves its place and a node [(k, v)] is appended. *)
Definition touch (k v : Z) (c : LRUCache) : LRUCache :=
  {| priorityQ :=
       filter (λ hn, Node.key hn.2 ≠ k) (priorityQ c)
       ++ [(next_node c, Node.mk k v)];
     keyToNode := <[k:=next_node c]> (keyToNode c);
     capacity := capacity c;
     next_node := S (next_node c) |}.

(** The effect of the eviction branch. *)
Definition evict (c : LRUCache) : LRUCache :=
  {| priorityQ := tail (priorityQ c);
     keyToNode :=
       match priorityQ c with
       | [] => keyToNode c
       | (_, n) :: _ => delete (Node.key n) (keyToNode c)
       end;
     capacity := capacity c;
     next_node := next_node c |}.

Definition inv (c : LRUCache) : Prop := coupled c ∧ within_capacity c.

(** The shape of the recency order while the keys of [K0] are left alone:
    what remains of [K0], in its order, followed by keys outside [K0]. *)
Definition residue (K0 : list Z) (c : LRUCache) : Prop :=
  ∃ gone left new,
    K0 = gone ++ left ∧ keys c = left ++ new ∧ Forall (λ x, x ∉ K0) new.

(** The six ways a call can go on a cache that satisfies the invariant. *)
Inductive step_spec (c : LRUCache) : op → result LRUCache → Prop :=
  | step_miss k :
      ¬ cached k c → step_spec c (Get k) (Ok c)
  | step_hit k v :
      entry k c = Some (Node.mk k v) → step_spec c (Get k) (Ok (touch k v c))
  | step_update k v :
      cached k c → step_spec c (Put k v) (Ok (touch k v c))
  | step_insert k v :
      ¬ cached k c → eviction_branch k c = false →
      step_spec c (Put k v) (Ok (touch k v c))
  | step_evict k v :
      ¬ cached k c → eviction_branch k c = true → priorityQ c ≠ [] →
      step_spec c (Put k v) (Ok (touch k v (evict c)))
  | step_fault k v :
      ¬ cached k c → eviction_branch k c = true → priorityQ c = [] →
      step_spec c (Put k v) (Fault front_of_empty_list).

(** The cache of capacity 2 after [put(1,10)], and after [put(1,10);
    put(2,20)]. *)
Definition cache_1 : LRUCache :=
  {| priorityQ := [(0, Node.mk 1 10)];
     keyToNode := <[1%Z:=0]> ∅;
     capacity := 2;
     next_node := 1 |}.

Definition cache_12 : LRUCache :=
  {| priorityQ := [(0, Node.mk 1 10); (1, Node.mk 2 20)];
     keyToNode := <[2%Z:=1]> (<[1%Z:=0]> ∅);
     capacity := 2;
     next_node := 2 |}.

(** [cache_12] after [get(1); put(3,30)], and after [put(3,30); put(4,40)]. *)
Definition cache_13 : LRUCache :=
  {| priorityQ := [(2, Node.mk 1 10); (3, Node.mk 3 30)];
     keyToNode := <[3%Z:=3]> (<[1%Z:=2]> ∅);
     capacity := 2;
     next_node := 4 |}.

Definition cache_34 : LRUCache :=
  {| priorityQ := [(2, Node.mk 3 30); (3, Node.mk 4 40)];
     keyToNode := <[4%Z:=3]> (<[3%Z:=2]> ∅);
     capacity := 2;
     next_node := 4 |}.

(** A cache used to instantiate the statements below: capacity 2, after
    [put(1,10); put(2,20); put(3,30)]. *)
Definition cache_23 : LRUCache :=
  {| priorityQ := [(1, Node.mk 2 20); (2, Node.mk 3 30)];
     keyToNode := <[3%Z:=2]> (<[2%Z:=1]> ∅);
     capacity := 2;
     next_node := 3 |}.

(** * The bounded queue of [cppExamples/cyclic_queue.cpp] *)

(** A call returns, throws a [std::runtime_error] carrying a message, or has
    undefined behaviour. *)
Inductive undefined : Type :=
  | list_front_of_empty
  | list_pop_front_of_empty
  | priority_queue_top_of_empty
  | priority_queue_pop_of_empty
  | signed_overflow
  | null_dereference
  | use_after_free
  | double_free
  | outside_lifetime.

Inductive outcome (A : Type) : Type :=
  | Return (a : A)
  | Throw (what : string)
  | Undefined (u : undefined).
Arguments Return {A} a.
Arguments Throw {A} what.
Arguments Undefined {A} u.

#[global] Instance outcome_bind : MBind outcome := λ A B f r,
  match r with
  | Return a => f a
  | Throw what => Throw what
  | Undefined u => Undefined u
  end.

(** [CyclicQueue<T>]: the three data members.  [capacity] and [numElements]
    are [size_t]s; [++] and [--] on them wrap modulo [2 ^ 64].  The
    constructor and the destructor also print a line, which is not part of
    the state. *)
Module CyclicQueue.
Record t (T : Type) : Type := mk {
  capacity : Z;
  numElements : Z;
  elements : list T
}.
Arguments mk {T} capacity numElements elements.
Arguments capacity {T} _.
Arguments numElements {T} _.
Arguments elements {T} _.

(** [explicit CyclicQueue(size_t capacity)] *)
Definition new {T} (capacity : Z) : t T :=
  {| capacity := capacity; numElements := 0; elements := [] |}.

Definition Count {T} (q : t T) : Z := numElements q.

Definition IsFull {T} (q : t T) : bool := (capacity q =? numElements q)%Z.

Definition IsEmpty {T} (q : t T) : bool := (0 =? numElements q)%Z.

Definition Enqueue {T} (val : T) (q : t T) : outcome (t T) :=
  if IsFull q then Throw "Queue is full, enqueue is prohibited"
  else
    Return {| capacity := capacity q;
              numElements := to_size_t (numElements q + 1);
              elements := elements q ++ [val] |}.

Definition GetOldest {T} (q : t T) : outcome T :=
  if IsEmpty q then Throw "Queue is empty, GetOldest is prohibited"
  else
    match elements q with
    | [] => Undefined list_front_of_empty
    | x :: _ => Return x
    end.

Definition Dequeue {T} (q : t T) : outcome (t T) :=
  if IsEmpty q then Throw "Queue is empty, dequeue is prohibited"
  else
    match elements q with
    | [] => Undefined list_pop_front_of_empty
    | _ :: l =>
        Return {| capacity := capacity q;
                  numElements := to_size_t (numElements q - 1);
                  elements := l |}
    end.

(** Sequences of the two mutating calls. *)
Inductive op (T : Type) : Type :=
  | enqueue (val : T)
  | dequeue.
Arguments enqueue {T} val.
Arguments dequeue {T}.

Definition step {T} (o : op T) (q : t T) : outcome (t T) :=
  match o with
  | enqueue val => Enqueue val q
  | dequeue => Dequeue q
  end.

Fixpoint run {T} (ops : list (op T)) (q : t T) : outcome (t T) :=
  match ops with
  | [] => Return q
  | o :: ops' => q' ← step o q; run ops' q'
  end.

(** The two loops of [testCyclicQueueInt] and [testCyclicQueueWraparound]:
    enqueue the values of a list one after the other, and take [n] values
    out with [GetOldest] followed by [Dequeue]. *)
Fixpoint enqueue_all {T} (vals : list T) (q : t T) : outcome (t T) :=
  match vals with
  | [] => Return q
  | val :: vals' => q' ← Enqueue val q; enqueue_all vals' q'
  end.

Fixpoint dequeue_n {T} (n : nat) (q : t T) : outcome (list T * t T) :=
  match n with
  | 0 => Return ([], q)
  | S n' =>
      val ← GetOldest q;
      q' ← Dequeue q;
      '(vals, q'') ← dequeue_n n' q';
      Return (val :: vals, q'')
  end.

(** The representation invariant: the counter is the length of the list
    and does not exceed the capacity, which is a [size_t]. *)
Definition wf {T} (q : t T) : Prop :=
  numElements q = Z.of_nat (length (elements q))
  ∧ (numElements q ≤ capacity q < 2 ^ 64)%Z.
End CyclicQueue.

(** * The running median of [cppExamples/median_stream.cpp] *)

(** [std::priority_queue<int, vector<int>, Compare>].  The class uses only
    [push], [top], [pop], [size] and [empty], which depend on the elements
    held and not on their layout in the underlying vector; the queue is the
    list of its elements with the top first, no element being
    [Compare]-less than a later one.  [top] and [pop] on an empty queue are
    undefined. *)
Module PriorityQueue.
(** [std::less<int>], the default, and [std::greater<int>]. *)
Definition less (a b : Z) : bool := (a <? b)%Z.

Definition greater (a b : Z) : bool := (a >? b)%Z.

Fixpoint push (compare : Z → Z → bool) (x : Z) (h : list Z) : list Z :=
  match h with
  | [] => [x]
  | y :: h' => if compare y x then x :: y :: h' else y :: push compare x h'
  end.

Definition top (h : list Z) : outcome Z :=
  match h with
  | [] => Undefined priority_queue_top_of_empty
  | x :: _ => Return x
  end.

Definition pop (h : list Z) : outcome (list Z) :=
  match h with
  | [] => Undefined priority_queue_pop_of_empty
  | _ :: h' => Return h'
  end.

Definition size (h : list Z) : Z := Z.of_nat (length h).

Definition empty (h : list Z) : bool :=
  match h with
  | [] => true
  | _ :: _ => false
  end.
End PriorityQueue.

Module MedianFinder.
(** [heapMax] is a [priority_queue<int>] (largest on top) and [heapMin] a
    [priority_queue<int, vector<int>, greater<int>>] (smallest on top). *)
Record t : Type := mk { heapMax : list Z; heapMin : list Z }.

Definition new : t := {| heapMax := []; heapMin := [] |}.

Definition INT_MIN : Z := -2147483648.

(** [a + b] on [int]s: signed overflow is undefined. *)
Definition int_add (a b : Z) : outcome Z :=
  if (INT_MIN <=? a + b)%Z && (a + b <=? INT_MAX)%Z then Return (a + b)%Z
  else Undefined signed_overflow.

(** The value of a [double].  [findMedian] converts an [int] to [double]
    and halves the converted sum of two [int]s; both are exact in binary
    floating point, so the [double] returned denotes exactly the rational
    given here. *)
Definition of_int (x : Z) : Qcanon.Qc := Qcanon.Q2Qc (QArith_base.inject_Z x).

Definition halved (x : Z) : Qcanon.Qc := Qcanon.Qcdiv (of_int x) (of_int 2).

(** The first statement of [addNum]: [num] goes to [heapMax] when that
    queue is not empty and its top is at least [num], to [heapMin]
    otherwise. *)
Definition insert (num : Z) (s : t) : outcome t :=
  toMax ← (if negb (PriorityQueue.empty (heapMax s))
           then tp ← PriorityQueue.top (heapMax s); Return (tp >=? num)%Z
           else Return false);
  if toMax : bool
  then Return {| heapMax := PriorityQueue.push PriorityQueue.less num (heapMax s);
                 heapMin := heapMin s |}
  else Return {| heapMax := heapMax s;
                 heapMin := PriorityQueue.push PriorityQueue.greater num (heapMin s) |}.

(** The second statement of [addNum]: when one queue holds more than one
    element more than the other, its top moves over.  The differences are
    [size_t] subtractions. *)
Definition rebalance (s : t) : outcome t :=
  let sizeMax := PriorityQueue.size (heapMax s) in
  let sizeMin := PriorityQueue.size (heapMin s) in
  if (sizeMax >? sizeMin)%Z then
    if (to_size_t (sizeMax - sizeMin) >? 1)%Z then
      toMove ← PriorityQueue.top (heapMax s);
      hmax ← PriorityQueue.pop (heapMax s);
      Return {| heapMax := hmax;
                heapMin := PriorityQueue.push PriorityQueue.greater toMove (heapMin s) |}
    else Return s
  else if (sizeMax <? sizeMin)%Z then
    if (to_size_t (sizeMin - sizeMax) >? 1)%Z then
      toMove ← PriorityQueue.top (heapMin s);
      hmin ← PriorityQueue.pop (heapMin s);
      Return {| heapMax := PriorityQueue.push PriorityQueue.less toMove (heapMax s);
                heapMin := hmin |}
    else Return s
  else Return s.

(** [void addNum(int num)] *)
Definition addNum (num : Z) (s : t) : outcome t :=
  s' ← insert num s; rebalance s'.

(** [double findMedian()] *)
Definition findMedian (s : t) : outcome Qcanon.Qc :=
  let sizeMax := PriorityQueue.size (heapMax s) in
  let sizeMin := PriorityQueue.size (heapMin s) in
  if (sizeMax >? sizeMin)%Z then
    tp ← PriorityQueue.top (heapMax s); Return (of_int tp)
  else if (sizeMax <? sizeMin)%Z then
    tp ← PriorityQueue.top (heapMin s); Return (of_int tp)
  else
    a ← PriorityQueue.top (heapMax s);
    b ← PriorityQueue.top (heapMin s);
    sum ← int_add a b;
    Return (halved sum).

(** The numbers of a list added one after the other. *)
Fixpoint run (nums : list Z) (s : t) : outcome t :=
  match nums with
  | [] => Return s
  | num :: nums' => s' ← addNum num s; run nums' s'
  end.


(** What the two queues hold after the numbers [nums] were added, up to a
    difference [d] of their sizes. *)
Record holds (d : nat) (nums : list Z) (s : t) : Prop := mk_holds {
  holds_max : StronglySorted Z.ge (heapMax s);
  holds_min : StronglySorted Z.le (heapMin s);
  holds_split : ∀ a b, a ∈ heapMax s → b ∈ heapMin s → (a ≤ b)%Z;
  holds_sizes :
    length (heapMax s) ≤ length (heapMin s) + d
    ∧ length (heapMin s) ≤ length (heapMax s) + d;
  holds_all : heapMax s ++ heapMin s ≡ₚ nums
}.
End MedianFinder.

(** * The reference-counted pointer of [cppExamples/my_shared_ptr.cpp] *)

(** A [SharedPtr<T>] holds two raw pointers, [counter] to a [size_t] on the
    heap and [rawPointer] to the managed [T].  Several [SharedPtr] objects
    alias the same cell and the same [T], and the assignment operators
    compare the addresses of [SharedPtr] objects, so the model keeps the
    heap cells, the live [T] objects and the [SharedPtr] objects within
    their lifetime, each under its address.  Cell addresses are never
    reused.  Dereferencing a null pointer or a freed cell, deleting an
    object that is not live and using a [SharedPtr] outside its lifetime
    are undefined. *)
Module SharedPtr.
Record t : Type := mk { counter : option nat; rawPointer : option nat }.

#[global] Instance t_eq_dec : EqDecision t.
Proof. solve_decision. Defined.

Definition null : t := {| counter := None; rawPointer := None |}.

Record heap (T : Type) : Type := mk_heap {
  cells : gmap nat Z;
  objects : gmap nat T;
  ptrs : gmap nat t;
  next_cell : nat
}.
Arguments mk_heap {T} cells objects ptrs next_cell.
Arguments cells {T} _.
Arguments objects {T} _.
Arguments ptrs {T} _.
Arguments next_cell {T} _.

(** [*c] for a [size_t* c] *)
Definition read_cell {T} (c : option nat) (h : heap T) : outcome Z :=
  match c with
  | None => Undefined null_dereference
  | Some l =>
      match cells h !! l with
      | None => Undefined use_after_free
      | Some n => Return n
      end
  end.

(** [*c = n] *)
Definition write_cell {T} (c : option nat) (n : Z) (h : heap T) : outcome (heap T) :=
  match c with
  | None => Undefined null_dereference
  | Some l =>
      match cells h !! l with
      | None => Undefined use_after_free
      | Some _ =>
          Return {| cells := <[l:=n]> (cells h); objects := objects h;
                    ptrs := ptrs h; next_cell := next_cell h |}
      end
  end.

(** [delete p] for a [T* p]; deleting the null pointer does nothing. *)
Definition delete_object {T} (p : option nat) (h : heap T) : outcome (heap T) :=
  match p with
  | None => Return h
  | Some o =>
      match objects h !! o with
      | None => Undefined double_free
      | Some _ =>
          Return {| cells := cells h; objects := delete o (objects h);
                    ptrs := ptrs h; next_cell := next_cell h |}
      end
  end.

(** [delete c] for a [size_t* c] *)
Definition delete_cell {T} (c : option nat) (h : heap T) : outcome (heap T) :=
  match c with
  | None => Return h
  | Some l =>
      match cells h !! l with
      | None => Undefined double_free
      | Some _ =>
          Return {| cells := delete l (cells h); objects := objects h;
                    ptrs := ptrs h; next_cell := next_cell h |}
      end
  end.

(** The [SharedPtr] object at address [a]. *)
Definition object_at {T} (a : nat) (h : heap T) : outcome t :=
  match ptrs h !! a with
  | None => Undefined outside_lifetime
  | Some sp => Return sp
  end.

Definition set_object {T} (a : nat) (sp : t) (h : heap T) : heap T :=
  {| cells := cells h; objects := objects h;
     ptrs := <[a:=sp]> (ptrs h); next_cell := next_cell h |}.

(** [explicit SharedPtr(T* p)], constructing the object at address [this] *)
Definition ctor {T} (this : nat) (p : option nat) (h : heap T) : outcome (heap T) :=
  Return {| cells := <[next_cell h:=1%Z]> (cells h);
            objects := objects h;
            ptrs := <[this:={| counter := Some (next_cell h); rawPointer := p |}]> (ptrs h);
            next_cell := S (next_cell h) |}.

(** [SharedPtr(SharedPtr&& other)] *)
Definition move_ctor {T} (this other : nat) (h : heap T) : outcome (heap T) :=
  o ← object_at other h;
  Return (set_object other null (set_object this o h)).

(** [SharedPtr(const SharedPtr& other)] *)
Definition copy_ctor {T} (this other : nat) (h : heap T) : outcome (heap T) :=
  o ← object_at other h;
  let h1 := set_object this o h in
  n ← read_cell (counter o) h1;
  write_cell (counter o) (to_size_t (n + 1)) h1.

(** The first lines of both assignment operators: the cell of [this] is
    decremented and, when it has become zero, [rawPointer] and the cell are
    deleted. *)
Definition release {T} (sp : t) (h : heap T) : outcome (heap T) :=
  n ← read_cell (counter sp) h;
  h1 ← write_cell (counter sp) (to_size_t (n - 1)) h;
  n' ← read_cell (counter sp) h1;
  if (n' =? 0)%Z then
    h2 ← delete_object (rawPointer sp) h1;
    delete_cell (counter sp) h2
  else Return h1.

(** [SharedPtr& operator=(SharedPtr&& other)] *)
Definition move_assign {T} (this other : nat) (h : heap T) : outcome (heap T) :=
  sp ← object_at this h;
  o ← object_at other h;
  if decide (this ≠ other) then
    h1 ← release sp h;
    Return (set_object other null (set_object this o h1))
  else Return h.

(** [SharedPtr& operator=(const SharedPtr& other)] *)
Definition copy_assign {T} (this other : nat) (h : heap T) : outcome (heap T) :=
  sp ← object_at this h;
  o ← object_at other h;
  if decide (this ≠ other) then
    h1 ← release sp h;
    let h2 := set_object this o h1 in
    n ← read_cell (counter o) h2;
    write_cell (counter o) (to_size_t (n + 1)) h2
  else Return h.

(** [~SharedPtr()], after which the object at [this] is gone *)
Definition dtor {T} (this : nat) (h : heap T) : outcome (heap T) :=
  sp ← object_at this h;
  h' ← match counter sp with
       | None => Return h
       | Some _ =>
           n ← read_cell (counter sp) h;
           if (n >? 0)%Z then
             h1 ← write_cell (counter sp) (to_size_t (n - 1)) h;
             n' ← read_cell (counter sp) h1;
             if (n' =? 0)%Z then
               h2 ← delete_object (rawPointer sp) h1;
               h3 ← delete_cell (counter sp) h2;
               Return (set_object this null h3)
             else Return h1
           else Return h
       end;
  Return {| cells := cells h'; objects := objects h';
            ptrs := delete this (ptrs h'); next_cell := next_cell h' |}.

(** [size_t use_count() const] *)
Definition use_count {T} (this : nat) (h : heap T) : outcome Z :=
  sp ← object_at this h;
  match counter sp with
  | None => Return 0%Z
  | Some _ => read_cell (counter sp) h
  end.

(** [T* operator->()] *)
Definition arrow {T} (this : nat) (h : heap T) : outcome (option nat) :=
  sp ← object_at this h; Return (rawPointer sp).

(** [const T& operator*()] *)
Definition deref {T} (this : nat) (h : heap T) : outcome T :=
  sp ← object_at this h;
  match rawPointer sp with
  | None => Undefined null_dereference
  | Some o =>
      match objects h !! o with
      | None => Undefined use_after_free
      | Some x => Return x
      end
  end.

(** Programs: constructions, assignments and destructions of [SharedPtr]
    objects named by their addresses. *)
Inductive op : Type :=
  | Ctor (this : nat) (p : option nat)
  | CopyCtor (this other : nat)
  | MoveCtor (this other : nat)
  | CopyAssign (this other : nat)
  | MoveAssign (this other : nat)
  | Dtor (this : nat).

Definition step {T} (o : op) (h : heap T) : outcome (heap T) :=
  match o with
  | Ctor this p => ctor this p h
  | CopyCtor this other => copy_ctor this other h
  | MoveCtor this other => move_ctor this other h
  | CopyAssign this other => copy_assign this other h
  | MoveAssign this other => move_assign this other h
  | Dtor this => dtor this h
  end.

Fixpoint run {T} (ops : list op) (h : heap T) : outcome (heap T) :=
  match ops with
  | [] => Return h
  | o :: ops' => h' ← step o h; run ops' h'
  end.

(** A heap with live objects and no [SharedPtr] yet. *)
Definition start {T} (objs : gmap nat T) : heap T :=
  {| cells := ∅; objects := objs; ptrs := ∅; next_cell := 0 |}.

(** The number of [SharedPtr] objects whose [counter] is the cell [l]. *)
Definition owners (l : nat) (m : gmap nat t) : nat :=
  size (filter (λ kv, counter kv.2 = Some l) m).

Definition points_to (sp : t) (l : nat) : nat :=
  if decide (counter sp = Some l) then 1 else 0.

(** No [SharedPtr] with a cell lives at [a]. *)
Definition vacant {T} (a : nat) (h : heap T) : Prop :=
  ∀ sp, ptrs h !! a = Some sp → counter sp = None.

(** The heap after a [SharedPtr] equal to [sp] has given up its share. *)
Definition released {T} (sp : t) (h : heap T) : heap T :=
  match counter sp with
  | None => h
  | Some l =>
      if decide (owners l (ptrs h) = 1) then
        {| cells := delete l (cells h);
           objects :=
             match rawPointer sp with
             | None => objects h
             | Some x => delete x (objects h)
             end;
           ptrs := ptrs h; next_cell := next_cell h |}
      else
        {| cells := <[l:=(Z.of_nat (owners l (ptrs h)) - 1)%Z]> (cells h);
           objects := objects h; ptrs := ptrs h; next_cell := next_cell h |}
  end.

(** The heap after the [SharedPtr] at [a] has taken a share of [o]'s. *)
Definition attached {T} (a : nat) (o : t) (h : heap T) : heap T :=
  {| cells :=
       match counter o with
       | None => cells h
       | Some l => <[l:=(Z.of_nat (owners l (ptrs h)) + 1)%Z]> (cells h)
       end;
     objects := objects h;
     ptrs := <[a:=o]> (ptrs h);
     next_cell := next_cell h |}.

(** The heap once the lifetime of the [SharedPtr] at [a] has ended. *)
Definition removed {T} (a : nat) (h : heap T) : heap T :=
  {| cells := cells h; objects := objects h;
     ptrs := delete a (ptrs h); next_cell := next_cell h |}.

(** Some [SharedPtr] of the map points to the object [x]. *)
Definition managed (x : nat) (m : gmap nat t) : Prop :=
  ∃ a sp, m !! a = Some sp ∧ rawPointer sp = Some x.

(** The object [x] was handed to the explicit constructor by one of the
    calls [ops]. *)
Definition handed (x : nat) (ops : list op) : Prop :=
  ∃ a, Ctor a (Some x) ∈ ops.

(** How the live objects of [h] relate to the objects [objs] the program
    started with, after the calls [ops]: only handed objects are managed, a
    handed object that is no longer managed has been deleted, and the other
    objects are as they were. *)
Record tracks {T} (objs : gmap nat T) (ops : list op) (h : heap T) : Prop := mk_tracks {
  tracks_handed : ∀ x, managed x (ptrs h) → handed x ops;
  tracks_deleted : ∀ x, handed x ops → ¬ managed x (ptrs h) → objects h !! x = None;
  tracks_untouched : ∀ x, ¬ handed x ops → objects h !! x = objs !! x;
  tracks_value : ∀ x v, objects h !! x = Some v → objs !! x = Some v
}.

(** The [SharedPtr] at [a] has not been moved from. *)
Definition engaged {T} (a : nat) (h : heap T) : Prop :=
  ∃ sp, ptrs h !! a = Some sp ∧ counter sp ≠ None.

(** What a program must respect at each call: a constructor runs at an
    address where no [SharedPtr] lives, on an argument that does; a raw
    pointer handed to the explicit constructor is null or points to a live
    object that no [SharedPtr] manages yet; copies are taken from, and
    assignments made to, a [SharedPtr] that has not been moved from; and
    there are fewer [SharedPtr] objects than a [size_t] can count. *)
Definition room {T} (h : heap T) : Prop :=
  (Z.of_nat (size (ptrs h)) + 1 < 2 ^ 64)%Z.

Definition pre {T} (o : op) (h : heap T) : Prop :=
  match o with
  | Ctor this p =>
      ptrs h !! this = None ∧ room h
      ∧ match p with
        | None => True
        | Some x =>
            is_Some (objects h !! x)
            ∧ ∀ a sp, ptrs h !! a = Some sp → rawPointer sp ≠ Some x
        end
  | CopyCtor this other =>
      ptrs h !! this = None ∧ room h ∧ engaged other h
  | MoveCtor this other =>
      ptrs h !! this = None ∧ room h ∧ is_Some (ptrs h !! other)
  | CopyAssign this other => engaged this h ∧ engaged other h
  | MoveAssign this other => engaged this h ∧ is_Some (ptrs h !! other)
  | Dtor this => is_Some (ptrs h !! this)
  end.

Fixpoint allowed {T} (ops : list op) (h : heap T) : Prop :=
  match ops with
  | [] => True
  | o :: ops' => pre o h ∧ ∀ h', step o h = Return h' → allowed ops' h'
  end.

(** The representation invariant: a cell is allocated exactly when some
    [SharedPtr] points to it and then holds the number of those that do;
    [SharedPtr] objects with the same cell have the same [rawPointer], those
    without a cell have none; managed objects are live and have one cell. *)
Record wf {T} (h : heap T) : Prop := mk_wf {
  wf_cells : ∀ l,
    cells h !! l =
    if decide (owners l (ptrs h) = 0) then None
    else Some (Z.of_nat (owners l (ptrs h)));
  wf_next : ∀ l, next_cell h ≤ l → owners l (ptrs h) = 0;
  wf_size : (Z.of_nat (size (ptrs h)) < 2 ^ 64)%Z;
  wf_null : ∀ a sp, ptrs h !! a = Some sp → counter sp = None → rawPointer sp = None;
  wf_same : ∀ a b sp sp',
    ptrs h !! a = Some sp → ptrs h !! b = Some sp' →
    counter sp = counter sp' → rawPointer sp = rawPointer sp';
  wf_live : ∀ a sp x,
    ptrs h !! a = Some sp → rawPointer sp = Some x → is_Some (objects h !! x);
  wf_one : ∀ a b sp sp' x,
    ptrs h !! a = Some sp → ptrs h !! b = Some sp' →
    rawPointer sp = Some x → rawPointer sp' = Some x → counter sp = counter sp'
}.
End SharedPtr.

(** ** The hand test of the source file, [test_lru] *)

Example test_lru_1 :
  (c ← after 2 [Put 1 10; Put 2 20]; get_value 1 c) = Ok 10%Z.
Proof. vm_compute. reflexivity. Qed.

Example test_lru_2 :
  (c ← after 2 [Put 1 10; Put 2 20; Get 1; Put 3 30]; get_value 2 c) = Ok (-1)%Z.
Proof. vm_compute. reflexivity. Qed.

Example test_lru_3 :
  (c ← after 2 [Put 1 10; Put 2 20; Get 1; Put 3 30; Get 2; Get 1; Put 4 40];
   get_value 3 c) = Ok (-1)%Z.
Proof. vm_compute. reflexivity. Qed.

Example test_lru_4 :
  (c ← after 2 [Put 1 10; Put 2 20; Get 1; Put 3 30; Get 2; Get 1; Put 4 40;
                Get 3; Put 4 44];
   get_value 4 c) = Ok 44%Z.
Proof. vm_compute. reflexivity. Qed.

(** The concrete caches above are the ones the calls produce. *)
Example cache_12_reached :
  after 2 [Put 1 10] = Ok cache_1 ∧ put 2 20 cache_1 = Ok cache_12.
Proof. split; vm_compute; reflexivity. Qed.

Example cache_13_reached : run [Get 1; Put 3 30] cache_12 = Ok cache_13.
Proof. vm_compute. reflexivity. Qed.

Example cache_34_reached : run [Put 3 30; Put 4 40] cache_12 = Ok cache_34.
Proof. vm_compute. reflexivity. Qed.

Example cache_23_reached : after 2 [Put 1 10; Put 2 20; Put 3 30] = Ok cache_23.
Proof. vm_compute. reflexivity. Qed.

(** ** The list primitives on a list with unique identities and keys *)

Section std_list.
Implicit Types (q : StdList.t) (it : iterator) (n : Node.t) (k : Z).

Lemma deref_elem_of q it n :
  NoDup q.*1 → (it, n) ∈ q → StdList.deref it q = Ok n.
Proof.
  induction q as [|[h m] q IH]; intros Hnd Hin; [by apply elem_of_nil in Hin|].
  apply NoDup_cons in Hnd as [Hh Hnd]. simpl.
  apply elem_of_cons in Hin as [Heq|Hin].
  - injection Heq as -> ->. by rewrite decide_True.
  - rewrite decide_False; [by apply IH|].
    intros ->. apply Hh. by apply (list_elem_of_fmap_2 fst) in Hin.
Qed.

Lemma deref_Ok q it n : StdList.deref it q = Ok n → (it, n) ∈ q.
Proof.
  induction q as [|[h m] q IH]; simpl; [done|].
  case_decide as Hh.
  - intros [= ->]. subst h. apply elem_of_cons. by left.
  - intros H. apply elem_of_cons. right. by apply IH.
Qed.

Lemma filter_other_keys q k :
  k ∉ Node.key <$> q.*2 → filter (λ hn, Node.key hn.2 ≠ k) q = q.
Proof.
  induction q as [|[h m] q IH]; [done|]. intros Hk.
  rewrite !fmap_cons in Hk. apply not_elem_of_cons in Hk as [Hm Hk].
  rewrite filter_cons_True by (simpl in *; congruence). by rewrite IH.
Qed.

Lemma erase_elem_of q it k v :
  NoDup q.*1 → NoDup (Node.key <$> q.*2) → (it, Node.mk k v) ∈ q →
  StdList.erase it q = Ok (filter (λ hn, Node.key hn.2 ≠ k) q).
Proof.
  induction q as [|[h m] q IH]; intros Hids Hkeys Hin;
    [by apply elem_of_nil in Hin|].
  simpl in Hids, Hkeys.
  apply NoDup_cons in Hids as [Hh Hids]. apply NoDup_cons in Hkeys as [Hm Hkeys].
  cbn [StdList.erase]. apply elem_of_cons in Hin as [Heq|Hin].
  - injection Heq as <- <-. rewrite decide_True by done.
    rewrite filter_cons_False by (simpl; tauto).
    by rewrite filter_other_keys.
  - assert (h ≠ it) as Hne.
    { intros ->. apply Hh. by apply (list_elem_of_fmap_2 fst) in Hin. }
    assert (Node.key m ≠ k) as Hk.
    { intros <-. apply Hm.
      apply (list_elem_of_fmap_2 snd), (list_elem_of_fmap_2 Node.key) in Hin.
      done. }
    rewrite decide_False by done. rewrite IH by done.
    by rewrite filter_cons_True.
Qed.

Lemma prev_end_push_back q n h :
  StdList.prev_end (StdList.push_back n h q) = Ok h.
Proof. unfold StdList.prev_end, StdList.push_back. by rewrite last_snoc. Qed.

Lemma filter_snd (P : Node.t → Prop) `{!∀ n, Decision (P n)} q :
  (filter (λ hn, P hn.2) q).*2 = filter P q.*2.
Proof.
  induction q as [|[h m] q IH]; [done|]. rewrite fmap_cons. cbn [snd].
  destruct (decide (P m)).
  - rewrite !filter_cons_True by done. rewrite fmap_cons. by rewrite IH.
  - by rewrite !filter_cons_False.
Qed.
End std_list.

(** ** The invariant and its consequences *)

Lemma NoDup_fmap_filter {A B} (f : A → B) (P : A → Prop)
    `{!∀ x, Decision (P x)} (l : list A) :
  NoDup (f <$> l) → NoDup (f <$> filter P l).
Proof.
  induction l as [|x l IH]; [done|]. rewrite fmap_cons.
  intros [Hx Hl]%NoDup_cons. destruct (decide (P x)).
  - rewrite filter_cons_True by done. rewrite fmap_cons. apply NoDup_cons.
    split; [|by apply IH].
    intros (y & Hy & [_ Hin]%list_elem_of_filter)%list_elem_of_fmap.
    apply Hx. rewrite Hy. by apply list_elem_of_fmap_2.
  - rewrite filter_cons_False by done. by apply IH.
Qed.

Section invariant.
Implicit Types (c : LRUCache) (k v : Z) (it : iterator) (n : Node.t).

Lemma keys_priorityQ c : keys c = (λ hn, Node.key hn.2) <$> priorityQ c.
Proof. unfold keys, nodes. by rewrite <- list_fmap_compose. Qed.

Lemma elem_of_keys c it k v : (it, Node.mk k v) ∈ priorityQ c → k ∈ keys c.
Proof.
  intros Hin. rewrite keys_priorityQ.
  by apply (list_elem_of_fmap_2 (λ hn, Node.key hn.2)) in Hin.
Qed.

Lemma coupled_cached c k : coupled c → cached k c ↔ k ∈ keys c.
Proof.
  intros Hc. unfold cached. split.
  - intros [it Hit]. apply (coupled_index c Hc) in Hit as [v Hin].
    by eapply elem_of_keys.
  - rewrite keys_priorityQ.
    intros ([it [k' v]] & -> & Hin)%list_elem_of_fmap. simpl.
    exists it. apply (coupled_index c Hc). by exists v.
Qed.

Lemma coupled_entry c k n :
  coupled c → entry k c = Some n ↔ n ∈ nodes c ∧ Node.key n = k.
Proof.
  intros Hc. unfold entry. split.
  - destruct (keyToNode c !! k) as [it|] eqn:Hit; [|done].
    apply (coupled_index c Hc) in Hit as [v Hin].
    rewrite (deref_elem_of _ _ _ (coupled_ids c Hc) Hin).
    intros [= <-]. split; [|done].
    by apply (list_elem_of_fmap_2 snd) in Hin.
  - intros [([it n'] & -> & Hin)%list_elem_of_fmap <-]. simpl.
    destruct n' as [k v]. simpl.
    assert (keyToNode c !! k = Some it) as ->.
    { apply (coupled_index c Hc). by exists v. }
    by rewrite (deref_elem_of _ _ _ (coupled_ids c Hc) Hin).
Qed.

Lemma coupled_list_to_map c :
  coupled c →
  keyToNode c = list_to_map ((λ hn, (Node.key hn.2, hn.1)) <$> priorityQ c).
Proof.
  intros Hc. apply map_eq. intros k. apply option_eq. intros it.
  rewrite (coupled_index c Hc), <- elem_of_list_to_map.
  - rewrite list_elem_of_fmap. split.
    + intros [v Hin]. by exists (it, Node.mk k v).
    + intros ([it' [k' v]] & [= -> ->] & Hin). by exists v.
  - rewrite <- list_fmap_compose. rewrite <- keys_priorityQ.
    apply (coupled_keys c Hc).
Qed.

Lemma coupled_size c : coupled c → size (keyToNode c) = length (priorityQ c).
Proof.
  intros Hc. rewrite (coupled_list_to_map c Hc) at 1.
  rewrite map_size_list_to_map, length_fmap; [done|].
  rewrite <- list_fmap_compose. rewrite <- keys_priorityQ.
  apply (coupled_keys c Hc).
Qed.

Lemma nodes_touch c k v :
  nodes (touch k v c)
  = filter (λ n, Node.key n ≠ k) (nodes c) ++ [Node.mk k v].
Proof.
  unfold nodes, touch. cbn [priorityQ]. rewrite fmap_app.
  by rewrite <- (filter_snd (λ n, Node.key n ≠ k)).
Qed.

Lemma nodes_evict c : nodes (evict c) = tail (nodes c).
Proof. unfold nodes, evict. cbn [priorityQ]. apply fmap_tail. Qed.

Lemma coupled_touch c k v : coupled c → coupled (touch k v c).
Proof.
  intros [Hids Hkeys Hfresh Hidx]. split.
  - cbn [touch priorityQ]. rewrite fmap_app. apply NoDup_app.
    split; [by apply NoDup_fmap_filter|]. split; [|apply NoDup_singleton].
    intros h ([h' n] & -> & [_ Hin]%list_elem_of_filter)%list_elem_of_fmap.
    rewrite Forall_forall in Hfresh. apply Hfresh in Hin.
    cbn in *. rewrite list_elem_of_singleton. lia.
  - unfold keys. rewrite nodes_touch, fmap_app. apply NoDup_app.
    split; [by apply NoDup_fmap_filter|]. split; [|apply NoDup_singleton].
    intros k' (n & -> & [Hne _]%list_elem_of_filter)%list_elem_of_fmap.
    cbn. by rewrite list_elem_of_singleton.
  - cbn [touch priorityQ next_node]. apply Forall_app. split.
    + rewrite Forall_forall in Hfresh. apply Forall_forall.
      intros hn [_ Hin]%list_elem_of_filter. apply Hfresh in Hin. lia.
    + apply Forall_singleton. cbn. lia.
  - intros k' it. cbn [touch priorityQ keyToNode].
    destruct (decide (k' = k)) as [->|Hne].
    + rewrite lookup_insert_eq. split.
      * intros [= <-]. exists v. apply elem_of_app. right.
        by apply list_elem_of_singleton.
      * intros [v' [[Hk _]%list_elem_of_filter|Hin%list_elem_of_singleton]%elem_of_app];
          [done|]. by injection Hin as -> _.
    + rewrite lookup_insert_ne by done. rewrite Hidx. split.
      * intros [v' Hin]. exists v'. apply elem_of_app. left.
        by apply list_elem_of_filter.
      * intros [v' [[_ Hin]%list_elem_of_filter|Hin%list_elem_of_singleton]%elem_of_app];
          [by exists v'|]. by injection Hin as _ -> _.
Qed.

Lemma coupled_evict c : coupled c → coupled (evict c).
Proof.
  intros Hc. pose proof Hc as [Hids Hkeys Hfresh Hidx].
  rewrite keys_priorityQ in Hkeys.
  destruct c as [q m cap nx]. cbn [priorityQ keyToNode next_node] in *.
  destruct q as [|[h0 n0] q]; [done|].
  rewrite fmap_cons in Hids. rewrite fmap_cons in Hkeys.
  apply NoDup_cons in Hids as [_ Hids]. apply NoDup_cons in Hkeys as [Hn0 Hkeys].
  apply Forall_cons in Hfresh as [_ Hfresh]. cbn [snd] in Hn0.
  split; cbn [evict priorityQ keyToNode next_node tail]; [done| |done|].
  - by rewrite keys_priorityQ.
  - intros k it. destruct (decide (k = Node.key n0)) as [->|Hne].
    + rewrite lookup_delete_eq. split; [done|]. intros [v Hin]. destruct Hn0.
      by apply (list_elem_of_fmap_2 (λ hn, Node.key hn.2)) in Hin.
    + rewrite lookup_delete_ne by done. rewrite Hidx. split.
      * intros [v [Heq|Hin]%elem_of_cons]; [|by exists v].
        injection Heq as _ <-. done.
      * intros [v Hin]. exists v. apply elem_of_cons. by right.
Qed.
End invariant.

(** ** What [get] and [put] do under the invariant *)

Section operations.
Implicit Types (c : LRUCache) (k v : Z) (it : iterator) (n : Node.t).

Lemma not_cached_None c k : ¬ cached k c ↔ keyToNode c !! k = None.
Proof. unfold cached. by rewrite eq_None_not_Some. Qed.

Lemma get_miss c k : ¬ cached k c → get k c = Ok ((-1)%Z, c).
Proof. intros Hk%not_cached_None. unfold get, UMap.find. by rewrite Hk. Qed.

Lemma entry_elem_of c k n :
  entry k c = Some n →
  ∃ it, keyToNode c !! k = Some it ∧ StdList.deref it (priorityQ c) = Ok n.
Proof.
  unfold entry. destruct (keyToNode c !! k) as [it|]; [|done].
  destruct (StdList.deref it (priorityQ c)) as [n'|] eqn:Hn; [|done].
  intros [= ->]. by exists it.
Qed.

Lemma get_hit c k v :
  coupled c → entry k c = Some (Node.mk k v) → get k c = Ok (v, touch k v c).
Proof.
  intros Hc (it & Hit & Hn)%entry_elem_of.
  unfold get, UMap.find. rewrite Hit, Hn. cbn [mbind result_bind Node.val].
  rewrite (erase_elem_of _ _ k v)
    by eauto using coupled_ids, coupled_keys, deref_Ok.
  cbn [mbind result_bind]. rewrite prev_end_push_back. cbn [mbind result_bind].
  unfold UMap.insert. rewrite lookup_delete_eq, insert_delete_eq. done.
Qed.

Lemma put_update c k v : coupled c → cached k c → put k v c = Ok (touch k v c).
Proof.
  intros Hc Hk. pose proof Hk as [it Hit].
  pose proof Hit as [v0 Hin]%(coupled_index c Hc).
  unfold put, UMap.find. cbv zeta.
  rewrite (bool_decide_eq_true_2 _ Hk), andb_false_r. rewrite Hit.
  cbn [mbind result_bind].
  rewrite (erase_elem_of _ _ k v0) by eauto using coupled_ids, coupled_keys.
  cbn [mbind result_bind]. rewrite prev_end_push_back. cbn [mbind result_bind].
  unfold UMap.insert. rewrite lookup_delete_eq, insert_delete_eq. done.
Qed.

Lemma put_insert c k v :
  coupled c → ¬ cached k c → eviction_branch k c = false →
  put k v c = Ok (touch k v c).
Proof.
  intros Hc Hk Hev. unfold eviction_branch in Hev.
  unfold put. cbv zeta. rewrite Hev. unfold UMap.find.
  rewrite (proj1 (not_cached_None c k) Hk). cbn [mbind result_bind].
  rewrite prev_end_push_back. cbn [mbind result_bind].
  unfold UMap.insert. rewrite (proj1 (not_cached_None c k) Hk).
  unfold touch, StdList.push_back. rewrite filter_other_keys; [done|].
  by rewrite <- (coupled_cached c k Hc).
Qed.

Lemma put_evict c k v :
  coupled c → ¬ cached k c → eviction_branch k c = true → priorityQ c ≠ [] →
  put k v c = Ok (touch k v (evict c)).
Proof.
  intros Hc Hk Hev Hq. unfold eviction_branch in Hev.
  pose proof (coupled_evict c Hc) as Hc'.
  assert (¬ cached k (evict c)) as Hk'.
  { rewrite not_cached_None in *. unfold evict. cbn [keyToNode].
    destruct (priorityQ c) as [|[h0 n0] q]; [done|].
    rewrite lookup_delete_None. by right. }
  unfold put. cbv zeta. rewrite Hev. unfold UMap.find.
  rewrite (proj1 (not_cached_None c k) Hk).
  unfold touch. rewrite filter_other_keys
    by (change (k ∉ keys (evict c)); by rewrite <- (coupled_cached _ k Hc')).
  apply not_cached_None in Hk'. revert Hk'. unfold evict.
  cbn [priorityQ keyToNode capacity next_node].
  destruct (priorityQ c) as [|[h0 [k0 v0]] q] eqn:Hpq; [done|].
  intros Hk'. cbn [Node.key] in Hk'.
  cbn [StdList.front mbind result_bind Node.key].
  unfold UMap.erase_found, UMap.find.
  assert (keyToNode c !! k0 = Some h0) as ->.
  { apply (coupled_index c Hc). exists v0. rewrite Hpq. apply elem_of_cons. by left. }
  cbn [mbind result_bind StdList.pop_front tail].
  rewrite prev_end_push_back. cbn [mbind result_bind].
  unfold UMap.insert. by rewrite Hk'.
Qed.

Lemma put_fault c k v :
  ¬ cached k c → eviction_branch k c = true → priorityQ c = [] →
  put k v c = Fault front_of_empty_list.
Proof.
  intros Hk Hev Hq. unfold eviction_branch in Hev.
  unfold put. cbv zeta. rewrite Hev, Hq. done.
Qed.

Lemma cached_entry c k :
  coupled c → cached k c → ∃ v, entry k c = Some (Node.mk k v).
Proof.
  intros Hc [it Hit]. pose proof Hit as [v Hin]%(coupled_index c Hc).
  exists v. unfold entry.
  by rewrite Hit, (deref_elem_of _ _ _ (coupled_ids c Hc) Hin).
Qed.

(** Every call is one of the six cases. *)
Lemma step_specP c o : coupled c → step_spec c o (step o c).
Proof.
  intros Hc. destruct o as [k|k v]; cbn [step].
  - destruct (decide (cached k c)) as [Hk|Hk].
    + destruct (cached_entry c k Hc Hk) as [v Hv].
      rewrite (get_hit c k v Hc Hv). by apply step_hit.
    + rewrite (get_miss c k Hk). by apply step_miss.
  - destruct (decide (cached k c)) as [Hk|Hk].
    { rewrite (put_update c k v Hc Hk). by apply step_update. }
    destruct (eviction_branch k c) eqn:Hev.
    + destruct (decide (priorityQ c = [])) as [Hq|Hq].
      * rewrite (put_fault c k v Hk Hev Hq). by apply step_fault.
      * rewrite (put_evict c k v Hc Hk Hev Hq). by apply step_evict.
    + rewrite (put_insert c k v Hc Hk Hev). by apply step_insert.
Qed.
End operations.

(** ** The invariant along a sequence of calls *)

Section runs.
Implicit Types (c : LRUCache) (k v : Z) (o : op) (ops : list op).

Lemma eviction_branch_true c k :
  eviction_branch k c = true ↔
  to_size_t (capacity c) = Z.of_nat (size (keyToNode c)) ∧ ¬ cached k c.
Proof.
  unfold eviction_branch, UMap.find, cached.
  rewrite andb_true_iff, Z.eqb_eq, negb_true_iff, bool_decide_eq_false. done.
Qed.

Lemma eviction_branch_false c k :
  ¬ cached k c → eviction_branch k c = false →
  to_size_t (capacity c) ≠ Z.of_nat (size (keyToNode c)).
Proof.
  intros Hk Hev Heq. rewrite <- not_true_iff_false in Hev.
  apply Hev, eviction_branch_true. done.
Qed.

Lemma size_touch_cached c k v :
  cached k c → size (keyToNode (touch k v c)) = size (keyToNode c).
Proof. intros Hk. cbn [touch keyToNode]. by apply map_size_insert_Some. Qed.

Lemma size_touch_new c k v :
  ¬ cached k c → size (keyToNode (touch k v c)) = S (size (keyToNode c)).
Proof.
  intros Hk%not_cached_None. cbn [touch keyToNode].
  by apply map_size_insert_None.
Qed.

Lemma cached_evict c k : cached k (evict c) → cached k c.
Proof.
  unfold cached, evict. cbn [keyToNode].
  destruct (priorityQ c) as [|[h0 n0] q]; [done|].
  intros [it [_ Hit]%lookup_delete_Some]. by exists it.
Qed.

Lemma size_evict c :
  coupled c → priorityQ c ≠ [] →
  S (size (keyToNode (evict c))) = size (keyToNode c).
Proof.
  intros Hc Hq. pose proof (coupled_size c Hc) as Hsz.
  pose proof (coupled_size _ (coupled_evict c Hc)) as Hsz'.
  rewrite Hsz, Hsz'. cbn [evict priorityQ].
  by destruct (priorityQ c).
Qed.

Lemma capacity_touch c k v : capacity (touch k v c) = capacity c.
Proof. done. Qed.

Lemma capacity_evict c : capacity (evict c) = capacity c.
Proof. done. Qed.

Lemma step_inv c o c' :
  inv c → step o c = Ok c' → inv c' ∧ capacity c' = capacity c.
Proof.
  intros [Hc Hcap] Hstep. pose proof (step_specP c o Hc) as Hspec.
  rewrite Hstep in Hspec. unfold inv, within_capacity in *.
  inversion Hspec as [k Hk|k v Hv|k v Hk|k v Hk Hev|k v Hk Hev Hq|]; subst;
    rewrite ?capacity_touch, ?capacity_evict;
    (split; [split|done]); auto using coupled_touch, coupled_evict.
  - rewrite size_touch_cached; [done|].
    apply (coupled_cached c k Hc). apply (coupled_entry c k _ Hc) in Hv as [Hin _].
    by apply (list_elem_of_fmap_2 Node.key) in Hin.
  - by rewrite size_touch_cached.
  - rewrite size_touch_new by done.
    pose proof (eviction_branch_false c k Hk Hev). lia.
  - rewrite size_touch_new by eauto using cached_evict.
    rewrite (size_evict c Hc Hq).
    apply eviction_branch_true in Hev as [-> _]. lia.
Qed.

Lemma step_total c o :
  coupled c → to_size_t (capacity c) ≠ 0%Z → ∃ c', step o c = Ok c'.
Proof.
  intros Hc Hcap. pose proof (step_specP c o Hc) as Hspec.
  inversion Hspec as [| | | | |k v Hk Hev Hq]; eauto.
  apply eviction_branch_true in Hev as [Hev _].
  rewrite (coupled_size c Hc), Hq in Hev. done.
Qed.

Lemma run_inv ops c c' :
  inv c → run ops c = Ok c' → inv c' ∧ capacity c' = capacity c.
Proof.
  revert c. induction ops as [|o ops IH]; intros c Hc; cbn [run].
  - by intros [= <-].
  - destruct (step o c) as [c1|] eqn:Hstep; [|done]. cbn [mbind result_bind].
    destruct (step_inv c o c1 Hc Hstep) as [Hc1 <-]. by apply IH.
Qed.

Lemma run_total ops c :
  inv c → to_size_t (capacity c) ≠ 0%Z → ∃ c', run ops c = Ok c'.
Proof.
  revert c. induction ops as [|o ops IH]; intros c Hc Hcap; cbn [run]; [eauto|].
  destruct (step_total c o (proj1 Hc) Hcap) as [c1 Hstep]. rewrite Hstep.
  cbn [mbind result_bind].
  destruct (step_inv c o c1 Hc Hstep) as [Hc1 Heq].
  apply IH; [done|]. by rewrite Heq.
Qed.

Lemma run_app ops1 ops2 c :
  run (ops1 ++ ops2) c = (c' ← run ops1 c; run ops2 c').
Proof.
  revert c. induction ops1 as [|o ops1 IH]; intros c; [done|].
  cbn [app run]. destruct (step o c) as [c1|]; [|done].
  cbn [mbind result_bind]. apply IH.
Qed.

Lemma inv_new cap : inv (mkLRUCache [] ∅ cap 0).
Proof.
  split.
  - split; cbn; try by (constructor).
    intros k it. rewrite lookup_empty. split; [done|].
    by intros [v Hin%elem_of_nil].
  - unfold within_capacity, to_size_t. cbn [keyToNode capacity].
    rewrite map_size_empty. pose proof (Z.mod_pos_bound cap (2 ^ 64)). lia.
Qed.

Lemma after_inv cap ops c : after cap ops = Ok c → inv c ∧ capacity c = cap.
Proof. unfold after, LRUCache_new. cbn. intros Hrun. by eapply run_inv in Hrun; [|apply inv_new]. Qed.

Lemma to_size_t_positive cap : positive_capacity cap → to_size_t cap = cap.
Proof.
  unfold positive_capacity, to_size_t, INT_MAX. intros Hcap.
  apply Z.mod_small. lia.
Qed.

Lemma after_total cap ops : positive_capacity cap → ∃ c, after cap ops = Ok c.
Proof.
  intros Hcap. unfold after, LRUCache_new. cbn [mbind result_bind].
  apply run_total; [apply inv_new|]. cbn [capacity].
  rewrite (to_size_t_positive cap Hcap). unfold positive_capacity in Hcap. lia.
Qed.
End runs.

(** ** Looking entries up after a touch *)

Section lookups.
Implicit Types (c : LRUCache) (k v : Z) (n : Node.t).

Lemma entry_touch c k v :
  coupled c → entry k (touch k v c) = Some (Node.mk k v).
Proof.
  intros Hc. apply (coupled_entry _ _ _ (coupled_touch c k v Hc)).
  rewrite nodes_touch. split; [|done].
  apply elem_of_app. right. by apply list_elem_of_singleton.
Qed.

Lemma entry_touch_ne c k v k' :
  coupled c → k' ≠ k → entry k' (touch k v c) = entry k' c.
Proof.
  intros Hc Hne. apply option_eq. intros n.
  rewrite (coupled_entry _ _ _ (coupled_touch c k v Hc)).
  rewrite (coupled_entry _ _ _ Hc).
  rewrite nodes_touch, elem_of_app, list_elem_of_filter, list_elem_of_singleton.
  split.
  - intros [[[_ Hin]| ->] Hk]; [done|]. cbn in Hk. congruence.
  - intros [Hin Hk]. split; [|done]. left. split; [congruence|done].
Qed.

Lemma last_nodes_touch c k v : last (nodes (touch k v c)) = Some (Node.mk k v).
Proof. rewrite nodes_touch. apply last_snoc. Qed.

Lemma entry_cached c k n : entry k c = Some n → cached k c.
Proof. intros (it & Hit & _)%entry_elem_of. by exists it. Qed.

Lemma dom_touch_cached c k v :
  cached k c → dom (keyToNode (touch k v c)) = dom (keyToNode c).
Proof. intros Hk. cbn [touch keyToNode]. by apply dom_insert_lookup_L. Qed.

Lemma length_touch_cached c k v :
  coupled c → cached k c →
  length (priorityQ (touch k v c)) = length (priorityQ c).
Proof.
  intros Hc Hk. rewrite <- (coupled_size _ (coupled_touch c k v Hc)).
  rewrite <- (coupled_size c Hc). by apply size_touch_cached.
Qed.

(** A successful [put] ends with the touch of its key. *)
Lemma put_touch c k v c' :
  coupled c → put k v c = Ok c' → ∃ c0, coupled c0 ∧ c' = touch k v c0.
Proof.
  intros Hc Hput. pose proof (step_specP c (Put k v) Hc) as Hspec.
  cbn [step] in Hspec. rewrite Hput in Hspec.
  inversion Hspec; subst; eauto using coupled_evict.
Qed.

Lemma get_value_touch c k v :
  coupled c → get_value k (touch k v c) = Ok v.
Proof.
  intros Hc. unfold get_value.
  by rewrite (get_hit _ k v (coupled_touch c k v Hc) (entry_touch c k v Hc)).
Qed.
End lookups.

(** ** The recency order while cached keys are left alone *)

Lemma filter_fmap {A B} (f : A → B) (P : B → Prop) `{!∀ y, Decision (P y)}
    (l : list A) :
  filter P (f <$> l) = f <$> filter (λ x, P (f x)) l.
Proof.
  induction l as [|x l IH]; [done|]. rewrite fmap_cons.
  destruct (decide (P (f x))).
  - rewrite !filter_cons_True by done. rewrite fmap_cons. by rewrite IH.
  - by rewrite !filter_cons_False.
Qed.

Lemma filter_Forall {A} (P : A → Prop) `{!∀ x, Decision (P x)} (l : list A) :
  Forall P l → filter P l = l.
Proof.
  induction 1 as [|x l Hx Hl IH]; [done|].
  rewrite filter_cons_True by done. by rewrite IH.
Qed.

Section recency.
Implicit Types (c : LRUCache) (k v : Z) (o : op) (ops : list op).

Lemma keys_touch c k v :
  keys (touch k v c) = filter (λ x, x ≠ k) (keys c) ++ [k].
Proof.
  unfold keys. rewrite nodes_touch, fmap_app.
  by rewrite (filter_fmap Node.key (λ x, x ≠ k)).
Qed.

Lemma keys_evict c : keys (evict c) = tail (keys c).
Proof. unfold keys. rewrite nodes_evict. apply fmap_tail. Qed.

Lemma keys_touch_new c k v :
  coupled c → ¬ cached k c → keys (touch k v c) = keys c ++ [k].
Proof.
  intros Hc Hk. rewrite keys_touch. rewrite filter_Forall; [done|].
  apply Forall_forall. intros x Hx ->. by apply Hk, (coupled_cached c k Hc).
Qed.

Lemma residue_start c : residue (keys c) c.
Proof. exists [], (keys c), []. by rewrite app_nil_r. Qed.

Lemma residue_touch (K0 : list Z) c k v :
  k ∉ K0 → residue K0 c → residue K0 (touch k v c).
Proof.
  intros Hk (gone & left & new & HK0 & Hkeys & Hnew).
  exists gone, left, (filter (λ x, x ≠ k) new ++ [k]).
  split; [done|]. split.
  - rewrite keys_touch, Hkeys, filter_app, <- app_assoc. f_equal.
    apply filter_Forall, Forall_forall. intros x Hx ->.
    apply Hk. rewrite HK0. apply elem_of_app. by right.
  - apply Forall_app. split; [|by apply Forall_singleton].
    rewrite Forall_forall in Hnew. apply Forall_forall.
    intros x [_ Hx]%list_elem_of_filter. by apply Hnew.
Qed.

Lemma residue_evict (K0 : list Z) c : residue K0 c → residue K0 (evict c).
Proof.
  intros (gone & left & new & HK0 & Hkeys & Hnew).
  destruct left as [|x left].
  - exists gone, [], (tail new). split; [done|].
    split; [|by apply Forall_tail]. rewrite keys_evict, Hkeys. done.
  - exists (gone ++ [x]), left, new. split; [by rewrite <- app_assoc|].
    split; [|done]. rewrite keys_evict, Hkeys. done.
Qed.

Lemma residue_step (K0 : list Z) c o c' :
  coupled c → op_key o ∉ K0 → step o c = Ok c' →
  residue K0 c → residue K0 c'.
Proof.
  intros Hc Hk Hstep Hres. pose proof (step_specP c o Hc) as Hspec.
  rewrite Hstep in Hspec.
  inversion Hspec; subst; cbn [op_key] in Hk;
    auto using residue_touch, residue_evict.
Qed.

Lemma residue_run (K0 : list Z) ops c c' :
  inv c → (∀ o, o ∈ ops → op_key o ∉ K0) → run ops c = Ok c' →
  residue K0 c → residue K0 c'.
Proof.
  revert c. induction ops as [|o ops IH]; intros c Hc Hops; cbn [run].
  - by intros [= <-].
  - destruct (step o c) as [c1|] eqn:Hstep; [|done]. cbn [mbind result_bind].
    intros Hrun Hres. apply (IH c1).
    + by apply (step_inv c o c1 Hc Hstep).
    + intros o' Ho'. apply Hops. apply elem_of_cons. by right.
    + done.
    + apply (residue_step K0 c o c1 (proj1 Hc)); [|done..].
      apply Hops. apply elem_of_cons. by left.
Qed.

(** Once the last key of [K0] has left the cache, all of [K0] has. *)
Lemma residue_last (K0 : list Z) c k k' :
  last K0 = Some k → residue K0 c → k ∉ keys c → k' ∈ K0 → k' ∉ keys c.
Proof.
  intros Hlast (gone & left & new & HK0 & Hkeys & Hnew) Hk Hk'.
  rewrite Hkeys in *. destruct (last left) as [x|] eqn:Hleft.
  - destruct Hk. apply elem_of_app. left.
    rewrite HK0, last_app, Hleft in Hlast. injection Hlast as <-.
    by apply last_Some_elem_of.
  - apply last_None in Hleft as ->. rewrite Forall_forall in Hnew.
    intros Hin. by apply (Hnew k').
Qed.

(** The key of a call that leaves its key cached is the most recent one. *)
Lemma step_last_key c o c' :
  coupled c → step o c = Ok c' → cached (op_key o) c' →
  last (keys c') = Some (op_key o).
Proof.
  intros Hc Hstep Hk. pose proof (step_specP c o Hc) as Hspec.
  rewrite Hstep in Hspec. unfold keys. rewrite fmap_last.
  inversion Hspec; subst; cbn [op_key] in *;
    try (by rewrite last_nodes_touch). done.
Qed.

(** Insertions of new keys into a cache that has room for them all. *)
Lemma run_puts_room kvs c :
  inv c → NoDup kvs.*1 → (∀ k, k ∈ kvs.*1 → ¬ cached k c) →
  (Z.of_nat (size (keyToNode c) + length kvs) ≤ to_size_t (capacity c))%Z →
  ∃ c', run (puts kvs) c = Ok c' ∧ nodes c' = nodes c ++ entries kvs
        ∧ inv c' ∧ capacity c' = capacity c.
Proof.
  revert c. induction kvs as [|[k v] kvs IH]; intros c Hc Hnd Hnew Hroom.
  { exists c. by rewrite app_nil_r. }
  rewrite fmap_cons in Hnd. apply NoDup_cons in Hnd as [Hk Hnd]. cbn [fst] in Hk.
  assert (¬ cached k c) as Hkc.
  { apply Hnew. rewrite fmap_cons. apply elem_of_cons. by left. }
  assert (eviction_branch k c = false) as Hev.
  { apply not_true_iff_false. intros [Heq _]%eviction_branch_true.
    rewrite Heq in Hroom. cbn [length] in Hroom. lia. }
  pose proof (put_insert c k v (proj1 Hc) Hkc Hev) as Hput.
  destruct (step_inv c (Put k v) _ Hc Hput) as [Hc1 Hcap1].
  destruct (IH (touch k v c)) as (c' & Hrun & Hnodes & Hc' & Hcap'); [done..| | |].
  - intros k' Hk' Hcached.
    apply (coupled_cached _ _ (proj1 Hc1)) in Hcached.
    rewrite (keys_touch_new c k v (proj1 Hc) Hkc) in Hcached.
    apply elem_of_app in Hcached as [Hin| ->%list_elem_of_singleton]; [|done].
    apply (Hnew k'); [|by apply (coupled_cached c k' (proj1 Hc))].
    rewrite fmap_cons. apply elem_of_cons. by right.
  - rewrite size_touch_new by done. rewrite Hcap1.
    cbn [length] in Hroom. lia.
  - exists c'. cbn [puts fmap list_fmap run fst snd step].
    rewrite Hput. cbn [mbind result_bind]. split; [done|].
    split; [|by rewrite Hcap', Hcap1].
    rewrite Hnodes, nodes_touch. rewrite filter_Forall.
    + by rewrite <- app_assoc.
    + apply Forall_forall. intros n Hn Heq. apply Hkc.
      apply (coupled_cached c k (proj1 Hc)). rewrite <- Heq.
      by apply (list_elem_of_fmap_2 Node.key).
Qed.
End recency.

(** ** Properties of the cache *)

(** Membership in the index of a concrete cache, by evaluation. *)
Ltac is_cached := unfold cached; vm_compute; eexists; reflexivity.
Ltac not_cached := unfold cached; vm_compute; intros [? ?]; discriminate.



(** C1, as stated, fails.  With capacity 2, after [put(1,10); put(2,20)] key
    2 has just been touched and keys 1 and 2 are cached.  The calls [get(1);
    put(3,30)] do not touch key 2, yet they evict it, while key 1 is cached
    at every point of them. *)
Lemma touching_another_key_evicts_first : ¬ evicted_last untouched.
Proof.
  intros H.
  destruct (H 2%Z [Put 1 10] cache_1 (Put 2 20) cache_12 [Get 1; Put 3 30] cache_13)
    with (k' := 1%Z) as (pre & c' & [suf Hpre] & Hrun & Hgone).
  - unfold positive_capacity, INT_MAX. lia.
  - vm_compute. reflexivity.
  - vm_compute. reflexivity.
  - is_cached.
  - unfold untouched. cbn.
    by intros [?|[?|?%elem_of_nil]%elem_of_cons]%elem_of_cons.
  - vm_compute. reflexivity.
  - not_cached.
  - is_cached.
  - done.
  - destruct pre as [|o1 [|o2 [|o3 pre]]]; cbn in Hpre.
    + injection Hrun as <-. apply Hgone. is_cached.
    + injection Hpre as <- _. vm_compute in Hrun. injection Hrun as <-.
      apply Hgone. is_cached.
    + injection Hpre as <- <- _. vm_compute in Hrun. injection Hrun as <-.
      apply Hgone. is_cached.
    + discriminate Hpre.
Qed.

(** C1, amended — LRU eviction order.  In a cache constructed with a positive
    capacity, a key [k] that a call has just touched ([put(k, v)], or a
    [get(k)] that hit) is evicted last among the keys cached at that moment,
    provided the later calls name none of those keys: if after such calls
    [k] is gone, so is every other key that was cached.  In particular,
    inserting [cap + 1] distinct keys into a new cache of capacity [cap],
    with no reads in between, leaves exactly the first-inserted key out: the
    entries are those of the other insertions, in order. *)
Theorem evicted_last_when_untouched :
  evicted_last all_untouched
  ∧ ∀ cap k0 v0 rest,
      (0 < cap ≤ INT_MAX)%Z →
      NoDup (k0 :: rest.*1) →
      Z.of_nat (length rest) = cap →
      ∃ c, after cap (puts ((k0, v0) :: rest)) = Ok c
           ∧ nodes c = entries rest
           ∧ ¬ cached k0 c
           ∧ ∀ k, k ∈ rest.*1 → cached k c.
Proof.
  split.
  - intros cap ops0 c0 o c ops c' Hcap [Hc0 _]%after_inv Hstep Hk Hquiet Hrun
      Hgone k' Hk' Hne.
    exists ops, c'. split; [done|]. split; [done|].
    destruct (step_inv c0 o c Hc0 Hstep) as [Hc _].
    destruct (run_inv ops c c' Hc Hrun) as [Hc' _].
    rewrite (coupled_cached c' k' (proj1 Hc')).
    rewrite (coupled_cached c' (op_key o) (proj1 Hc')) in Hgone.
    apply (residue_last (keys c) c' (op_key o)); [|  |done|].
    + by apply (step_last_key c0 o c (proj1 Hc0)).
    + apply (residue_run (keys c) ops c c' Hc); [|done|apply residue_start].
      intros o' Ho'. rewrite <- (coupled_cached c _ (proj1 Hc)).
      by apply Hquiet.
    + by apply (coupled_cached c k' (proj1 Hc)).
  - intros cap k0 v0 rest Hcap Hnd Hlen.
    assert (positive_capacity cap) as Hpos by done.
    destruct rest as [|[kl vl] rest _] using rev_ind; [cbn in Hlen; lia|].
    rewrite app_comm_cons. unfold after, LRUCache_new.
    cbn [mbind result_bind]. unfold puts. rewrite fmap_app, run_app.
    fold (puts ((k0, v0) :: rest)).
    rewrite length_app in Hlen. cbn [length] in Hlen.
    rewrite fmap_app, app_comm_cons in Hnd.
    apply NoDup_app in Hnd as (Hnd & Hkl & _).
    destruct (run_puts_room ((k0, v0) :: rest) (mkLRUCache [] ∅ cap 0))
      as (c1 & -> & Hnodes & Hc1 & Hcap1).
    { apply inv_new. }
    { done. }
    { intros k _. unfold cached. cbn [keyToNode]. rewrite lookup_empty.
      by intros [it Hit]. }
    { cbn [keyToNode capacity length]. rewrite map_size_empty.
      rewrite (to_size_t_positive cap Hpos). cbn [length]. lia. }
    cbn [mbind result_bind fmap list_fmap run step fst snd].
    cbn [nodes priorityQ fmap list_fmap app] in Hnodes.
    assert (keys c1 = ((k0, v0) :: rest).*1) as Hkeys.
    { unfold keys. rewrite Hnodes. unfold entries.
      by rewrite <- list_fmap_compose. }
    assert (¬ cached kl c1) as Hklc.
    { rewrite (coupled_cached c1 kl (proj1 Hc1)), Hkeys. intros Hin.
      apply (Hkl kl Hin). by apply list_elem_of_singleton. }
    assert (length (priorityQ c1) = S (length rest)) as Hlen1.
    { rewrite <- (length_fmap snd). fold (nodes c1). rewrite Hnodes.
      unfold entries. by rewrite length_fmap. }
    assert (eviction_branch kl c1 = true) as Hev.
    { apply eviction_branch_true. split; [|done].
      rewrite Hcap1. cbn [capacity]. rewrite (to_size_t_positive cap Hpos).
      rewrite (coupled_size c1 (proj1 Hc1)), Hlen1. lia. }
    assert (priorityQ c1 ≠ []) as Hq.
    { intros Hq. by rewrite Hq in Hlen1. }
    rewrite (put_evict c1 kl vl (proj1 Hc1) Hklc Hev Hq).
    cbn [mbind result_bind].
    pose proof (coupled_touch _ kl vl (coupled_evict c1 (proj1 Hc1))) as Hc2.
    assert (nodes (touch kl vl (evict c1)) = entries (rest ++ [(kl, vl)]))
      as Hnodes2.
    { rewrite nodes_touch, nodes_evict, Hnodes.
      change (entries ((k0, v0) :: rest)) with (Node.mk k0 v0 :: entries rest).
      cbn [tail]. unfold entries. rewrite fmap_app. f_equal.
      apply filter_Forall, Forall_forall.
      intros n (kv & -> & Hkv)%list_elem_of_fmap. cbn. intros Heq.
      apply (Hkl kl); [|by apply list_elem_of_singleton].
      apply elem_of_cons. right.
      rewrite <- Heq. by apply (list_elem_of_fmap_2 fst). }
    assert (keys (touch kl vl (evict c1)) = (rest ++ [(kl, vl)]).*1) as Hkeys2.
    { unfold keys. rewrite Hnodes2. unfold entries.
      by rewrite <- list_fmap_compose. }
    eexists. split; [done|]. split; [done|].
    apply NoDup_cons in Hnd as [Hk0 _].
    split.
    + rewrite (coupled_cached _ k0 Hc2), Hkeys2, fmap_app.
      intros [Hin|Hin]%elem_of_app; [done|].
      apply (Hkl k0); [|done]. apply elem_of_cons. by left.
    + intros k Hin. by rewrite (coupled_cached _ k Hc2), Hkeys2.
Qed.

Lemma evicted_last_when_untouched_witness :
  evicted_during 1 [Put 3 30; Put 4 40] cache_12
  ∧ ∃ c, after 2 (puts [(1, 10); (2, 20); (3, 30)]%Z) = Ok c
         ∧ nodes c = entries [(2, 20); (3, 30)]%Z
         ∧ ¬ cached 1 c
         ∧ ∀ k, k ∈ [(2, 20); (3, 30)]%Z.*1 → cached k c.
Proof.
  split.
  - apply (proj1 evicted_last_when_untouched
             2%Z [Put 1 10] cache_1 (Put 2 20) cache_12 [Put 3 30; Put 4 40] cache_34).
    + unfold positive_capacity, INT_MAX. lia.
    + vm_compute. reflexivity.
    + vm_compute. reflexivity.
    + is_cached.
    + intros o [->|[->|Ho%elem_of_nil]%elem_of_cons]%elem_of_cons;
        [not_cached|not_cached|done].
    + vm_compute. reflexivity.
    + not_cached.
    + is_cached.
    + done.
  - apply (proj2 evicted_last_when_untouched 2%Z 1%Z 10%Z [(2, 20); (3, 30)]%Z).
    + unfold INT_MAX. lia.
    + apply (bool_decide_unpack _). vm_compute. exact I.
    + reflexivity.
Defined.

(** C2 — capacity invariant.  A cache constructed with a positive capacity
    [cap] accepts every sequence of [get] and [put] calls, and after it the
    index and the recency list hold at most [cap] entries.  The sequence
    being arbitrary, the bound holds after every single call. *)
Theorem capacity_invariant (cap : Z) (ops : list op) :
  (0 < cap ≤ INT_MAX)%Z →
  ∃ c, after cap ops = Ok c
       ∧ (Z.of_nat (size (keyToNode c)) ≤ cap)%Z
       ∧ (Z.of_nat (length (priorityQ c)) ≤ cap)%Z.
Proof.
  intros Hcap. destruct (after_total cap ops Hcap) as [c Hc]. exists c.
  split; [done|]. apply after_inv in Hc as [[Hcpl Hsz] Heq].
  unfold within_capacity in Hsz.
  rewrite Heq, (to_size_t_positive cap Hcap) in Hsz.
  by rewrite <- (coupled_size c Hcpl).
Qed.

Lemma capacity_invariant_witness :
  ∃ c, after 2 [Put 1 10; Put 2 20; Get 1; Put 3 30; Put 4 40] = Ok c
       ∧ (Z.of_nat (size (keyToNode c)) ≤ 2)%Z
       ∧ (Z.of_nat (length (priorityQ c)) ≤ 2)%Z.
Proof.
  apply (capacity_invariant 2 [Put 1 10; Put 2 20; Get 1; Put 3 30; Put 4 40]).
  unfold INT_MAX. lia.
Defined.

(** C3 — value correctness.  In a cache constructed with a positive
    capacity, [put(k, v)] succeeds; right after it the index designates the
    entry [(k, v)] for [k], that entry is the most recently used one, and
    [get(k)] returns [v]. *)
Theorem put_then_get (cap : Z) (ops : list op) (c : LRUCache) (k v : Z) :
  (0 < cap ≤ INT_MAX)%Z →
  after cap ops = Ok c →
  ∃ c', put k v c = Ok c'
        ∧ entry k c' = Some (Node.mk k v)
        ∧ last (nodes c') = Some (Node.mk k v)
        ∧ get_value k c' = Ok v.
Proof.
  intros Hcap [[Hcpl _] Heq]%after_inv.
  destruct (step_total c (Put k v) Hcpl) as [c' Hput].
  { rewrite Heq, (to_size_t_positive cap Hcap). lia. }
  cbn [step] in Hput. destruct (put_touch c k v c' Hcpl Hput) as (c0 & Hc0 & ->).
  exists (touch k v c0). split; [done|]. split; [by apply entry_touch|].
  split; [apply last_nodes_touch|]. by apply get_value_touch.
Qed.

Lemma put_then_get_witness :
  ∃ c', put 7 70 cache_23 = Ok c'
        ∧ entry 7 c' = Some (Node.mk 7 70)
        ∧ last (nodes c') = Some (Node.mk 7 70)
        ∧ get_value 7 c' = Ok 70%Z.
Proof.
  apply (put_then_get 2 [Put 1 10; Put 2 20; Put 3 30] cache_23 7 70).
  - unfold INT_MAX. lia.
  - vm_compute. reflexivity.
Defined.

(** C4 — [get] on a present key.  In every cache reached from the
    constructor, if the index designates the entry [(k, v)] for [k], then
    [get(k)] returns [v]; afterwards [(k, v)] is the most recently used
    entry, the other entries keep their relative order, every key has the
    entry it had (so nothing is evicted), and the index and the list keep
    their sizes. *)
Theorem get_present (cap : Z) (ops : list op) (c : LRUCache) (k v : Z) :
  after cap ops = Ok c →
  entry k c = Some (Node.mk k v) →
  ∃ c', get k c = Ok (v, c')
        ∧ last (nodes c') = Some (Node.mk k v)
        ∧ nodes c' = filter (λ n, Node.key n ≠ k) (nodes c) ++ [Node.mk k v]
        ∧ (∀ k', entry k' c' = entry k' c)
        ∧ dom (keyToNode c') = dom (keyToNode c)
        ∧ size (keyToNode c') = size (keyToNode c)
        ∧ length (priorityQ c') = length (priorityQ c).
Proof.
  intros [[Hcpl _] _]%after_inv Hkv. pose proof (entry_cached c k _ Hkv) as Hk.
  exists (touch k v c). split; [by apply get_hit|].
  split; [apply last_nodes_touch|]. split; [apply nodes_touch|].
  split; [|auto using dom_touch_cached, size_touch_cached, length_touch_cached].
  intros k'. destruct (decide (k' = k)) as [->|Hne].
  - by rewrite entry_touch.
  - by apply entry_touch_ne.
Qed.

Lemma get_present_witness :
  ∃ c', get 2 cache_23 = Ok (20%Z, c')
        ∧ last (nodes c') = Some (Node.mk 2 20)
        ∧ nodes c' = filter (λ n, Node.key n ≠ 2%Z) (nodes cache_23) ++ [Node.mk 2 20]
        ∧ (∀ k', entry k' c' = entry k' cache_23)
        ∧ dom (keyToNode c') = dom (keyToNode cache_23)
        ∧ size (keyToNode c') = size (keyToNode cache_23)
        ∧ length (priorityQ c') = length (priorityQ cache_23).
Proof.
  apply (get_present 2 [Put 1 10; Put 2 20; Put 3 30] cache_23 2 20).
  - vm_compute. reflexivity.
  - vm_compute. reflexivity.
Defined.

(** C5 — update semantics.  In every cache reached from the constructor,
    [put(k, v2)] on a key already in the index succeeds; afterwards [k] has
    the entry [(k, v2)], which is the most recently used one, every other
    key has the entry it had and the other entries keep their relative order
    (so nothing is evicted), and the index and the list keep their sizes. *)
Theorem put_existing (cap : Z) (ops : list op) (c : LRUCache) (k v2 : Z) :
  after cap ops = Ok c →
  cached k c →
  ∃ c', put k v2 c = Ok c'
        ∧ entry k c' = Some (Node.mk k v2)
        ∧ last (nodes c') = Some (Node.mk k v2)
        ∧ nodes c' = filter (λ n, Node.key n ≠ k) (nodes c) ++ [Node.mk k v2]
        ∧ (∀ k', k' ≠ k → entry k' c' = entry k' c)
        ∧ dom (keyToNode c') = dom (keyToNode c)
        ∧ size (keyToNode c') = size (keyToNode c)
        ∧ length (priorityQ c') = length (priorityQ c).
Proof.
  intros [[Hcpl _] _]%after_inv Hk.
  exists (touch k v2 c). split; [by apply put_update|].
  split; [by apply entry_touch|]. split; [apply last_nodes_touch|].
  split; [apply nodes_touch|].
  split; [|auto using dom_touch_cached, size_touch_cached, length_touch_cached].
  intros k' Hne. by apply entry_touch_ne.
Qed.

Lemma put_existing_witness :
  ∃ c', put 2 44 cache_23 = Ok c'
        ∧ entry 2 c' = Some (Node.mk 2 44)
        ∧ last (nodes c') = Some (Node.mk 2 44)
        ∧ nodes c' = filter (λ n, Node.key n ≠ 2%Z) (nodes cache_23) ++ [Node.mk 2 44]
        ∧ (∀ k', k' ≠ 2%Z → entry k' c' = entry k' cache_23)
        ∧ dom (keyToNode c') = dom (keyToNode cache_23)
        ∧ size (keyToNode c') = size (keyToNode cache_23)
        ∧ length (priorityQ c') = length (priorityQ cache_23).
Proof.
  apply (put_existing 2 [Put 1 10; Put 2 20; Put 3 30] cache_23 2 44).
  - vm_compute. reflexivity.
  - exists 1. vm_compute. reflexivity.
Defined.

(** C6 — [get] on an absent key.  When [k] is not in the index, [get]
    returns the miss value [-1] as an ordinary result, not a fault, and the
    cache after the call is the cache before it. *)
Theorem get_absent_is_miss (c : LRUCache) (k : Z) :
  ¬ cached k c → get k c = Ok ((-1)%Z, c).
Proof. apply get_miss. Qed.

Lemma get_absent_is_miss_witness : get 1 cache_23 = Ok ((-1)%Z, cache_23).
Proof.
  apply (get_absent_is_miss cache_23 1).
  unfold cached. vm_compute. intros [it Hit]. discriminate Hit.
Defined.

(** C7 — index/list coupling.  In every cache reached from the constructor
    by [get] and [put] calls (none included), the index has as many entries
    as the recency list, and the iterator the index holds for a key [k]
    designates a list node whose key is [k]. *)
Theorem index_list_coupling (cap : Z) (ops : list op) (c : LRUCache) :
  after cap ops = Ok c →
  size (keyToNode c) = length (priorityQ c)
  ∧ ∀ k it, keyToNode c !! k = Some it →
      ∃ n, StdList.deref it (priorityQ c) = Ok n ∧ Node.key n = k.
Proof.
  intros [[Hcpl _] _]%after_inv. split; [by apply coupled_size|].
  intros k it [v Hin]%(coupled_index c Hcpl).
  exists (Node.mk k v). split; [|done].
  by apply deref_elem_of; [apply (coupled_ids c Hcpl)|].
Qed.

Lemma index_list_coupling_witness :
  size (keyToNode cache_23) = length (priorityQ cache_23)
  ∧ ∀ k it, keyToNode cache_23 !! k = Some it →
      ∃ n, StdList.deref it (priorityQ cache_23) = Ok n ∧ Node.key n = k.
Proof.
  apply (index_list_coupling 2 [Put 1 10; Put 2 20; Put 3 30] cache_23).
  vm_compute. reflexivity.
Defined.

(** C8, as stated, fails: the constructor does not report capacity [0]. *)
Lemma construction_accepts_zero : ¬ construction_rejects 0.
Proof. intros [f Hf]. discriminate Hf. Qed.

(** C8, amended — construction never reports an error: for every capacity,
    positive or not, the constructor returns an empty cache holding that
    capacity.  With capacity [0] the failure comes at the first [put], which
    reads the front of the empty list; a [get] on that cache is a miss. *)
Theorem construction_never_rejects :
  (∀ cap, LRUCache_new cap = Ok (mkLRUCache [] ∅ cap 0))
  ∧ (∀ k v, after 0 [Put k v] = Fault front_of_empty_list)
  ∧ (∀ k, after 0 [Get k] = Ok (mkLRUCache [] ∅ 0 0)).
Proof.
  split; [done|]. split.
  - intros k v. unfold after, LRUCache_new. cbn [mbind result_bind run step].
    rewrite put_fault; [done| | |done].
    + unfold cached. cbn [keyToNode]. rewrite lookup_empty. by intros [it Hit].
    + apply eviction_branch_true. cbn [keyToNode capacity]. split; [done|].
      unfold cached. cbn [keyToNode]. rewrite lookup_empty. by intros [it Hit].
  - intros k. unfold after, LRUCache_new. cbn [mbind result_bind run step].
    rewrite get_miss; [done|].
    unfold cached. cbn [keyToNode]. rewrite lookup_empty. by intros [it Hit].
Qed.

(** C9 — the miss value collides with a stored value.  In a cache
    constructed with a positive capacity, [put(k, -1)] succeeds and leaves
    [k] cached with value [-1]; [get(k)] then returns [-1], which is also
    what [get] returns for any key [k'] that is not cached: the two cases
    give the caller the same result. *)
Theorem miss_value_collision (cap : Z) (ops : list op) (c : LRUCache) (k k' : Z) :
  (0 < cap ≤ INT_MAX)%Z →
  after cap ops = Ok c →
  ∃ c', put k (-1) c = Ok c'
        ∧ entry k c' = Some (Node.mk k (-1))
        ∧ get_value k c' = Ok (-1)%Z
        ∧ (¬ cached k' c' → get_value k' c' = Ok (-1)%Z).
Proof.
  intros Hcap [[Hcpl _] Heq]%after_inv.
  destruct (step_total c (Put k (-1)) Hcpl) as [c' Hput].
  { rewrite Heq, (to_size_t_positive cap Hcap). lia. }
  cbn [step] in Hput.
  destruct (put_touch c k (-1) c' Hcpl Hput) as (c0 & Hc0 & ->).
  eexists. split; [done|]. split; [by apply entry_touch|].
  split; [by apply get_value_touch|].
  intros Hk'. unfold get_value. by rewrite get_miss.
Qed.

Lemma miss_value_collision_witness :
  ∃ c', put 7 (-1) cache_23 = Ok c'
        ∧ entry 7 c' = Some (Node.mk 7 (-1))
        ∧ get_value 7 c' = Ok (-1)%Z
        ∧ (¬ cached 2 c' → get_value 2 c' = Ok (-1)%Z).
Proof.
  apply (miss_value_collision 2 [Put 1 10; Put 2 20; Put 3 30] cache_23 7 2).
  - unfold INT_MAX. lia.
  - vm_compute. reflexivity.
Defined.

(** C10 — safety of the eviction branch.  In a cache constructed with a
    capacity of at least 1, whenever [put] takes the eviction branch the
    recency list is not empty: reading its front, erasing the front's key
    from the index and popping the front all succeed, and so does the whole
    [put].  With capacity [0] the same branch is taken on the empty list and
    [put] faults there. *)
Theorem eviction_branch_safe :
  (∀ cap ops c k v,
     (1 ≤ cap ≤ INT_MAX)%Z →
     after cap ops = Ok c →
     eviction_branch k c = true →
     priorityQ c ≠ []
     ∧ (∃ n m q, StdList.front (priorityQ c) = Ok n
                 ∧ UMap.erase_found (Node.key n) (keyToNode c) = Ok m
                 ∧ StdList.pop_front (priorityQ c) = Ok q)
     ∧ ∃ c', put k v c = Ok c')
  ∧ (∀ k v, ∃ c0, LRUCache_new 0 = Ok c0
                  ∧ eviction_branch k c0 = true
                  ∧ priorityQ c0 = []
                  ∧ put k v c0 = Fault front_of_empty_list).
Proof.
  split.
  - intros cap ops c k v Hcap [[Hcpl Hsz] Heq]%after_inv Hev.
    assert (positive_capacity cap) as Hpos by (unfold positive_capacity; lia).
    assert (priorityQ c ≠ []) as Hq.
    { intros Hq. apply eviction_branch_true in Hev as [Hev _].
      rewrite (coupled_size c Hcpl), Hq, Heq in Hev.
      rewrite (to_size_t_positive cap Hpos) in Hev. cbn in Hev. lia. }
    split; [done|]. split.
    + destruct (priorityQ c) as [|[h0 [k0 v0]] q] eqn:Hpq; [done|].
      exists (Node.mk k0 v0), (delete k0 (keyToNode c)), q.
      split; [done|]. split; [|done].
      unfold UMap.erase_found, UMap.find. cbn [Node.key].
      assert (keyToNode c !! k0 = Some h0) as ->; [|done].
      apply (coupled_index c Hcpl). exists v0. rewrite Hpq.
      apply elem_of_cons. by left.
    + apply (step_total c (Put k v) Hcpl).
      rewrite Heq, (to_size_t_positive cap Hpos). lia.
  - intros k v. exists (mkLRUCache [] ∅ 0 0). split; [done|].
    assert (¬ cached k (mkLRUCache [] ∅ 0 0)) as Hk.
    { unfold cached. cbn [keyToNode]. rewrite lookup_empty. by intros [it Hit]. }
    assert (eviction_branch k (mkLRUCache [] ∅ 0 0) = true) as Hev.
    { by apply eviction_branch_true. }
    split; [done|]. split; [done|]. by apply put_fault.
Qed.

Lemma eviction_branch_safe_witness :
  priorityQ cache_23 ≠ []
  ∧ (∃ n m q, StdList.front (priorityQ cache_23) = Ok n
              ∧ UMap.erase_found (Node.key n) (keyToNode cache_23) = Ok m
              ∧ StdList.pop_front (priorityQ cache_23) = Ok q)
  ∧ ∃ c', put 7 70 cache_23 = Ok c'.
Proof.
  apply (proj1 eviction_branch_safe 2%Z [Put 1 10; Put 2 20; Put 3 30] cache_23 7%Z 70%Z).
  - unfold INT_MAX. lia.
  - vm_compute. reflexivity.
  - vm_compute. reflexivity.
Defined.

(** ** Further properties of [get] and [put] *)

Section more_operations.
Implicit Types (c : LRUCache) (k v : Z) (n : Node.t) (o : op) (ops : list op).

Lemma elem_of_tail {A} (x : A) (l : list A) : x ∈ tail l → x ∈ l.
Proof. destruct l; [done|]. intros Hx. apply elem_of_cons. by right. Qed.

Lemma tail_drop {A} (l : list A) (d : nat) : tail (drop d l) = drop (S d) l.
Proof.
  revert d. induction l as [|x l IH]; intros d; [by destruct d|].
  destruct d; [by rewrite drop_0|]. apply IH.
Qed.

Lemma after_snoc cap ops o :
  after cap (ops ++ [o]) = (c ← after cap ops; step o c).
Proof.
  unfold after, LRUCache_new. cbn [mbind result_bind]. rewrite run_app.
  destruct (run ops _) as [c|]; [|done]. cbn [mbind result_bind run].
  by destruct (step o c).
Qed.

Lemma entry_evict c k n :
  coupled c → entry k (evict c) = Some n → entry k c = Some n.
Proof.
  intros Hc. rewrite (coupled_entry _ _ _ (coupled_evict c Hc)).
  rewrite (coupled_entry _ _ _ Hc), nodes_evict.
  intros [Hin Hk]. split; [|done]. by apply elem_of_tail.
Qed.

Lemma entry_evict_ne c k lru rest :
  coupled c → nodes c = lru :: rest → k ≠ Node.key lru →
  entry k (evict c) = entry k c.
Proof.
  intros Hc Hnodes Hne. apply option_eq. intros n.
  rewrite (coupled_entry _ _ _ (coupled_evict c Hc)).
  rewrite (coupled_entry _ _ _ Hc), nodes_evict, Hnodes. cbn [tail].
  rewrite elem_of_cons. split; [tauto|]. intros [[->|Hin] Hk]; [done|tauto].
Qed.

Lemma nodes_touch_new c k v :
  coupled c → ¬ cached k c → nodes (touch k v c) = nodes c ++ [Node.mk k v].
Proof.
  intros Hc Hk. rewrite nodes_touch. rewrite filter_Forall; [done|].
  apply Forall_forall. intros n Hn Heq. apply Hk, (coupled_cached c k Hc).
  rewrite <- Heq. by apply (list_elem_of_fmap_2 Node.key).
Qed.

Lemma length_nodes c : length (nodes c) = length (priorityQ c).
Proof. unfold nodes. apply length_fmap. Qed.

Lemma eviction_branch_iff c k :
  ¬ cached k c →
  eviction_branch k c = true ↔
  to_size_t (capacity c) = Z.of_nat (size (keyToNode c)).
Proof. intros Hk. rewrite eviction_branch_true. tauto. Qed.
End more_operations.

(** X1 — the index covers the list.  In every cache reached from the
    constructor, the keys of the recency list are pairwise distinct, so are
    the node identities, and every node of the list is the one the index
    designates for its key. *)
Theorem index_covers_list (cap : Z) (ops : list op) (c : LRUCache) :
  after cap ops = Ok c →
  NoDup (keys c)
  ∧ NoDup (priorityQ c).*1
  ∧ ∀ it n, (it, n) ∈ priorityQ c → keyToNode c !! Node.key n = Some it.
Proof.
  intros [[Hcpl _] _]%after_inv.
  split; [apply (coupled_keys c Hcpl)|]. split; [apply (coupled_ids c Hcpl)|].
  intros it [k v] Hin. apply (coupled_index c Hcpl). by exists v.
Qed.

Lemma index_covers_list_witness :
  NoDup (keys cache_23)
  ∧ NoDup (priorityQ cache_23).*1
  ∧ ∀ it n, (it, n) ∈ priorityQ cache_23 →
      keyToNode cache_23 !! Node.key n = Some it.
Proof.
  apply (index_covers_list 2 [Put 1 10; Put 2 20; Put 3 30] cache_23).
  vm_compute. reflexivity.
Defined.

(** X2 — inserting a new key while there is room.  In a cache constructed
    with a positive capacity that holds fewer entries than its capacity,
    [put] of a key that is not cached evicts nothing: the new entry is
    appended as the most recently used one, the index grows by one, and
    every other key has the entry it had. *)
Theorem put_new_with_room (cap : Z) (ops : list op) (c : LRUCache) (k v : Z) :
  (0 < cap ≤ INT_MAX)%Z →
  after cap ops = Ok c →
  ¬ cached k c →
  (Z.of_nat (size (keyToNode c)) < cap)%Z →
  ∃ c', put k v c = Ok c'
        ∧ nodes c' = nodes c ++ [Node.mk k v]
        ∧ size (keyToNode c') = S (size (keyToNode c))
        ∧ ∀ k', k' ≠ k → entry k' c' = entry k' c.
Proof.
  intros Hcap [[Hcpl _] Heq]%after_inv Hk Hroom.
  assert (eviction_branch k c = false) as Hev.
  { apply not_true_iff_false. rewrite (eviction_branch_iff c k Hk).
    rewrite Heq, (to_size_t_positive cap Hcap). lia. }
  exists (touch k v c). split; [by apply put_insert|].
  split; [by apply nodes_touch_new|]. split; [by apply size_touch_new|].
  intros k' Hne. by apply entry_touch_ne.
Qed.

Lemma put_new_with_room_witness :
  ∃ c', put 3 30 cache_1 = Ok c'
        ∧ nodes c' = nodes cache_1 ++ [Node.mk 3 30]
        ∧ size (keyToNode c') = S (size (keyToNode cache_1))
        ∧ ∀ k', k' ≠ 3%Z → entry k' c' = entry k' cache_1.
Proof.
  apply (put_new_with_room 2 [Put 1 10] cache_1 3 30).
  - unfold INT_MAX. lia.
  - vm_compute. reflexivity.
  - not_cached.
  - vm_compute. reflexivity.
Defined.

(** X3 — inserting a new key into a full cache.  In a cache constructed with
    a positive capacity that holds as many entries as its capacity, [put] of
    a key that is not cached evicts exactly the entry at the front of the
    recency list: that key is no longer cached and [get] on it misses, the
    new entry is appended to the remaining ones, the index keeps its size,
    and every key other than the two has the entry it had. *)
Theorem put_new_when_full (cap : Z) (ops : list op) (c : LRUCache) (k v : Z) :
  (0 < cap ≤ INT_MAX)%Z →
  after cap ops = Ok c →
  ¬ cached k c →
  Z.of_nat (size (keyToNode c)) = cap →
  ∃ lru rest c',
    nodes c = lru :: rest
    ∧ put k v c = Ok c'
    ∧ nodes c' = rest ++ [Node.mk k v]
    ∧ ¬ cached (Node.key lru) c'
    ∧ get_value (Node.key lru) c' = Ok (-1)%Z
    ∧ size (keyToNode c') = size (keyToNode c)
    ∧ ∀ k', k' ≠ k → k' ≠ Node.key lru → entry k' c' = entry k' c.
Proof.
  intros Hcap [[Hcpl _] Heq]%after_inv Hk Hfull.
  assert (eviction_branch k c = true) as Hev.
  { rewrite (eviction_branch_iff c k Hk).
    by rewrite Heq, (to_size_t_positive cap Hcap). }
  destruct (nodes c) as [|lru rest] eqn:Hnodes.
  { rewrite (coupled_size c Hcpl), <- length_nodes, Hnodes in Hfull.
    cbn in Hfull. lia. }
  assert (priorityQ c ≠ []) as Hq.
  { intros Hq. unfold nodes in Hnodes. by rewrite Hq in Hnodes. }
  pose proof (coupled_evict c Hcpl) as Hcpl'.
  assert (¬ cached k (evict c)) as Hk' by eauto using cached_evict.
  pose proof (coupled_touch (evict c) k v Hcpl') as Hcpl''.
  assert (nodes (touch k v (evict c)) = rest ++ [Node.mk k v]) as Hnodes'.
  { rewrite (nodes_touch_new _ k v Hcpl' Hk'), nodes_evict. by rewrite Hnodes. }
  assert (¬ cached (Node.key lru) (touch k v (evict c))) as Hgone.
  { rewrite (coupled_cached _ _ Hcpl''). unfold keys. rewrite Hnodes', fmap_app.
    pose proof (coupled_keys c Hcpl) as Hnd. unfold keys in Hnd.
    rewrite Hnodes, fmap_cons in Hnd. apply NoDup_cons in Hnd as [Hlru _].
    intros [Hin|Hin%list_elem_of_singleton]%elem_of_app; [done|].
    cbn [Node.key] in Hin. apply Hk, (coupled_cached c k Hcpl). unfold keys.
    rewrite Hnodes, fmap_cons, Hin. apply elem_of_cons. by left. }
  exists lru, rest, (touch k v (evict c)).
  split; [done|]. split; [by apply put_evict|]. split; [done|].
  split; [done|]. split; [unfold get_value; by rewrite get_miss|]. split.
  - rewrite size_touch_new by done. by apply size_evict.
  - intros k' Hne Hne'. rewrite entry_touch_ne by done.
    by apply (entry_evict_ne c k' lru rest).
Qed.

Lemma put_new_when_full_witness :
  ∃ lru rest c',
    nodes cache_23 = lru :: rest
    ∧ put 7 70 cache_23 = Ok c'
    ∧ nodes c' = rest ++ [Node.mk 7 70]
    ∧ ¬ cached (Node.key lru) c'
    ∧ get_value (Node.key lru) c' = Ok (-1)%Z
    ∧ size (keyToNode c') = size (keyToNode cache_23)
    ∧ ∀ k', k' ≠ 7%Z → k' ≠ Node.key lru → entry k' c' = entry k' cache_23.
Proof.
  apply (put_new_when_full 2 [Put 1 10; Put 2 20; Put 3 30] cache_23 7 70).
  - unfold INT_MAX. lia.
  - vm_compute. reflexivity.
  - not_cached.
  - vm_compute. reflexivity.
Defined.

(** X4 — a cached value is the last one written.  Whatever calls produced
    the cache, the entry the index designates for a key [k] carries the
    value of the last [put(k, _)] among those calls: no [get], no eviction
    and no [put] on another key ever changes the value stored for [k]. *)
Theorem cached_value_is_last_put (cap : Z) (ops : list op) (c : LRUCache) (k v : Z) :
  after cap ops = Ok c →
  entry k c = Some (Node.mk k v) →
  ∃ pre post, ops = pre ++ Put k v :: post ∧ ∀ v', Put k v' ∉ post.
Proof.
  revert c. induction ops as [|o ops IH] using rev_ind; intros c.
  { intros [= <-]. unfold entry. cbn [keyToNode]. by rewrite lookup_empty. }
  rewrite after_snoc. destruct (after cap ops) as [c1|] eqn:Hafter; [|done].
  cbn [mbind result_bind]. intros Hstep Hentry.
  pose proof Hafter as [[Hcpl _] _]%after_inv.
  assert (∀ o', (∀ v', o' ≠ Put k v') → entry k c1 = Some (Node.mk k v) →
          ∃ pre post, ops ++ [o'] = pre ++ Put k v :: post
                      ∧ ∀ v', Put k v' ∉ post) as Hkeep.
  { intros o' Ho' Hc1. destruct (IH c1 eq_refl Hc1) as (pre & post & -> & Hpost).
    exists pre, (post ++ [o']). split; [by rewrite <- app_assoc|].
    intros v' [Hin|Hin%list_elem_of_singleton]%elem_of_app.
    - by apply (Hpost v').
    - by apply (Ho' v'). }
  pose proof (step_specP c1 o Hcpl) as Hspec. rewrite Hstep in Hspec.
  inversion Hspec as [k0 Hk0|k0 v0 Hv0|k0 v0 Hk0|k0 v0 Hk0 Hev|k0 v0 Hk0 Hev Hq|];
    subst.
  - by apply Hkeep.
  - apply Hkeep; [done|]. destruct (decide (k = k0)) as [->|Hne].
    + rewrite entry_touch in Hentry by done. by rewrite <- Hentry.
    + by rewrite entry_touch_ne in Hentry.
  - destruct (decide (k = k0)) as [->|Hne].
    + rewrite entry_touch in Hentry by done. injection Hentry as <-.
      exists ops, []. split; [done|]. intros v'. apply not_elem_of_nil.
    + apply Hkeep; [congruence|]. by rewrite entry_touch_ne in Hentry.
  - destruct (decide (k = k0)) as [->|Hne].
    + rewrite entry_touch in Hentry by done. injection Hentry as <-.
      exists ops, []. split; [done|]. intros v'. apply not_elem_of_nil.
    + apply Hkeep; [congruence|]. by rewrite entry_touch_ne in Hentry.
  - pose proof (coupled_evict c1 Hcpl) as Hcpl'.
    destruct (decide (k = k0)) as [->|Hne].
    + rewrite entry_touch in Hentry by done. injection Hentry as <-.
      exists ops, []. split; [done|]. intros v'. apply not_elem_of_nil.
    + apply Hkeep; [congruence|]. rewrite entry_touch_ne in Hentry by done.
      by apply entry_evict.
Qed.

Lemma cached_value_is_last_put_witness :
  ∃ pre post, [Put 1 10; Put 2 20; Get 1; Put 2 22; Put 3 30]
              = pre ++ Put 2 22 :: post
              ∧ ∀ v', Put 2 v' ∉ post.
Proof.
  apply (cached_value_is_last_put 3 [Put 1 10; Put 2 20; Get 1; Put 2 22; Put 3 30]
           (mkLRUCache [(2, Node.mk 1 10); (3, Node.mk 2 22); (4, Node.mk 3 30)]
              (<[3%Z:=4]> (<[2%Z:=3]> (<[1%Z:=2]> ∅))) 3 5) 2 22).
  - vm_compute. reflexivity.
  - vm_compute. reflexivity.
Defined.

(** X5 — a negative capacity.  The constructor accepts a negative [int];
    the comparison with the [size_t] size then sees [2 ^ 64 + capacity].  On
    such a cache no call ever faults, and insertions of distinct keys evict
    nothing: all of them stay cached, in insertion order. *)
Theorem negative_capacity_never_evicts (cap : Z) (ops : list op) (kvs : list (Z * Z)) :
  (- INT_MAX - 1 ≤ cap < 0)%Z →
  (∃ c, after cap ops = Ok c)
  ∧ (NoDup kvs.*1 →
     (Z.of_nat (length kvs) ≤ 2 ^ 64 + cap)%Z →
     ∃ c, after cap (puts kvs) = Ok c ∧ nodes c = entries kvs).
Proof.
  intros Hcap.
  assert (to_size_t cap = 2 ^ 64 + cap)%Z as Hsz.
  { unfold to_size_t. unfold INT_MAX in Hcap.
    symmetry. apply (Z.mod_unique_pos _ _ (-1)); lia. }
  split.
  - unfold after, LRUCache_new. cbn [mbind result_bind].
    apply run_total; [apply inv_new|]. cbn [capacity]. rewrite Hsz.
    unfold INT_MAX in Hcap. lia.
  - intros Hnd Hlen. unfold after, LRUCache_new. cbn [mbind result_bind].
    destruct (run_puts_room kvs (mkLRUCache [] ∅ cap 0))
      as (c & Hrun & Hnodes & _); [apply inv_new|done| |  |by exists c].
    + intros k _. unfold cached. cbn [keyToNode]. rewrite lookup_empty.
      by intros [it Hit].
    + cbn [keyToNode capacity]. rewrite map_size_empty, Hsz. lia.
Qed.

Lemma negative_capacity_never_evicts_witness :
  (∃ c, after (-1) [Put 1 10; Get 1; Put 2 20] = Ok c)
  ∧ (NoDup [(1, 10); (2, 20); (3, 30)]%Z.*1 →
     (Z.of_nat (length [(1, 10); (2, 20); (3, 30)]%Z) ≤ 2 ^ 64 + -1)%Z →
     ∃ c, after (-1) (puts [(1, 10); (2, 20); (3, 30)]%Z) = Ok c
          ∧ nodes c = entries [(1, 10); (2, 20); (3, 30)]%Z).
Proof.
  apply (negative_capacity_never_evicts (-1) [Put 1 10; Get 1; Put 2 20]
           [(1, 10); (2, 20); (3, 30)]%Z).
  unfold INT_MAX. lia.
Defined.

(** X6 — a second [put] on the same key overwrites the first.  In a cache
    constructed with a positive capacity, [put(k, v)] followed by
    [put(k, v')] leaves the same entries, in the same order, as
    [put(k, v')] alone. *)
Theorem put_put_overwrites (cap : Z) (ops : list op) (c : LRUCache) (k v v' : Z) :
  (0 < cap ≤ INT_MAX)%Z →
  after cap ops = Ok c →
  ∃ c1 c2 c2',
    put k v c = Ok c1 ∧ put k v' c1 = Ok c2 ∧ put k v' c = Ok c2'
    ∧ nodes c2 = nodes c2'.
Proof.
  intros Hcap [[Hcpl _] Heq]%after_inv.
  assert (to_size_t (capacity c) ≠ 0%Z) as Hnz.
  { rewrite Heq, (to_size_t_positive cap Hcap). lia. }
  assert (∃ c0, coupled c0 ∧ ∀ w, put k w c = Ok (touch k w c0)) as (c0 & Hc0 & Hput).
  { destruct (decide (cached k c)) as [Hk|Hk].
    { exists c. split; [done|]. intros w. by apply put_update. }
    destruct (eviction_branch k c) eqn:Hev.
    - exists (evict c). split; [by apply coupled_evict|]. intros w.
      apply put_evict; [done..|]. intros Hq.
      apply eviction_branch_true in Hev as [Hev _].
      rewrite (coupled_size c Hcpl), Hq in Hev. done.
    - exists c. split; [done|]. intros w. by apply put_insert. }
  pose proof (coupled_touch c0 k v Hc0) as Hc1.
  exists (touch k v c0), (touch k v' (touch k v c0)), (touch k v' c0).
  split; [done|]. split; [|split; [done|]].
  - apply put_update; [done|]. eapply entry_cached. by apply entry_touch.
  - rewrite !nodes_touch, filter_app. f_equal.
    rewrite filter_cons_False by (cbn; tauto).
    rewrite filter_nil, app_nil_r. apply filter_Forall, Forall_forall.
    by intros n [Hn _]%list_elem_of_filter.
Qed.

Lemma put_put_overwrites_witness :
  ∃ c1 c2 c2',
    put 7 70 cache_23 = Ok c1 ∧ put 7 71 c1 = Ok c2 ∧ put 7 71 cache_23 = Ok c2'
    ∧ nodes c2 = nodes c2'.
Proof.
  apply (put_put_overwrites 2 [Put 1 10; Put 2 20; Put 3 30] cache_23 7 70 71).
  - unfold INT_MAX. lia.
  - vm_compute. reflexivity.
Defined.

(** X7 — an insert-only workload keeps the latest keys.  Inserting any
    number of distinct keys into a new cache of positive capacity [cap],
    with no reads in between, succeeds and leaves exactly the last [cap]
    inserted entries (all of them when there are fewer), in insertion
    order. *)
Theorem insert_only_keeps_latest (cap : Z) (kvs : list (Z * Z)) :
  (0 < cap ≤ INT_MAX)%Z →
  NoDup kvs.*1 →
  ∃ c, after cap (puts kvs) = Ok c
       ∧ nodes c = entries (drop (length kvs - Z.to_nat cap) kvs).
Proof.
  intros Hcap. induction kvs as [|[k v] kvs IH] using rev_ind; intros Hnd.
  { by exists (mkLRUCache [] ∅ cap 0). }
  rewrite fmap_app in Hnd. apply NoDup_app in Hnd as (Hnd & Hnew & _).
  destruct (IH Hnd) as (c1 & Hafter & Hnodes).
  pose proof Hafter as [[Hcpl _] Heq]%after_inv.
  replace (puts (kvs ++ [(k, v)])) with (puts kvs ++ [Put k v])
    by (unfold puts; by rewrite fmap_app).
  rewrite after_snoc, Hafter. cbn [mbind result_bind step].
  assert (¬ cached k c1) as Hk.
  { rewrite (coupled_cached c1 k Hcpl). unfold keys. rewrite Hnodes.
    intros (n & Hn & (kv & -> & Hkv%subseteq_drop)%list_elem_of_fmap)%list_elem_of_fmap.
    apply (Hnew k); [|by apply list_elem_of_singleton].
    cbn in Hn. rewrite Hn. by apply (list_elem_of_fmap_2 fst). }
  assert (size (keyToNode c1) = length kvs - (length kvs - Z.to_nat cap)) as Hsz.
  { rewrite (coupled_size c1 Hcpl), <- length_nodes, Hnodes.
    unfold entries. by rewrite length_fmap, length_drop. }
  rewrite length_app. cbn [length].
  destruct (decide (length kvs < Z.to_nat cap)) as [Hlt|Hge].
  - assert (eviction_branch k c1 = false) as Hev.
    { apply not_true_iff_false. rewrite (eviction_branch_iff c1 k Hk).
      rewrite Heq, (to_size_t_positive cap Hcap), Hsz. lia. }
    exists (touch k v c1). split; [by apply put_insert|].
    rewrite (nodes_touch_new c1 k v Hcpl Hk), Hnodes.
    replace (length kvs - Z.to_nat cap) with 0 by lia.
    replace (length kvs + 1 - Z.to_nat cap) with 0 by lia.
    rewrite !drop_0. unfold entries. by rewrite fmap_app.
  - assert (eviction_branch k c1 = true) as Hev.
    { rewrite (eviction_branch_iff c1 k Hk).
      rewrite Heq, (to_size_t_positive cap Hcap), Hsz. lia. }
    assert (priorityQ c1 ≠ []) as Hq.
    { intros Hq. rewrite (coupled_size c1 Hcpl), Hq in Hsz. cbn in Hsz. lia. }
    pose proof (coupled_evict c1 Hcpl) as Hcpl'.
    exists (touch k v (evict c1)). split; [by apply put_evict|].
    rewrite (nodes_touch_new _ k v Hcpl') by eauto using cached_evict.
    rewrite nodes_evict, Hnodes. unfold entries.
    rewrite <- fmap_tail, tail_drop.
    replace (length kvs + 1 - Z.to_nat cap) with (S (length kvs - Z.to_nat cap))
      by lia.
    rewrite drop_app_le by lia. by rewrite fmap_app.
Qed.

Lemma insert_only_keeps_latest_witness :
  ∃ c, after 2 (puts [(1, 10); (2, 20); (3, 30); (4, 40)]%Z) = Ok c
       ∧ nodes c = entries (drop (length [(1, 10); (2, 20); (3, 30); (4, 40)]%Z
                                  - Z.to_nat 2)
                              [(1, 10); (2, 20); (3, 30); (4, 40)]%Z).
Proof.
  apply (insert_only_keeps_latest 2 [(1, 10); (2, 20); (3, 30); (4, 40)]%Z).
  - unfold INT_MAX. lia.
  - apply (bool_decide_unpack _). vm_compute. exact I.
Defined.

(** * Properties of the bounded queue *)

Section cyclic_queue.
Context {T : Type}.
Implicit Types (q : CyclicQueue.t T) (val : T) (vals : list T).

Lemma CyclicQueue_wf_new (cap : Z) :
  (0 ≤ cap < 2 ^ 64)%Z → CyclicQueue.wf (CyclicQueue.new (T:=T) cap).
Proof. intros Hcap. split; cbn; lia. Qed.

Lemma CyclicQueue_IsFull_length q :
  CyclicQueue.wf q →
  CyclicQueue.IsFull q = true ↔
  Z.of_nat (length (CyclicQueue.elements q)) = CyclicQueue.capacity q.
Proof.
  intros [Hn _]. unfold CyclicQueue.IsFull. rewrite Z.eqb_eq, Hn. lia.
Qed.

Lemma CyclicQueue_IsEmpty_nil q :
  CyclicQueue.wf q →
  CyclicQueue.IsEmpty q = true ↔ CyclicQueue.elements q = [].
Proof.
  intros [Hn _]. unfold CyclicQueue.IsEmpty. rewrite Z.eqb_eq, Hn.
  destruct (CyclicQueue.elements q); cbn; split; (done || lia).
Qed.

Lemma CyclicQueue_Enqueue_room q val :
  CyclicQueue.wf q →
  (Z.of_nat (length (CyclicQueue.elements q)) < CyclicQueue.capacity q)%Z →
  CyclicQueue.Enqueue val q =
  Return (CyclicQueue.mk (CyclicQueue.capacity q) (CyclicQueue.numElements q + 1)
            (CyclicQueue.elements q ++ [val])).
Proof.
  intros Hwf Hroom. pose proof Hwf as [Hn Hcap]. unfold CyclicQueue.Enqueue.
  destruct (CyclicQueue.IsFull q) eqn:Hfull.
  { apply (CyclicQueue_IsFull_length q Hwf) in Hfull. lia. }
  unfold to_size_t. rewrite Z.mod_small by lia. done.
Qed.

Lemma CyclicQueue_Enqueue_full q val :
  CyclicQueue.wf q →
  Z.of_nat (length (CyclicQueue.elements q)) = CyclicQueue.capacity q →
  CyclicQueue.Enqueue val q = Throw "Queue is full, enqueue is prohibited".
Proof.
  intros Hwf Hfull%(CyclicQueue_IsFull_length q Hwf).
  unfold CyclicQueue.Enqueue. by rewrite Hfull.
Qed.

Lemma CyclicQueue_Dequeue_cons q val vals :
  CyclicQueue.wf q → CyclicQueue.elements q = val :: vals →
  CyclicQueue.GetOldest q = Return val
  ∧ CyclicQueue.Dequeue q =
    Return (CyclicQueue.mk (CyclicQueue.capacity q) (CyclicQueue.numElements q - 1)
              vals).
Proof.
  intros Hwf Hel. pose proof Hwf as [Hn Hcap].
  unfold CyclicQueue.GetOldest, CyclicQueue.Dequeue.
  destruct (CyclicQueue.IsEmpty q) eqn:Hempty.
  { apply (CyclicQueue_IsEmpty_nil q Hwf) in Hempty. congruence. }
  rewrite Hel. split; [done|]. rewrite Hel in Hn. cbn [length] in Hn.
  unfold to_size_t. rewrite Z.mod_small by lia. done.
Qed.

Lemma CyclicQueue_Dequeue_nil q :
  CyclicQueue.wf q → CyclicQueue.elements q = [] →
  CyclicQueue.GetOldest q = Throw "Queue is empty, GetOldest is prohibited"
  ∧ CyclicQueue.Dequeue q = Throw "Queue is empty, dequeue is prohibited".
Proof.
  intros Hwf Hempty%(CyclicQueue_IsEmpty_nil q Hwf).
  unfold CyclicQueue.GetOldest, CyclicQueue.Dequeue. by rewrite Hempty.
Qed.

Lemma CyclicQueue_wf_step q o q' :
  CyclicQueue.wf q → CyclicQueue.step o q = Return q' →
  CyclicQueue.wf q' ∧ CyclicQueue.capacity q' = CyclicQueue.capacity q.
Proof.
  intros Hwf. pose proof Hwf as [Hn Hcap]. destruct o as [val|]; cbn [CyclicQueue.step].
  - destruct (decide (Z.of_nat (length (CyclicQueue.elements q))
                      = CyclicQueue.capacity q)) as [Hfull|Hroom].
    + by rewrite CyclicQueue_Enqueue_full.
    + rewrite CyclicQueue_Enqueue_room by (done || lia). intros [= <-].
      split; [|done]. split; cbn; rewrite ?length_app; cbn; lia.
  - destruct (CyclicQueue.elements q) as [|val vals] eqn:Hel.
    + by rewrite (proj2 (CyclicQueue_Dequeue_nil q Hwf Hel)).
    + rewrite (proj2 (CyclicQueue_Dequeue_cons q val vals Hwf Hel)).
      intros [= <-]. split; [|done]. cbn [length] in Hn.
      split; cbn; lia.
Qed.

Lemma CyclicQueue_wf_run ops q q' :
  CyclicQueue.wf q → CyclicQueue.run ops q = Return q' →
  CyclicQueue.wf q' ∧ CyclicQueue.capacity q' = CyclicQueue.capacity q.
Proof.
  revert q. induction ops as [|o ops IH]; intros q Hwf; cbn [CyclicQueue.run].
  - by intros [= <-].
  - destruct (CyclicQueue.step o q) as [q1| |] eqn:Hstep; [|done..].
    cbn [mbind outcome_bind]. intros Hrun.
    destruct (CyclicQueue_wf_step q o q1 Hwf Hstep) as [Hwf1 <-].
    by apply IH.
Qed.
End cyclic_queue.

Section cyclic_queue_loops.
Context {T : Type}.
Implicit Types (q : CyclicQueue.t T) (val : T) (vals : list T).

Lemma CyclicQueue_enqueue_all_fits vals q :
  CyclicQueue.wf q →
  (Z.of_nat (length (CyclicQueue.elements q) + length vals)
   ≤ CyclicQueue.capacity q)%Z →
  CyclicQueue.enqueue_all vals q =
  Return (CyclicQueue.mk (CyclicQueue.capacity q)
            (CyclicQueue.numElements q + Z.of_nat (length vals))
            (CyclicQueue.elements q ++ vals)).
Proof.
  revert q. induction vals as [|val vals IH]; intros q Hwf Hfit.
  { cbn. rewrite Z.add_0_r, app_nil_r. by destruct q. }
  cbn [CyclicQueue.enqueue_all length] in *.
  rewrite CyclicQueue_Enqueue_room by (done || lia). cbn [mbind outcome_bind].
  rewrite IH.
  - cbn [CyclicQueue.capacity CyclicQueue.numElements CyclicQueue.elements].
    rewrite <- app_assoc. do 2 f_equal. lia.
  - apply (CyclicQueue_wf_step q (CyclicQueue.enqueue val)); [done|].
    cbn [CyclicQueue.step]. apply CyclicQueue_Enqueue_room; [done|lia].
  - cbn [CyclicQueue.capacity CyclicQueue.elements]. rewrite length_app.
    cbn [length]. lia.
Qed.

Lemma CyclicQueue_enqueue_all_overflow vals q :
  CyclicQueue.wf q →
  (CyclicQueue.capacity q
   < Z.of_nat (length (CyclicQueue.elements q) + length vals))%Z →
  CyclicQueue.enqueue_all vals q = Throw "Queue is full, enqueue is prohibited".
Proof.
  revert q. induction vals as [|val vals IH]; intros q Hwf Hover.
  { destruct Hwf as [Hn Hcap]. cbn [length] in Hover. lia. }
  cbn [CyclicQueue.enqueue_all length] in *.
  destruct (decide (Z.of_nat (length (CyclicQueue.elements q))
                    = CyclicQueue.capacity q)) as [Hfull|Hroom].
  { by rewrite CyclicQueue_Enqueue_full. }
  assert (Z.of_nat (length (CyclicQueue.elements q)) < CyclicQueue.capacity q)%Z
    as Hlt by (destruct Hwf; lia).
  pose proof (CyclicQueue_Enqueue_room q val Hwf Hlt) as Henq.
  rewrite Henq. cbn [mbind outcome_bind]. apply IH.
  - by apply (CyclicQueue_wf_step q (CyclicQueue.enqueue val)).
  - cbn [CyclicQueue.capacity CyclicQueue.elements]. rewrite length_app.
    cbn [length]. lia.
Qed.

Lemma CyclicQueue_dequeue_n_le n q :
  CyclicQueue.wf q →
  n ≤ length (CyclicQueue.elements q) →
  CyclicQueue.dequeue_n n q =
  Return (take n (CyclicQueue.elements q),
          CyclicQueue.mk (CyclicQueue.capacity q)
            (CyclicQueue.numElements q - Z.of_nat n)
            (drop n (CyclicQueue.elements q))).
Proof.
  revert q. induction n as [|n IH]; intros q Hwf Hn.
  { cbn. rewrite Z.sub_0_r. by destruct q. }
  destruct (CyclicQueue.elements q) as [|val vals] eqn:Hel;
    [cbn [length] in Hn; lia|].
  destruct (CyclicQueue_Dequeue_cons q val vals Hwf Hel) as [Hget Hdeq].
  cbn [CyclicQueue.dequeue_n]. rewrite Hget, Hdeq. cbn [mbind outcome_bind].
  rewrite IH.
  - cbn [CyclicQueue.capacity CyclicQueue.numElements CyclicQueue.elements
         mbind outcome_bind take drop].
    do 3 f_equal. lia.
  - apply (CyclicQueue_wf_step q CyclicQueue.dequeue); [done|].
    cbn [CyclicQueue.step]. exact Hdeq.
  - cbn [CyclicQueue.elements]. cbn [length] in Hn. lia.
Qed.

Lemma CyclicQueue_dequeue_n_gt n q :
  CyclicQueue.wf q →
  length (CyclicQueue.elements q) < n →
  CyclicQueue.dequeue_n n q = Throw "Queue is empty, GetOldest is prohibited".
Proof.
  revert q. induction n as [|n IH]; intros q Hwf Hn; [lia|].
  cbn [CyclicQueue.dequeue_n].
  destruct (CyclicQueue.elements q) as [|val vals] eqn:Hel.
  { by rewrite (proj1 (CyclicQueue_Dequeue_nil q Hwf Hel)). }
  destruct (CyclicQueue_Dequeue_cons q val vals Hwf Hel) as [Hget Hdeq].
  rewrite Hget, Hdeq. cbn [mbind outcome_bind]. rewrite IH; [done| |].
  - apply (CyclicQueue_wf_step q CyclicQueue.dequeue); [done|].
    cbn [CyclicQueue.step]. exact Hdeq.
  - cbn [CyclicQueue.elements]. cbn [length] in Hn. lia.
Qed.

Lemma CyclicQueue_reachable_wf cap ops q :
  (0 ≤ cap < 2 ^ 64)%Z →
  CyclicQueue.run ops (CyclicQueue.new cap) = Return q →
  CyclicQueue.wf q ∧ CyclicQueue.capacity q = cap.
Proof.
  intros Hcap Hrun.
  by apply (CyclicQueue_wf_run ops _ q (CyclicQueue_wf_new cap Hcap)).
Qed.
End cyclic_queue_loops.

(** X8 — the counter of the queue.  In every queue reached from the
    constructor by [Enqueue] and [Dequeue] calls that returned, [Count] is
    the number of stored elements and never exceeds the capacity, [IsEmpty]
    holds exactly when no element is stored and [IsFull] exactly when their
    number is the capacity. *)
Theorem CyclicQueue_count_invariant {T : Type} (cap : Z)
    (ops : list (CyclicQueue.op T)) (q : CyclicQueue.t T) :
  (0 ≤ cap < 2 ^ 64)%Z →
  CyclicQueue.run ops (CyclicQueue.new cap) = Return q →
  CyclicQueue.capacity q = cap
  ∧ CyclicQueue.Count q = Z.of_nat (length (CyclicQueue.elements q))
  ∧ (CyclicQueue.Count q ≤ cap)%Z
  ∧ (CyclicQueue.IsEmpty q = true ↔ CyclicQueue.elements q = [])
  ∧ (CyclicQueue.IsFull q = true ↔
     Z.of_nat (length (CyclicQueue.elements q)) = cap).
Proof.
  intros Hcap [Hwf Heq]%CyclicQueue_reachable_wf; [|done].
  pose proof Hwf as [Hn Hle]. unfold CyclicQueue.Count.
  split; [done|]. split; [done|]. split; [lia|].
  split; [by apply CyclicQueue_IsEmpty_nil|].
  rewrite <- Heq. by apply CyclicQueue_IsFull_length.
Qed.

Lemma CyclicQueue_count_invariant_witness :
  CyclicQueue.capacity (CyclicQueue.mk 3 2 [20; 30]%Z) = 3%Z
  ∧ CyclicQueue.Count (CyclicQueue.mk 3 2 [20; 30]%Z)
    = Z.of_nat (length (CyclicQueue.elements (CyclicQueue.mk 3 2 [20; 30]%Z)))
  ∧ (CyclicQueue.Count (CyclicQueue.mk 3 2 [20; 30]%Z) ≤ 3)%Z
  ∧ (CyclicQueue.IsEmpty (CyclicQueue.mk 3 2 [20; 30]%Z) = true
     ↔ CyclicQueue.elements (CyclicQueue.mk 3 2 [20; 30]%Z) = [])
  ∧ (CyclicQueue.IsFull (CyclicQueue.mk 3 2 [20; 30]%Z) = true
     ↔ Z.of_nat (length (CyclicQueue.elements (CyclicQueue.mk 3 2 [20; 30]%Z)))
       = 3%Z).
Proof.
  apply (CyclicQueue_count_invariant 3
           [CyclicQueue.enqueue 10%Z; CyclicQueue.enqueue 20%Z;
            CyclicQueue.dequeue; CyclicQueue.enqueue 30%Z]).
  - lia.
  - vm_compute. reflexivity.
Defined.

(** X9 — [Enqueue] on a reached queue.  When fewer elements are stored than
    the capacity, [Enqueue] returns, the value becomes the newest element
    and [Count] grows by one; when the queue is full (which a queue of
    capacity 0 always is) it throws "Queue is full, enqueue is prohibited".
    It never has undefined behaviour. *)
Theorem CyclicQueue_Enqueue_outcome {T : Type} (cap : Z)
    (ops : list (CyclicQueue.op T)) (q : CyclicQueue.t T) (val : T) :
  (0 ≤ cap < 2 ^ 64)%Z →
  CyclicQueue.run ops (CyclicQueue.new cap) = Return q →
  if decide (Z.of_nat (length (CyclicQueue.elements q)) = cap)
  then CyclicQueue.Enqueue val q = Throw "Queue is full, enqueue is prohibited"
  else ∃ q', CyclicQueue.Enqueue val q = Return q'
             ∧ CyclicQueue.elements q' = CyclicQueue.elements q ++ [val]
             ∧ CyclicQueue.Count q' = (CyclicQueue.Count q + 1)%Z
             ∧ CyclicQueue.capacity q' = cap.
Proof.
  intros Hcap [Hwf Heq]%CyclicQueue_reachable_wf; [|done].
  case_decide as Hfull.
  - apply CyclicQueue_Enqueue_full; [done|]. by rewrite Heq.
  - eexists. split.
    + apply CyclicQueue_Enqueue_room; [done|]. destruct Hwf. lia.
    + by cbn.
Qed.

Lemma CyclicQueue_Enqueue_outcome_witness :
  if decide (Z.of_nat (length (CyclicQueue.elements (CyclicQueue.mk 3 2 [20; 30]%Z)))
             = 3%Z)
  then CyclicQueue.Enqueue 40%Z (CyclicQueue.mk 3 2 [20; 30]%Z)
       = Throw "Queue is full, enqueue is prohibited"
  else ∃ q', CyclicQueue.Enqueue 40%Z (CyclicQueue.mk 3 2 [20; 30]%Z) = Return q'
             ∧ CyclicQueue.elements q'
               = CyclicQueue.elements (CyclicQueue.mk 3 2 [20; 30]%Z) ++ [40%Z]
             ∧ CyclicQueue.Count q'
               = (CyclicQueue.Count (CyclicQueue.mk 3 2 [20; 30]%Z) + 1)%Z
             ∧ CyclicQueue.capacity q' = 3%Z.
Proof.
  apply (CyclicQueue_Enqueue_outcome 3
           [CyclicQueue.enqueue 10%Z; CyclicQueue.enqueue 20%Z;
            CyclicQueue.dequeue; CyclicQueue.enqueue 30%Z]).
  - lia.
  - vm_compute. reflexivity.
Defined.

(** X10 — [GetOldest] and [Dequeue] on a reached queue.  On an empty queue
    both throw, each with its own message.  Otherwise [GetOldest] returns
    the element stored first among those present, and [Dequeue] removes
    exactly that element, keeps the others in order and lowers [Count] by
    one.  Neither ever has undefined behaviour. *)
Theorem CyclicQueue_Dequeue_outcome {T : Type} (cap : Z)
    (ops : list (CyclicQueue.op T)) (q : CyclicQueue.t T) :
  (0 ≤ cap < 2 ^ 64)%Z →
  CyclicQueue.run ops (CyclicQueue.new cap) = Return q →
  match CyclicQueue.elements q with
  | [] =>
      CyclicQueue.GetOldest q = Throw "Queue is empty, GetOldest is prohibited"
      ∧ CyclicQueue.Dequeue q = Throw "Queue is empty, dequeue is prohibited"
  | val :: vals =>
      CyclicQueue.GetOldest q = Return val
      ∧ ∃ q', CyclicQueue.Dequeue q = Return q'
              ∧ CyclicQueue.elements q' = vals
              ∧ CyclicQueue.Count q' = (CyclicQueue.Count q - 1)%Z
              ∧ CyclicQueue.capacity q' = cap
  end.
Proof.
  intros Hcap [Hwf Heq]%CyclicQueue_reachable_wf; [|done].
  destruct (CyclicQueue.elements q) as [|val vals] eqn:Hel.
  - by apply CyclicQueue_Dequeue_nil.
  - destruct (CyclicQueue_Dequeue_cons q val vals Hwf Hel) as [Hget Hdeq].
    split; [done|]. eexists. split; [exact Hdeq|]. by cbn.
Qed.

Lemma CyclicQueue_Dequeue_outcome_witness :
  match CyclicQueue.elements (CyclicQueue.mk 3 2 [20; 30]%Z) with
  | [] =>
      CyclicQueue.GetOldest (CyclicQueue.mk 3 2 [20; 30]%Z)
      = Throw "Queue is empty, GetOldest is prohibited"
      ∧ CyclicQueue.Dequeue (CyclicQueue.mk 3 2 [20; 30]%Z)
        = Throw "Queue is empty, dequeue is prohibited"
  | val :: vals =>
      CyclicQueue.GetOldest (CyclicQueue.mk 3 2 [20; 30]%Z) = Return val
      ∧ ∃ q', CyclicQueue.Dequeue (CyclicQueue.mk 3 2 [20; 30]%Z) = Return q'
              ∧ CyclicQueue.elements q' = vals
              ∧ CyclicQueue.Count q'
                = (CyclicQueue.Count (CyclicQueue.mk 3 2 [20; 30]%Z) - 1)%Z
              ∧ CyclicQueue.capacity q' = 3%Z
  end.
Proof.
  apply (CyclicQueue_Dequeue_outcome 3
           [CyclicQueue.enqueue 10%Z; CyclicQueue.enqueue 20%Z;
            CyclicQueue.dequeue; CyclicQueue.enqueue 30%Z]).
  - lia.
  - vm_compute. reflexivity.
Defined.

(** X11 — filling the queue.  Enqueuing a list of values one after the
    other on a reached queue returns when they all fit, the values being
    appended in order; when they do not all fit, the loop is cut short by
    the exception "Queue is full, enqueue is prohibited". *)
Theorem CyclicQueue_enqueue_all_outcome {T : Type} (cap : Z)
    (ops : list (CyclicQueue.op T)) (q : CyclicQueue.t T) (vals : list T) :
  (0 ≤ cap < 2 ^ 64)%Z →
  CyclicQueue.run ops (CyclicQueue.new cap) = Return q →
  if decide (Z.of_nat (length (CyclicQueue.elements q) + length vals) ≤ cap)%Z
  then ∃ q', CyclicQueue.enqueue_all vals q = Return q'
             ∧ CyclicQueue.elements q' = CyclicQueue.elements q ++ vals
             ∧ CyclicQueue.Count q'
               = (CyclicQueue.Count q + Z.of_nat (length vals))%Z
  else CyclicQueue.enqueue_all vals q
       = Throw "Queue is full, enqueue is prohibited".
Proof.
  intros Hcap [Hwf Heq]%CyclicQueue_reachable_wf; [|done].
  case_decide as Hfit.
  - eexists. split.
    + apply CyclicQueue_enqueue_all_fits; [done|]. by rewrite Heq.
    + by cbn.
  - apply CyclicQueue_enqueue_all_overflow; [done|]. rewrite Heq. lia.
Qed.

Lemma CyclicQueue_enqueue_all_outcome_witness :
  if decide (Z.of_nat (length (CyclicQueue.elements (CyclicQueue.mk 3 2 [20; 30]%Z))
                       + length [40; 50]%Z) ≤ 3)%Z
  then ∃ q', CyclicQueue.enqueue_all [40; 50]%Z (CyclicQueue.mk 3 2 [20; 30]%Z)
             = Return q'
             ∧ CyclicQueue.elements q'
               = CyclicQueue.elements (CyclicQueue.mk 3 2 [20; 30]%Z) ++ [40; 50]%Z
             ∧ CyclicQueue.Count q'
               = (CyclicQueue.Count (CyclicQueue.mk 3 2 [20; 30]%Z)
                  + Z.of_nat (length [40; 50]%Z))%Z
  else CyclicQueue.enqueue_all [40; 50]%Z (CyclicQueue.mk 3 2 [20; 30]%Z)
       = Throw "Queue is full, enqueue is prohibited".
Proof.
  apply (CyclicQueue_enqueue_all_outcome 3
           [CyclicQueue.enqueue 10%Z; CyclicQueue.enqueue 20%Z;
            CyclicQueue.dequeue; CyclicQueue.enqueue 30%Z]).
  - lia.
  - vm_compute. reflexivity.
Defined.

(** X12 — first in, first out.  On a new queue of capacity [cap], enqueuing
    at most [cap] values and then taking as many out with [GetOldest] and
    [Dequeue] yields the values in the order they were enqueued and leaves
    the queue as the constructor made it, so that the round can be
    repeated; asking for one more value than was enqueued throws "Queue is
    empty, GetOldest is prohibited". *)
Theorem CyclicQueue_first_in_first_out {T : Type} (cap : Z) (vals : list T) :
  (0 ≤ cap < 2 ^ 64)%Z →
  (Z.of_nat (length vals) ≤ cap)%Z →
  (q ← CyclicQueue.enqueue_all vals (CyclicQueue.new cap);
   CyclicQueue.dequeue_n (length vals) q)
  = Return (vals, CyclicQueue.new cap)
  ∧ (q ← CyclicQueue.enqueue_all vals (CyclicQueue.new cap);
     CyclicQueue.dequeue_n (S (length vals)) q)
    = Throw "Queue is empty, GetOldest is prohibited".
Proof.
  intros Hcap Hlen. pose proof (CyclicQueue_wf_new (T:=T) cap Hcap) as Hwf.
  pose proof (CyclicQueue_enqueue_all_fits vals _ Hwf) as Hfill.
  cbn [CyclicQueue.new CyclicQueue.elements CyclicQueue.capacity
       CyclicQueue.numElements length] in Hfill.
  rewrite Hfill by lia. cbn [mbind outcome_bind app].
  assert (CyclicQueue.wf (CyclicQueue.mk cap (0 + Z.of_nat (length vals)) vals))
    as Hwf1.
  { split; cbn; lia. }
  split.
  - rewrite CyclicQueue_dequeue_n_le by done.
    cbn [CyclicQueue.elements CyclicQueue.capacity CyclicQueue.numElements].
    rewrite firstn_all, drop_all. unfold CyclicQueue.new. do 3 f_equal. lia.
  - apply CyclicQueue_dequeue_n_gt; [done|]. cbn. lia.
Qed.

Lemma CyclicQueue_first_in_first_out_witness :
  (q ← CyclicQueue.enqueue_all [10; 20; 30]%Z (CyclicQueue.new 3);
   CyclicQueue.dequeue_n (length [10; 20; 30]%Z) q)
  = Return ([10; 20; 30]%Z, CyclicQueue.new 3)
  ∧ (q ← CyclicQueue.enqueue_all [10; 20; 30]%Z (CyclicQueue.new 3);
     CyclicQueue.dequeue_n (S (length [10; 20; 30]%Z)) q)
    = Throw "Queue is empty, GetOldest is prohibited".
Proof.
  apply (CyclicQueue_first_in_first_out 3 [10; 20; 30]%Z).
  - lia.
  - cbn. lia.
Defined.

(** * Properties of the running median *)

(** The hand test of the source file, [test_median]. *)
Example test_median_1 :
  (s ← MedianFinder.run [1; 2]%Z MedianFinder.new; MedianFinder.findMedian s)
  = Return (Qcanon.Q2Qc (QArith_base.Qmake 3 2)).
Proof. apply (f_equal Return). apply Qcanon.Qc_is_canon. reflexivity. Qed.

Example test_median_2 :
  (s ← MedianFinder.run [1; 2; 3]%Z MedianFinder.new; MedianFinder.findMedian s)
  = Return (MedianFinder.of_int 2).
Proof. reflexivity. Qed.

Section priority_queue.
Implicit Types (h : list Z) (x y : Z).

Lemma PriorityQueue_push_perm compare x h :
  PriorityQueue.push compare x h ≡ₚ x :: h.
Proof.
  induction h as [|y h IH]; cbn [PriorityQueue.push]; [done|].
  destruct (compare y x); [done|]. rewrite IH. apply Permutation_swap.
Qed.

Lemma PriorityQueue_push_sorted (R : relation Z) compare x h :
  (∀ a b, compare a b = true → R b a) →
  (∀ a b, compare a b = false → R a b) →
  Transitive R →
  StronglySorted R h → StronglySorted R (PriorityQueue.push compare x h).
Proof.
  intros Hlt Hge Htrans. induction h as [|y h IH]; cbn [PriorityQueue.push].
  { intros _. apply StronglySorted_cons. split; [done|constructor]. }
  intros [Hy Hh]%StronglySorted_cons. destruct (compare y x) eqn:Hyx.
  - apply StronglySorted_cons. split; [|by apply StronglySorted_cons].
    apply Forall_cons. split; [by apply Hlt|].
    apply (Forall_impl _ _ _ Hy). intros z Hz. by trans y; [apply Hlt|].
  - apply StronglySorted_cons. split; [|by apply IH].
    rewrite PriorityQueue_push_perm. apply Forall_cons. split; [by apply Hge|done].
Qed.

Lemma PriorityQueue_push_less_sorted x h :
  StronglySorted Z.ge h →
  StronglySorted Z.ge (PriorityQueue.push PriorityQueue.less x h).
Proof.
  apply PriorityQueue_push_sorted; unfold PriorityQueue.less.
  - intros a b Hab%Z.ltb_lt. lia.
  - intros a b Hab%Z.ltb_ge. lia.
  - intros a b c. lia.
Qed.

Lemma PriorityQueue_push_greater_sorted x h :
  StronglySorted Z.le h →
  StronglySorted Z.le (PriorityQueue.push PriorityQueue.greater x h).
Proof.
  apply PriorityQueue_push_sorted; unfold PriorityQueue.greater.
  - intros a b Hab. rewrite Z.gtb_ltb in Hab. apply Z.ltb_lt in Hab. lia.
  - intros a b Hab. rewrite Z.gtb_ltb in Hab. apply Z.ltb_ge in Hab. lia.
  - intros a b c. lia.
Qed.

Lemma PriorityQueue_length_push compare x h :
  length (PriorityQueue.push compare x h) = S (length h).
Proof. by rewrite PriorityQueue_push_perm. Qed.

Lemma PriorityQueue_elem_of_push compare x y h :
  y ∈ PriorityQueue.push compare x h ↔ y = x ∨ y ∈ h.
Proof. by rewrite PriorityQueue_push_perm, elem_of_cons. Qed.

Lemma StronglySorted_ge_reverse h :
  StronglySorted Z.ge h → StronglySorted Z.le (reverse h).
Proof.
  induction h as [|x h IH]; [intros _; constructor|].
  intros [Hx Hh]%StronglySorted_cons. rewrite reverse_cons. apply StronglySorted_app_2; [|by apply IH|].
  - intros a b Ha ->%list_elem_of_singleton. rewrite elem_of_reverse in Ha.
    rewrite Forall_forall in Hx. specialize (Hx a Ha). lia.
  - apply StronglySorted_cons. split; constructor.
Qed.
End priority_queue.

Section median_finder.
Implicit Types (s : MedianFinder.t) (num : Z) (nums : list Z).

Lemma MedianFinder_holds_new : MedianFinder.holds 1 [] MedianFinder.new.
Proof.
  split; cbn; try constructor; try lia.
  intros a b Ha. by apply elem_of_nil in Ha.
Qed.

Lemma MedianFinder_top_max s (d : nat) nums m h a :
  MedianFinder.holds d nums s → MedianFinder.heapMax s = m :: h →
  a ∈ MedianFinder.heapMax s → (a ≤ m)%Z.
Proof.
  intros Hs Hmax. pose proof (MedianFinder.holds_max d nums s Hs) as Hsorted.
  rewrite Hmax in *. apply StronglySorted_cons in Hsorted as [Hm _].
  rewrite Forall_forall in Hm.
  intros [->|Ha]%elem_of_cons; [done|]. specialize (Hm a Ha). lia.
Qed.

Lemma MedianFinder_top_min s (d : nat) nums m h b :
  MedianFinder.holds d nums s → MedianFinder.heapMin s = m :: h →
  b ∈ MedianFinder.heapMin s → (m ≤ b)%Z.
Proof.
  intros Hs Hmin. pose proof (MedianFinder.holds_min d nums s Hs) as Hsorted.
  rewrite Hmin in *. apply StronglySorted_cons in Hsorted as [Hm _].
  rewrite Forall_forall in Hm.
  intros [->|Hb]%elem_of_cons; [done|]. by apply Hm.
Qed.

Lemma MedianFinder_insert_holds (d : nat) nums s num :
  MedianFinder.holds d nums s →
  ∃ s', MedianFinder.insert num s = Return s'
        ∧ MedianFinder.holds (S d) (num :: nums) s'.
Proof.
  intros Hs. pose proof Hs as [Hmax Hmin Hsplit [Hsz1 Hsz2] Hall].
  assert (∀ hmax, MedianFinder.heapMax s = hmax →
          MedianFinder.holds (S d) (num :: nums)
            (MedianFinder.mk hmax
               (PriorityQueue.push PriorityQueue.greater num (MedianFinder.heapMin s)))
          ↔ ∀ a, a ∈ hmax → (a ≤ num)%Z) as Hto_min.
  { intros hmax <-. split.
    - intros [_ _ Hsplit' _ _] a Ha. apply Hsplit'; [done|].
      apply PriorityQueue_elem_of_push. by left.
    - intros Hle. split; cbn [MedianFinder.heapMax MedianFinder.heapMin].
      + done.
      + by apply PriorityQueue_push_greater_sorted.
      + intros a b Ha [->|Hb]%PriorityQueue_elem_of_push; auto.
      + rewrite PriorityQueue_length_push. lia.
      + rewrite PriorityQueue_push_perm, <- Permutation_middle. by rewrite Hall. }
  unfold MedianFinder.insert.
  destruct (MedianFinder.heapMax s) as [|m hmax] eqn:Hhmax;
    cbn [PriorityQueue.empty negb PriorityQueue.top mbind outcome_bind].
  { eexists. split; [done|]. apply Hto_min; [done|].
    intros a Ha. by apply elem_of_nil in Ha. }
  destruct (m >=? num)%Z eqn:Hm.
  - eexists. split; [done|]. apply Z.geb_le in Hm.
    split; cbn [MedianFinder.heapMax MedianFinder.heapMin].
    + by apply PriorityQueue_push_less_sorted.
    + done.
    + intros a b [->|Ha]%PriorityQueue_elem_of_push Hb; [|by apply Hsplit].
      trans m; [done|]. apply Hsplit; [|done]. apply elem_of_cons. by left.
    + rewrite PriorityQueue_length_push. lia.
    + rewrite PriorityQueue_push_perm. cbn. by rewrite Hall.
  - eexists. split; [done|]. apply Hto_min; [done|].
    intros a Ha. rewrite Z.geb_leb in Hm. apply Z.leb_gt in Hm.
    pose proof (MedianFinder_top_max s d nums m hmax a Hs Hhmax) as Hle.
    rewrite Hhmax in Hle. specialize (Hle Ha). lia.
Qed.

Lemma MedianFinder_rebalance_holds nums s :
  MedianFinder.holds 2 nums s →
  ∃ s', MedianFinder.rebalance s = Return s' ∧ MedianFinder.holds 1 nums s'.
Proof.
  intros Hs. pose proof Hs as [Hmax Hmin Hsplit [Hsz1 Hsz2] Hall].
  unfold MedianFinder.rebalance, PriorityQueue.size. cbv zeta.
  destruct (Z.gtb_spec (Z.of_nat (length (MedianFinder.heapMax s)))
              (Z.of_nat (length (MedianFinder.heapMin s)))) as [Hgt|Hle].
  { unfold to_size_t. rewrite Z.mod_small by lia.
    destruct (Z.gtb_spec (Z.of_nat (length (MedianFinder.heapMax s))
                          - Z.of_nat (length (MedianFinder.heapMin s))) 1)
      as [Hfar|Hnear].
    - destruct (MedianFinder.heapMax s) as [|m hmax] eqn:Hhmax;
        [cbn [length] in Hfar; lia|].
      cbn [PriorityQueue.top PriorityQueue.pop mbind outcome_bind].
      eexists. split; [done|]. apply StronglySorted_cons in Hmax as [Hm Hmax].
      cbn [length] in *.
      split; cbn [MedianFinder.heapMax MedianFinder.heapMin].
      + done.
      + by apply PriorityQueue_push_greater_sorted.
      + intros a b Ha [->|Hb]%PriorityQueue_elem_of_push.
        * rewrite Forall_forall in Hm. specialize (Hm a Ha). lia.
        * apply Hsplit; [|done]. apply elem_of_cons. by right.
      + rewrite PriorityQueue_length_push. lia.
      + rewrite PriorityQueue_push_perm, <- Permutation_middle. done.
    - exists s. split; [done|]. split; try done. lia. }
  destruct (Z.ltb_spec (Z.of_nat (length (MedianFinder.heapMax s)))
              (Z.of_nat (length (MedianFinder.heapMin s)))) as [Hlt|Hge].
  { unfold to_size_t. rewrite Z.mod_small by lia.
    destruct (Z.gtb_spec (Z.of_nat (length (MedianFinder.heapMin s))
                          - Z.of_nat (length (MedianFinder.heapMax s))) 1)
      as [Hfar|Hnear].
    - destruct (MedianFinder.heapMin s) as [|m hmin] eqn:Hhmin;
        [cbn [length] in Hfar; lia|].
      cbn [PriorityQueue.top PriorityQueue.pop mbind outcome_bind].
      eexists. split; [done|]. apply StronglySorted_cons in Hmin as [Hm Hmin].
      cbn [length] in *.
      split; cbn [MedianFinder.heapMax MedianFinder.heapMin].
      + by apply PriorityQueue_push_less_sorted.
      + done.
      + intros a b [->|Ha]%PriorityQueue_elem_of_push Hb.
        * rewrite Forall_forall in Hm. by apply Hm.
        * apply Hsplit; [done|]. apply elem_of_cons. by right.
      + rewrite PriorityQueue_length_push. lia.
      + rewrite PriorityQueue_push_perm. cbn.
        by rewrite <- Hall, <- Permutation_middle.
    - exists s. split; [done|]. split; try done. lia. }
  exists s. split; [done|]. split; try done. lia.
Qed.

Lemma MedianFinder_addNum_holds nums s num :
  MedianFinder.holds 1 nums s →
  ∃ s', MedianFinder.addNum num s = Return s'
        ∧ MedianFinder.holds 1 (num :: nums) s'.
Proof.
  intros Hs. unfold MedianFinder.addNum.
  destruct (MedianFinder_insert_holds 1 nums s num Hs) as (s1 & -> & Hs1).
  cbn [mbind outcome_bind]. by apply MedianFinder_rebalance_holds.
Qed.

Lemma MedianFinder_run_holds nums0 nums s :
  MedianFinder.holds 1 nums0 s →
  ∃ s', MedianFinder.run nums s = Return s'
        ∧ MedianFinder.holds 1 (reverse nums ++ nums0) s'.
Proof.
  revert nums0 s. induction nums as [|num nums IH]; intros nums0 s Hs.
  { by exists s. }
  cbn [MedianFinder.run].
  destruct (MedianFinder_addNum_holds nums0 s num Hs) as (s1 & -> & Hs1).
  cbn [mbind outcome_bind]. destruct (IH _ _ Hs1) as (s' & Hrun & Hs').
  exists s'. split; [done|]. by rewrite reverse_cons, <- app_assoc.
Qed.

Lemma MedianFinder_reached nums :
  ∃ s, MedianFinder.run nums MedianFinder.new = Return s
       ∧ MedianFinder.holds 1 nums s.
Proof.
  destruct (MedianFinder_run_holds [] nums _ MedianFinder_holds_new)
    as (s & Hrun & [Hmax Hmin Hsplit Hsz Hall]).
  exists s. split; [done|]. split; try done.
  by rewrite Hall, app_nil_r, reverse_Permutation.
Qed.
End median_finder.

Section median_finder_result.
Implicit Types (s : MedianFinder.t) (num : Z) (nums l : list Z).

(** The two queues, laid end to end, are the numbers in ascending order. *)
Lemma MedianFinder_sorted_all (d : nat) nums s :
  MedianFinder.holds d nums s →
  StronglySorted Z.le (reverse (MedianFinder.heapMax s) ++ MedianFinder.heapMin s)
  ∧ reverse (MedianFinder.heapMax s) ++ MedianFinder.heapMin s ≡ₚ nums.
Proof.
  intros [Hmax Hmin Hsplit _ Hall]. split.
  - apply StronglySorted_app_2; [|by apply StronglySorted_ge_reverse|done].
    intros a b Ha Hb. rewrite elem_of_reverse in Ha. by apply Hsplit.
  - by rewrite reverse_Permutation.
Qed.

Lemma MedianFinder_sorted_unique (d : nat) nums s l :
  MedianFinder.holds d nums s → Sorted Z.le l → l ≡ₚ nums →
  l = reverse (MedianFinder.heapMax s) ++ MedianFinder.heapMin s.
Proof.
  intros [Hsorted Hperm]%MedianFinder_sorted_all Hl Hlperm.
  apply (StronglySorted_unique Z.le); [|done|by rewrite Hperm].
  by apply Sorted_StronglySorted; [apply _|].
Qed.

Lemma MedianFinder_findMedian_cases nums s :
  MedianFinder.holds 1 nums s →
  let l := reverse (MedianFinder.heapMax s) ++ MedianFinder.heapMin s in
  (l = [] ∧ MedianFinder.findMedian s = Undefined priority_queue_top_of_empty)
  ∨ (Nat.even (length l) = false
     ∧ ∃ m, l !! Nat.div2 (length l) = Some m
            ∧ MedianFinder.findMedian s = Return (MedianFinder.of_int m))
  ∨ (Nat.even (length l) = true
     ∧ ∃ a b, l !! (Nat.div2 (length l) - 1) = Some a
              ∧ l !! Nat.div2 (length l) = Some b
              ∧ MedianFinder.findMedian s
                = (sum ← MedianFinder.int_add a b;
                   Return (MedianFinder.halved sum))).
Proof.
  intros [_ _ _ [Hsz1 Hsz2] _]. cbv zeta.
  unfold MedianFinder.findMedian, PriorityQueue.size. cbv zeta.
  rewrite length_app, length_reverse.
  destruct (MedianFinder.heapMax s) as [|a hmax] eqn:Hhmax;
    destruct (MedianFinder.heapMin s) as [|b hmin] eqn:Hhmin;
    cbn [length] in *.
  - left. done.
  - right. left. assert (hmin = []) as -> by (destruct hmin; [done|cbn in *; lia]).
    split; [done|]. by exists b.
  - right. left. assert (hmax = []) as -> by (destruct hmax; [done|cbn in *; lia]).
    split; [done|]. by exists a.
  - rewrite reverse_cons, <- app_assoc. cbn [app].
    destruct (Z.gtb_spec (Z.of_nat (S (length hmax))) (Z.of_nat (S (length hmin))))
      as [Hgt|Hle].
    { right. left. assert (length hmax = S (length hmin)) as Hlen by lia.
      replace (S (length hmax) + S (length hmin)) with (S (2 * S (length hmin)))
        by lia.
      rewrite Nat.div2_succ_double. split.
      - rewrite Nat.even_succ, <- Nat.negb_even, Nat.even_even. done.
      - exists a. split; [|done]. apply list_lookup_middle.
        by rewrite length_reverse. }
    destruct (Z.ltb_spec (Z.of_nat (S (length hmax))) (Z.of_nat (S (length hmin))))
      as [Hlt|Hge].
    { right. left. assert (length hmin = S (length hmax)) as Hlen by lia.
      replace (S (length hmax) + S (length hmin)) with (S (2 * S (length hmax)))
        by lia.
      rewrite Nat.div2_succ_double. split.
      - rewrite Nat.even_succ, <- Nat.negb_even, Nat.even_even. done.
      - exists b. split; [|done].
        rewrite (app_assoc _ [a] (b :: hmin)). apply list_lookup_middle.
        rewrite length_app, length_reverse. cbn. lia. }
    right. right. assert (length hmin = length hmax) as Hlen by lia.
    replace (S (length hmax) + S (length hmin)) with (2 * S (length hmax)) by lia.
    rewrite Nat.div2_double, Nat.even_even. split; [done|].
    exists a, b. split; [|split; [|done]].
    + cbn [Nat.sub]. rewrite Nat.sub_0_r. apply list_lookup_middle.
      by rewrite length_reverse.
    + rewrite (app_assoc _ [a] (b :: hmin)). apply list_lookup_middle.
      rewrite length_app, length_reverse. cbn. lia.
Qed.
End median_finder_result.

(** X13 — the two queues stay balanced.  Whatever numbers are added,
    [addNum] never has undefined behaviour; afterwards the sizes of
    [heapMax] and [heapMin] differ by at most one, no element of [heapMax]
    exceeds an element of [heapMin], and together the two queues hold
    exactly the numbers added. *)
Theorem MedianFinder_balanced (nums : list Z) :
  ∃ s, MedianFinder.run nums MedianFinder.new = Return s
       ∧ (PriorityQueue.size (MedianFinder.heapMax s)
          ≤ PriorityQueue.size (MedianFinder.heapMin s) + 1)%Z
       ∧ (PriorityQueue.size (MedianFinder.heapMin s)
          ≤ PriorityQueue.size (MedianFinder.heapMax s) + 1)%Z
       ∧ (∀ a b, a ∈ MedianFinder.heapMax s → b ∈ MedianFinder.heapMin s →
                 (a ≤ b)%Z)
       ∧ MedianFinder.heapMax s ++ MedianFinder.heapMin s ≡ₚ nums.
Proof.
  destruct (MedianFinder_reached nums) as (s & Hrun & [_ _ Hsplit [Hsz1 Hsz2] Hall]).
  exists s. unfold PriorityQueue.size. repeat split; (done || lia).
Qed.



(** X15 — where [findMedian] is undefined.  Before any number is added it
    reads the top of an empty queue.  After an even number of additions it
    adds the two middle numbers as [int]s: when their sum is outside the
    range of [int] (as for [INT_MAX] added twice), that signed overflow is
    undefined behaviour. *)
Theorem MedianFinder_findMedian_undefined :
  MedianFinder.findMedian MedianFinder.new = Undefined priority_queue_top_of_empty
  ∧ ∀ nums l a b,
      Sorted Z.le l →
      l ≡ₚ nums →
      Nat.even (length l) = true →
      l !! (Nat.div2 (length l) - 1) = Some a →
      l !! Nat.div2 (length l) = Some b →
      ¬ (MedianFinder.INT_MIN ≤ a + b ≤ INT_MAX)%Z →
      ∃ s, MedianFinder.run nums MedianFinder.new = Return s
           ∧ MedianFinder.findMedian s = Undefined signed_overflow.
Proof.
  split; [done|]. intros nums l a b Hl Hperm Heven Ha Hb Hover.
  destruct (MedianFinder_reached nums) as (s & Hrun & Hs).
  pose proof (MedianFinder_sorted_unique 1 nums s l Hs Hl Hperm) as Heq.
  exists s. split; [done|].
  destruct (MedianFinder_findMedian_cases nums s Hs)
    as [[Hnil _]|[(Hodd & _)|(_ & a' & b' & Ha' & Hb' & Hfind)]];
    rewrite <- Heq in *.
  - by rewrite Hnil in Hb.
  - congruence.
  - rewrite Hfind. assert (a' = a) as -> by congruence.
    assert (b' = b) as -> by congruence. unfold MedianFinder.int_add.
    destruct (Z.leb_spec MedianFinder.INT_MIN (a + b));
      destruct (Z.leb_spec (a + b) INT_MAX); (done || lia).
Qed.

Lemma MedianFinder_findMedian_undefined_witness :
  ∃ s, MedianFinder.run [INT_MAX; INT_MAX] MedianFinder.new = Return s
       ∧ MedianFinder.findMedian s = Undefined signed_overflow.
Proof.
  apply (proj2 MedianFinder_findMedian_undefined
           [INT_MAX; INT_MAX] [INT_MAX; INT_MAX] INT_MAX INT_MAX).
  - repeat first [lia | constructor].
  - done.
  - reflexivity.
  - reflexivity.
  - reflexivity.
  - unfold MedianFinder.INT_MIN, INT_MAX. lia.
Defined.

(** * Properties of the reference-counted pointer *)

(** The five tests of [main] in the source file, with the objects
    [TestObj(v)] at the addresses 0 and 1. *)
Example SharedPtr_test_2 :
  (h ← SharedPtr.run [SharedPtr.Ctor 0 (Some 0); SharedPtr.CopyCtor 1 0]
         (SharedPtr.start {[0 := 20%Z]});
   n1 ← SharedPtr.use_count 0 h; n2 ← SharedPtr.use_count 1 h;
   x ← SharedPtr.deref 1 h;
   h' ← SharedPtr.dtor 1 h; n1' ← SharedPtr.use_count 0 h';
   Return (n1, n2, x, n1'))
  = Return (2, 2, 20, 1)%Z.
Proof. vm_compute. reflexivity. Qed.

Example SharedPtr_test_3 :
  (h ← SharedPtr.run [SharedPtr.Ctor 0 (Some 0); SharedPtr.Ctor 1 (Some 1);
                      SharedPtr.CopyAssign 1 0]
         (SharedPtr.start {[0 := 30%Z; 1 := 40%Z]});
   n1 ← SharedPtr.use_count 0 h; n2 ← SharedPtr.use_count 1 h;
   x ← SharedPtr.deref 1 h;
   Return (n1, n2, x, SharedPtr.objects h !! 1))
  = Return (2, 2, 30, None)%Z.
Proof. vm_compute. reflexivity. Qed.

Example SharedPtr_test_5 :
  (h ← SharedPtr.run [SharedPtr.Ctor 0 (Some 0); SharedPtr.Ctor 1 (Some 1);
                      SharedPtr.MoveAssign 1 0]
         (SharedPtr.start {[0 := 60%Z; 1 := 70%Z]});
   n2 ← SharedPtr.use_count 1 h; x ← SharedPtr.deref 1 h;
   Return (n2, x))
  = Return (1, 60)%Z.
Proof. vm_compute. reflexivity. Qed.

Section shared_ptr_owners.
Implicit Types (l a b : nat) (sp o : SharedPtr.t) (m : gmap nat SharedPtr.t).

Lemma SharedPtr_owners_empty l : SharedPtr.owners l ∅ = 0.
Proof. unfold SharedPtr.owners. by rewrite map_filter_empty, map_size_empty. Qed.

Lemma SharedPtr_owners_insert_None l a sp m :
  m !! a = None →
  SharedPtr.owners l (<[a:=sp]> m) = SharedPtr.points_to sp l + SharedPtr.owners l m.
Proof.
  intros Ha. unfold SharedPtr.owners, SharedPtr.points_to.
  rewrite map_filter_insert. cbn [snd]. case_decide.
  - rewrite map_size_insert_None; [done|].
    by rewrite map_lookup_filter_None; left.
  - by rewrite delete_id.
Qed.

Lemma SharedPtr_owners_delete l a sp m :
  m !! a = Some sp →
  SharedPtr.owners l m
  = SharedPtr.points_to sp l + SharedPtr.owners l (delete a m).
Proof.
  intros Ha. rewrite <- (insert_delete_id m a sp Ha) at 1.
  apply SharedPtr_owners_insert_None, lookup_delete_eq.
Qed.

Lemma SharedPtr_owners_insert l a sp m :
  SharedPtr.owners l (<[a:=sp]> m)
  = SharedPtr.points_to sp l + SharedPtr.owners l (delete a m).
Proof.
  rewrite <- insert_delete_eq.
  apply SharedPtr_owners_insert_None, lookup_delete_eq.
Qed.

Lemma SharedPtr_owners_delete_None l a m :
  m !! a = None → SharedPtr.owners l (delete a m) = SharedPtr.owners l m.
Proof. intros Ha. by rewrite delete_id. Qed.

Lemma SharedPtr_owners_le_size l m : SharedPtr.owners l m ≤ size m.
Proof. apply map_size_filter. Qed.

Lemma SharedPtr_points_to_Some sp l :
  SharedPtr.counter sp = Some l → SharedPtr.points_to sp l = 1.
Proof. intros Hsp. unfold SharedPtr.points_to. by rewrite decide_True. Qed.

Lemma SharedPtr_points_to_ne sp l :
  SharedPtr.counter sp ≠ Some l → SharedPtr.points_to sp l = 0.
Proof. intros Hsp. unfold SharedPtr.points_to. by rewrite decide_False. Qed.

Lemma SharedPtr_owners_pos l a sp m :
  m !! a = Some sp → SharedPtr.counter sp = Some l → 0 < SharedPtr.owners l m.
Proof.
  intros Ha Hsp. rewrite (SharedPtr_owners_delete l a sp m Ha).
  rewrite (SharedPtr_points_to_Some sp l Hsp). lia.
Qed.

(** Replacing or adding a [SharedPtr] at an address that holds no share. *)
Lemma SharedPtr_owners_insert_vacant l a o m :
  (∀ sp, m !! a = Some sp → SharedPtr.counter sp = None) →
  SharedPtr.owners l (<[a:=o]> m)
  = SharedPtr.points_to o l + SharedPtr.owners l m.
Proof.
  intros Hvac. rewrite SharedPtr_owners_insert. f_equal.
  destruct (m !! a) as [sp|] eqn:Ha.
  - rewrite (SharedPtr_owners_delete l a sp m Ha).
    rewrite SharedPtr_points_to_ne; [done|]. by rewrite (Hvac sp eq_refl).
  - by apply SharedPtr_owners_delete_None.
Qed.

Lemma SharedPtr_size_insert_le a o m : size (<[a:=o]> m) ≤ S (size m).
Proof. rewrite map_size_insert. destruct (m !! a); cbn; lia. Qed.
End shared_ptr_owners.

Section shared_ptr_invariant.
Context {T : Type}.
Implicit Types (h : SharedPtr.heap T) (l a b x : nat) (sp o : SharedPtr.t).

Lemma SharedPtr_wf_cell h a sp l :
  SharedPtr.wf h → SharedPtr.ptrs h !! a = Some sp → SharedPtr.counter sp = Some l →
  SharedPtr.cells h !! l = Some (Z.of_nat (SharedPtr.owners l (SharedPtr.ptrs h)))
  ∧ 0 < SharedPtr.owners l (SharedPtr.ptrs h)
  ∧ (Z.of_nat (SharedPtr.owners l (SharedPtr.ptrs h)) < 2 ^ 64)%Z
  ∧ l < SharedPtr.next_cell h.
Proof.
  intros Hwf Ha Hsp. pose proof (SharedPtr_owners_pos l a sp _ Ha Hsp) as Hpos.
  pose proof (SharedPtr_owners_le_size l (SharedPtr.ptrs h)) as Hle.
  pose proof (SharedPtr.wf_size h Hwf) as Hsz.
  split; [|split; [done|split; [lia|]]].
  - rewrite (SharedPtr.wf_cells h Hwf). rewrite decide_False; [done|lia].
  - destruct (decide (l < SharedPtr.next_cell h)) as [|Hge]; [done|].
    rewrite (SharedPtr.wf_next h Hwf l) in Hpos; lia.
Qed.

(** Two [SharedPtr] objects on one cell make at least two owners. *)
Lemma SharedPtr_owners_two h a b sp sp' l :
  SharedPtr.ptrs h !! a = Some sp → SharedPtr.ptrs h !! b = Some sp' → a ≠ b →
  SharedPtr.counter sp = Some l → SharedPtr.counter sp' = Some l →
  2 ≤ SharedPtr.owners l (SharedPtr.ptrs h).
Proof.
  intros Ha Hb Hne Hsp Hsp'.
  rewrite (SharedPtr_owners_delete l a sp _ Ha), (SharedPtr_points_to_Some sp l Hsp).
  assert (delete a (SharedPtr.ptrs h) !! b = Some sp') as Hb'
    by by rewrite lookup_delete_ne.
  pose proof (SharedPtr_owners_pos l b sp' _ Hb' Hsp'). lia.
Qed.

Lemma SharedPtr_read_cell_Some h l n :
  SharedPtr.cells h !! l = Some n → SharedPtr.read_cell (Some l) h = Return n.
Proof. intros Hl. unfold SharedPtr.read_cell. by rewrite Hl. Qed.

Lemma SharedPtr_write_cell_Some h l n n' :
  SharedPtr.cells h !! l = Some n →
  SharedPtr.write_cell (Some l) n' h
  = Return (SharedPtr.mk_heap (<[l:=n']> (SharedPtr.cells h)) (SharedPtr.objects h)
              (SharedPtr.ptrs h) (SharedPtr.next_cell h)).
Proof. intros Hl. unfold SharedPtr.write_cell. by rewrite Hl. Qed.

Lemma SharedPtr_release_spec h a sp :
  SharedPtr.wf h → SharedPtr.ptrs h !! a = Some sp → SharedPtr.counter sp ≠ None →
  SharedPtr.release sp h = Return (SharedPtr.released sp h).
Proof.
  intros Hwf Ha Hsp. destruct (SharedPtr.counter sp) as [l|] eqn:Hl; [|done].
  destruct (SharedPtr_wf_cell h a sp l Hwf Ha Hl) as (Hcell & Hpos & Hlt & _).
  unfold SharedPtr.release, SharedPtr.released. rewrite Hl.
  rewrite (SharedPtr_read_cell_Some h l _ Hcell). cbn [mbind outcome_bind].
  rewrite (SharedPtr_write_cell_Some h l _ _ Hcell). cbn [mbind outcome_bind].
  rewrite (SharedPtr_read_cell_Some _ l (to_size_t (Z.of_nat (SharedPtr.owners l (SharedPtr.ptrs h)) - 1)))
    by apply lookup_insert_eq.
  cbn [mbind outcome_bind]. unfold to_size_t. rewrite Z.mod_small by lia.
  case_decide as Hone.
  - rewrite Hone. cbn [Z.of_nat Z.sub Z.eqb Pos.of_succ_nat Z.pos_sub Z.opp Z.add].
    unfold SharedPtr.delete_object.
    destruct (SharedPtr.rawPointer sp) as [x|] eqn:Hx.
    + destruct (SharedPtr.wf_live h Hwf a sp x Ha Hx) as [v Hv].
      cbn [SharedPtr.objects]. rewrite Hv. cbn [mbind outcome_bind].
      unfold SharedPtr.delete_cell. cbn [SharedPtr.cells].
      rewrite lookup_insert_eq. cbn [SharedPtr.objects SharedPtr.ptrs SharedPtr.next_cell].
      by rewrite delete_insert_eq.
    + cbn [mbind outcome_bind]. unfold SharedPtr.delete_cell.
      cbn [SharedPtr.cells]. rewrite lookup_insert_eq.
      cbn [SharedPtr.objects SharedPtr.ptrs SharedPtr.next_cell].
      by rewrite delete_insert_eq.
  - destruct (Z.eqb_spec (Z.of_nat (SharedPtr.owners l (SharedPtr.ptrs h)) - 1) 0);
      [lia|done].
Qed.

Lemma SharedPtr_wf_detach h a sp :
  SharedPtr.wf h → SharedPtr.ptrs h !! a = Some sp → SharedPtr.counter sp ≠ None →
  SharedPtr.wf (SharedPtr.set_object a SharedPtr.null (SharedPtr.released sp h)).
Proof.
  intros Hwf Ha Hsp. destruct (SharedPtr.counter sp) as [l|] eqn:Hl; [|done].
  destruct (SharedPtr_wf_cell h a sp l Hwf Ha Hl) as (Hcell & Hpos & Hlt & _).
  pose proof Hwf as [Hcells Hnext Hsize Hnull Hsame Hlive Hone].
  assert (SharedPtr.ptrs (SharedPtr.released sp h) = SharedPtr.ptrs h) as Hptrs.
  { unfold SharedPtr.released. rewrite Hl. by case_decide. }
  assert (SharedPtr.next_cell (SharedPtr.released sp h) = SharedPtr.next_cell h)
    as Hnx.
  { unfold SharedPtr.released. rewrite Hl. by case_decide. }
  assert (∀ l', SharedPtr.owners l' (<[a:=SharedPtr.null]> (SharedPtr.ptrs h))
                + SharedPtr.points_to sp l'
                = SharedPtr.owners l' (SharedPtr.ptrs h)) as Hown.
  { intros l'. rewrite SharedPtr_owners_insert.
    rewrite (SharedPtr_owners_delete l' a sp _ Ha).
    rewrite (SharedPtr_points_to_ne SharedPtr.null) by done. lia. }
  split; cbn [SharedPtr.set_object SharedPtr.cells SharedPtr.ptrs
              SharedPtr.next_cell SharedPtr.objects]; rewrite ?Hptrs, ?Hnx.
  - intros l'. specialize (Hown l'). destruct (decide (l' = l)) as [->|Hne].
    + rewrite (SharedPtr_points_to_Some sp l Hl) in Hown.
      unfold SharedPtr.released. rewrite Hl. case_decide as Hone'.
      * cbn [SharedPtr.cells]. rewrite lookup_delete_eq, decide_True; [done|lia].
      * cbn [SharedPtr.cells]. rewrite lookup_insert_eq, decide_False by lia.
        f_equal. lia.
    + rewrite SharedPtr_points_to_ne in Hown by congruence.
      rewrite Nat.add_0_r in Hown. rewrite Hown, <- Hcells.
      unfold SharedPtr.released. rewrite Hl.
      case_decide; cbn [SharedPtr.cells];
        [by rewrite lookup_delete_ne|by rewrite lookup_insert_ne].
  - intros l' Hl'. specialize (Hown l'). specialize (Hnext l' Hl'). lia.
  - rewrite map_size_insert_Some; [done|]. by rewrite Ha.
  - intros a' sp' [[_ <-]|[_ Ha']]%lookup_insert_Some; [done|]. by eapply Hnull.
  - intros a' b' sp1 sp2 [[_ <-]|[_ Ha']]%lookup_insert_Some
      [[_ <-]|[_ Hb']]%lookup_insert_Some Heq; [done| | |by eapply Hsame].
    + symmetry. by eapply Hnull.
    + by eapply Hnull.
  - intros a' sp' x [[_ <-]|[Hne Ha']]%lookup_insert_Some Hx; [done|].
    destruct (Hlive a' sp' x Ha' Hx) as [v Hv].
    unfold SharedPtr.released. rewrite Hl. case_decide as Hone'; [|by exists v].
    cbn [SharedPtr.objects].
    destruct (SharedPtr.rawPointer sp) as [x0|] eqn:Hx0; [|by exists v].
    exists v. rewrite lookup_delete_ne; [done|]. intros ->.
    pose proof (Hone a a' sp sp' x Ha Ha' Hx0 Hx) as Hc. rewrite Hl in Hc.
    pose proof (SharedPtr_owners_two h a a' sp sp' l Ha Ha' Hne Hl (eq_sym Hc)).
    lia.
  - intros a' b' sp1 sp2 x [[_ <-]|[_ Ha']]%lookup_insert_Some
      [[_ <-]|[_ Hb']]%lookup_insert_Some; [done..|by eapply Hone].
Qed.
End shared_ptr_invariant.

Section shared_ptr_attach.
Context {T : Type}.
Implicit Types (h : SharedPtr.heap T) (l a b x : nat) (sp o : SharedPtr.t).

Lemma SharedPtr_wf_attach h a b o :
  SharedPtr.wf h → SharedPtr.vacant a h →
  SharedPtr.ptrs h !! b = Some o → SharedPtr.counter o ≠ None →
  (Z.of_nat (size (<[a:=o]> (SharedPtr.ptrs h))) < 2 ^ 64)%Z →
  SharedPtr.wf (SharedPtr.attached a o h).
Proof.
  intros Hwf Hvac Hb Ho Hroom. destruct (SharedPtr.counter o) as [l|] eqn:Hl; [|done].
  destruct (SharedPtr_wf_cell h b o l Hwf Hb Hl) as (Hcell & Hpos & _ & Hlt).
  pose proof Hwf as [Hcells Hnext Hsize Hnull Hsame Hlive Hone].
  pose proof (λ l', SharedPtr_owners_insert_vacant l' a o (SharedPtr.ptrs h) Hvac)
    as Hown.
  unfold SharedPtr.attached. rewrite Hl.
  split; cbn [SharedPtr.cells SharedPtr.ptrs SharedPtr.next_cell SharedPtr.objects].
  - intros l'. rewrite Hown. destruct (decide (l' = l)) as [->|Hne].
    + rewrite (SharedPtr_points_to_Some o l Hl), lookup_insert_eq.
      rewrite decide_False by lia. f_equal. lia.
    + rewrite SharedPtr_points_to_ne by congruence.
      rewrite lookup_insert_ne by done. apply Hcells.
  - intros l' Hl'. rewrite Hown, SharedPtr_points_to_ne by (rewrite Hl; intros [=]; lia).
    by apply Hnext.
  - done.
  - intros a' sp' [[_ <-]|[_ Ha']]%lookup_insert_Some; [congruence|]. by eapply Hnull.
  - intros a' b' sp1 sp2 [[_ <-]|[_ Ha']]%lookup_insert_Some
      [[_ <-]|[_ Hb']]%lookup_insert_Some Heq; [done| | |by eapply Hsame].
    + by eapply (Hsame b b').
    + by eapply (Hsame a' b).
  - intros a' sp' x [[_ <-]|[_ Ha']]%lookup_insert_Some Hx; by eapply Hlive.
  - intros a' b' sp1 sp2 x [[_ <-]|[_ Ha']]%lookup_insert_Some
      [[_ <-]|[_ Hb']]%lookup_insert_Some Hx1 Hx2; [done| | |by eapply Hone].
    + by eapply (Hone b b').
    + by eapply (Hone a' b).
Qed.

Lemma SharedPtr_wf_move h a b o :
  SharedPtr.wf h → SharedPtr.vacant a h →
  SharedPtr.ptrs h !! b = Some o → a ≠ b →
  (Z.of_nat (size (<[a:=o]> (SharedPtr.ptrs h))) < 2 ^ 64)%Z →
  SharedPtr.wf (SharedPtr.set_object b SharedPtr.null (SharedPtr.set_object a o h)).
Proof.
  intros Hwf Hvac Hb Hne Hroom.
  pose proof Hwf as [Hcells Hnext Hsize Hnull Hsame Hlive Hone].
  assert (<[a:=o]> (SharedPtr.ptrs h) !! b = Some o) as Hb'
    by by rewrite lookup_insert_ne.
  assert (∀ l', SharedPtr.owners l'
                  (<[b:=SharedPtr.null]> (<[a:=o]> (SharedPtr.ptrs h)))
                = SharedPtr.owners l' (SharedPtr.ptrs h)) as Hown.
  { intros l'. rewrite SharedPtr_owners_insert.
    rewrite (SharedPtr_points_to_ne SharedPtr.null) by done.
    pose proof (SharedPtr_owners_insert_vacant l' a o (SharedPtr.ptrs h) Hvac) as H1.
    pose proof (SharedPtr_owners_delete l' b o _ Hb') as H2. lia. }
  split; cbn [SharedPtr.set_object SharedPtr.cells SharedPtr.ptrs
              SharedPtr.next_cell SharedPtr.objects].
  - intros l'. rewrite Hown. apply Hcells.
  - intros l' Hl'. rewrite Hown. by apply Hnext.
  - rewrite map_size_insert_Some; [done|]. by rewrite Hb'.
  - intros a' sp' [[_ <-]|[_ [[_ <-]|[_ Ha']]%lookup_insert_Some]]%lookup_insert_Some;
      [done|by eapply (Hnull b)|by eapply Hnull].
  - assert (∀ a' sp', <[b:=SharedPtr.null]> (<[a:=o]> (SharedPtr.ptrs h)) !! a' = Some sp' →
            sp' = SharedPtr.null ∨ ∃ a'', SharedPtr.ptrs h !! a'' = Some sp') as Hold.
    { intros a' sp' [[_ <-]|[_ [[_ <-]|[_ Ha']]%lookup_insert_Some]]%lookup_insert_Some;
        eauto. }
    intros a' b' sp1 sp2 [->|[a1 H1]]%Hold [->|[a2 H2]]%Hold Heq;
      [done| | |by eapply Hsame].
    + symmetry. by eapply Hnull.
    + by eapply Hnull.
  - intros a' sp' x [[_ <-]|[_ [[_ <-]|[_ Ha']]%lookup_insert_Some]]%lookup_insert_Some Hx;
      [done|by eapply (Hlive b)|by eapply Hlive].
  - assert (∀ a' sp', <[b:=SharedPtr.null]> (<[a:=o]> (SharedPtr.ptrs h)) !! a' = Some sp' →
            sp' = SharedPtr.null ∨ ∃ a'', SharedPtr.ptrs h !! a'' = Some sp') as Hold.
    { intros a' sp' [[_ <-]|[_ [[_ <-]|[_ Ha']]%lookup_insert_Some]]%lookup_insert_Some;
        eauto. }
    intros a' b' sp1 sp2 x [->|[a1 H1]]%Hold [->|[a2 H2]]%Hold Hx1 Hx2;
      [done..|by eapply Hone].
Qed.

Lemma SharedPtr_wf_ctor h a p :
  SharedPtr.wf h → SharedPtr.ptrs h !! a = None → SharedPtr.room h →
  match p with
  | None => True
  | Some x =>
      is_Some (SharedPtr.objects h !! x)
      ∧ ∀ a' sp, SharedPtr.ptrs h !! a' = Some sp → SharedPtr.rawPointer sp ≠ Some x
  end →
  SharedPtr.wf
    (SharedPtr.mk_heap (<[SharedPtr.next_cell h:=1%Z]> (SharedPtr.cells h))
       (SharedPtr.objects h)
       (<[a:=SharedPtr.mk (Some (SharedPtr.next_cell h)) p]> (SharedPtr.ptrs h))
       (S (SharedPtr.next_cell h))).
Proof.
  intros Hwf Ha Hroom Hp.
  pose proof Hwf as [Hcells Hnext Hsize Hnull Hsame Hlive Hone].
  pose proof (λ l', SharedPtr_owners_insert_None l' a
                      (SharedPtr.mk (Some (SharedPtr.next_cell h)) p) _ Ha) as Hown.
  assert (∀ a' sp', SharedPtr.ptrs h !! a' = Some sp' →
          SharedPtr.counter sp' ≠ Some (SharedPtr.next_cell h)) as Hfresh.
  { intros a' sp' Ha' Hsp'.
    pose proof (SharedPtr_owners_pos _ a' sp' _ Ha' Hsp') as Hpos.
    rewrite (Hnext (SharedPtr.next_cell h)) in Hpos; lia. }
  split; cbn [SharedPtr.cells SharedPtr.ptrs SharedPtr.next_cell SharedPtr.objects].
  - intros l'. rewrite Hown.
    destruct (decide (l' = SharedPtr.next_cell h)) as [->|Hne].
    + rewrite SharedPtr_points_to_Some by done.
      rewrite (Hnext (SharedPtr.next_cell h)) by lia. by rewrite lookup_insert_eq.
    + rewrite SharedPtr_points_to_ne by (cbn; congruence).
      rewrite lookup_insert_ne by done. apply Hcells.
  - intros l' Hl'. rewrite Hown, SharedPtr_points_to_ne by (cbn; intros [=]; lia).
    apply Hnext. lia.
  - rewrite map_size_insert_None by done. unfold SharedPtr.room in Hroom. lia.
  - intros a' sp' [[_ <-]|[_ Ha']]%lookup_insert_Some; [done|]. by eapply Hnull.
  - intros a' b' sp1 sp2 [[_ <-]|[_ Ha']]%lookup_insert_Some
      [[_ <-]|[_ Hb']]%lookup_insert_Some Heq; [done| | |by eapply Hsame].
    + by destruct (Hfresh b' sp2 Hb').
    + by destruct (Hfresh a' sp1 Ha').
  - intros a' sp' x [[_ <-]|[_ Ha']]%lookup_insert_Some Hx; [|by eapply Hlive].
    cbn in Hx. subst p. by destruct Hp.
  - intros a' b' sp1 sp2 x [[_ <-]|[_ Ha']]%lookup_insert_Some
      [[_ <-]|[_ Hb']]%lookup_insert_Some Hx1 Hx2; [done| | |by eapply Hone].
    + cbn in Hx1. subst p. destruct Hp as [_ Hp]. by destruct (Hp b' sp2 Hb').
    + cbn in Hx2. subst p. destruct Hp as [_ Hp]. by destruct (Hp a' sp1 Ha').
Qed.

Lemma SharedPtr_wf_removed h a :
  SharedPtr.wf h → SharedPtr.vacant a h → SharedPtr.wf (SharedPtr.removed a h).
Proof.
  intros Hwf Hvac. pose proof Hwf as [Hcells Hnext Hsize Hnull Hsame Hlive Hone].
  assert (∀ l', SharedPtr.owners l' (delete a (SharedPtr.ptrs h))
                = SharedPtr.owners l' (SharedPtr.ptrs h)) as Hown.
  { intros l'. destruct (SharedPtr.ptrs h !! a) as [sp|] eqn:Ha.
    - rewrite (SharedPtr_owners_delete l' a sp _ Ha).
      rewrite SharedPtr_points_to_ne; [done|]. by rewrite (Hvac sp Ha).
    - by apply SharedPtr_owners_delete_None. }
  split; cbn [SharedPtr.removed SharedPtr.cells SharedPtr.ptrs
              SharedPtr.next_cell SharedPtr.objects].
  - intros l'. rewrite Hown. apply Hcells.
  - intros l' Hl'. rewrite Hown. by apply Hnext.
  - rewrite map_size_delete. destruct (SharedPtr.ptrs h !! a); cbn; lia.
  - intros a' sp' [_ Ha']%lookup_delete_Some. by eapply Hnull.
  - intros a' b' sp1 sp2 [_ Ha']%lookup_delete_Some [_ Hb']%lookup_delete_Some.
    by eapply Hsame.
  - intros a' sp' x [_ Ha']%lookup_delete_Some. by eapply Hlive.
  - intros a' b' sp1 sp2 x [_ Ha']%lookup_delete_Some [_ Hb']%lookup_delete_Some.
    by eapply Hone.
Qed.
End shared_ptr_attach.

Section shared_ptr_operations.
Context {T : Type}.
Implicit Types (h : SharedPtr.heap T) (l a b x this other : nat) (sp o : SharedPtr.t).

Lemma SharedPtr_ptrs_released sp h :
  SharedPtr.ptrs (SharedPtr.released sp h) = SharedPtr.ptrs h.
Proof.
  unfold SharedPtr.released. destruct (SharedPtr.counter sp); [|done].
  by case_decide.
Qed.

Lemma SharedPtr_next_cell_released sp h :
  SharedPtr.next_cell (SharedPtr.released sp h) = SharedPtr.next_cell h.
Proof.
  unfold SharedPtr.released. destruct (SharedPtr.counter sp); [|done].
  by case_decide.
Qed.

Lemma SharedPtr_vacant_null a h :
  SharedPtr.vacant a (SharedPtr.set_object a SharedPtr.null h).
Proof.
  intros sp. cbn [SharedPtr.set_object SharedPtr.ptrs].
  rewrite lookup_insert_eq. by intros [= <-].
Qed.

Lemma SharedPtr_set_object_twice a sp o h :
  SharedPtr.set_object a o (SharedPtr.set_object a sp h) = SharedPtr.set_object a o h.
Proof.
  unfold SharedPtr.set_object.
  cbn [SharedPtr.cells SharedPtr.ptrs SharedPtr.objects SharedPtr.next_cell].
  by rewrite insert_insert_eq.
Qed.

Lemma SharedPtr_vacant_None a h :
  SharedPtr.ptrs h !! a = None → SharedPtr.vacant a h.
Proof. intros Ha sp. by rewrite Ha. Qed.

Lemma SharedPtr_copy_ctor_spec h this other o :
  SharedPtr.wf h → SharedPtr.ptrs h !! this = None →
  SharedPtr.ptrs h !! other = Some o → SharedPtr.counter o ≠ None →
  SharedPtr.room h →
  SharedPtr.copy_ctor this other h = Return (SharedPtr.attached this o h)
  ∧ SharedPtr.wf (SharedPtr.attached this o h).
Proof.
  intros Hwf Hthis Hother Ho Hroom. unfold SharedPtr.room in Hroom. split.
  - destruct (SharedPtr.counter o) as [l|] eqn:Hl; [|done].
    destruct (SharedPtr_wf_cell h other o l Hwf Hother Hl) as (Hcell & Hpos & _).
    pose proof (SharedPtr_owners_le_size l (SharedPtr.ptrs h)) as Hle.
    unfold SharedPtr.copy_ctor, SharedPtr.object_at. rewrite Hother.
    cbn [mbind outcome_bind]. rewrite Hl.
    rewrite (SharedPtr_read_cell_Some (SharedPtr.set_object this o h) l _ Hcell).
    cbn [mbind outcome_bind].
    rewrite (SharedPtr_write_cell_Some (SharedPtr.set_object this o h) l _ _ Hcell).
    unfold to_size_t. rewrite Z.mod_small by lia.
    unfold SharedPtr.attached. by rewrite Hl.
  - apply (SharedPtr_wf_attach h this other o); [done| |done..|].
    + by apply SharedPtr_vacant_None.
    + rewrite map_size_insert_None by done. lia.
Qed.

Lemma SharedPtr_move_ctor_spec h this other o :
  SharedPtr.wf h → SharedPtr.ptrs h !! this = None →
  SharedPtr.ptrs h !! other = Some o → SharedPtr.room h →
  SharedPtr.move_ctor this other h
  = Return (SharedPtr.set_object other SharedPtr.null (SharedPtr.set_object this o h))
  ∧ SharedPtr.wf
      (SharedPtr.set_object other SharedPtr.null (SharedPtr.set_object this o h)).
Proof.
  intros Hwf Hthis Hother Hroom. unfold SharedPtr.room in Hroom. split.
  - unfold SharedPtr.move_ctor, SharedPtr.object_at. by rewrite Hother.
  - apply SharedPtr_wf_move; [done|by apply SharedPtr_vacant_None|done|congruence|].
    rewrite map_size_insert_None by done. lia.
Qed.

(** The heap between the two halves of an assignment: [this] has given up
    its share and holds nothing. *)
Lemma SharedPtr_wf_between h this sp other o :
  SharedPtr.wf h → SharedPtr.ptrs h !! this = Some sp →
  SharedPtr.counter sp ≠ None → SharedPtr.ptrs h !! other = Some o →
  this ≠ other →
  let h1 := SharedPtr.set_object this SharedPtr.null (SharedPtr.released sp h) in
  SharedPtr.wf h1
  ∧ SharedPtr.ptrs h1 !! other = Some o
  ∧ SharedPtr.vacant this h1
  ∧ size (<[this:=o]> (SharedPtr.ptrs h1)) = size (SharedPtr.ptrs h).
Proof.
  intros Hwf Hthis Hsp Hother Hne. cbv zeta.
  split; [by apply SharedPtr_wf_detach|].
  split; [|split; [apply SharedPtr_vacant_null|]];
    cbn [SharedPtr.set_object SharedPtr.ptrs]; rewrite SharedPtr_ptrs_released.
  - by rewrite lookup_insert_ne.
  - rewrite insert_insert_eq. apply map_size_insert_Some. by rewrite Hthis.
Qed.

Lemma SharedPtr_copy_assign_spec h this other sp o :
  SharedPtr.wf h → SharedPtr.ptrs h !! this = Some sp →
  SharedPtr.counter sp ≠ None → SharedPtr.ptrs h !! other = Some o →
  SharedPtr.counter o ≠ None → this ≠ other →
  let h1 := SharedPtr.set_object this SharedPtr.null (SharedPtr.released sp h) in
  SharedPtr.copy_assign this other h = Return (SharedPtr.attached this o h1)
  ∧ SharedPtr.wf (SharedPtr.attached this o h1).
Proof.
  intros Hwf Hthis Hsp Hother Ho Hne.
  destruct (SharedPtr_wf_between h this sp other o Hwf Hthis Hsp Hother Hne)
    as (Hwf1 & Hother1 & Hvac1 & Hsize1).
  cbv zeta. pose proof (SharedPtr.wf_size h Hwf) as Hsz. split.
  - destruct (SharedPtr.counter o) as [l|] eqn:Hl; [|done].
    destruct (SharedPtr_wf_cell _ other o l Hwf1 Hother1 Hl) as (Hcell & Hpos & _).
    assert (SharedPtr.owners l
              (SharedPtr.ptrs (SharedPtr.set_object this SharedPtr.null
                                 (SharedPtr.released sp h)))
            < size (SharedPtr.ptrs h)) as Hlt.
    { cbn [SharedPtr.set_object SharedPtr.ptrs]. rewrite SharedPtr_ptrs_released.
      rewrite SharedPtr_owners_insert.
      rewrite (SharedPtr_points_to_ne SharedPtr.null) by done.
      pose proof (SharedPtr_owners_le_size l (delete this (SharedPtr.ptrs h))) as Hle.
      assert (size (SharedPtr.ptrs h) = S (size (delete this (SharedPtr.ptrs h))))
        as Hs; [|lia].
      rewrite <- (insert_delete_id _ _ _ Hthis) at 1.
      apply map_size_insert_None, lookup_delete_eq. }
    unfold SharedPtr.copy_assign, SharedPtr.object_at. rewrite Hthis, Hother.
    cbn [mbind outcome_bind]. rewrite decide_True by done.
    rewrite (SharedPtr_release_spec h this sp Hwf Hthis Hsp).
    cbn [mbind outcome_bind]. rewrite Hl.
    rewrite (SharedPtr_read_cell_Some
               (SharedPtr.set_object this o (SharedPtr.released sp h)) l _ Hcell).
    cbn [mbind outcome_bind].
    rewrite (SharedPtr_write_cell_Some
               (SharedPtr.set_object this o (SharedPtr.released sp h)) l _ _ Hcell).
    unfold to_size_t. rewrite Z.mod_small by lia.
    unfold SharedPtr.attached. rewrite Hl.
    cbn [SharedPtr.set_object SharedPtr.cells SharedPtr.ptrs SharedPtr.objects
         SharedPtr.next_cell].
    by rewrite insert_insert_eq.
  - apply (SharedPtr_wf_attach _ this other o); [done..|]. rewrite Hsize1. lia.
Qed.

Lemma SharedPtr_move_assign_spec h this other sp o :
  SharedPtr.wf h → SharedPtr.ptrs h !! this = Some sp →
  SharedPtr.counter sp ≠ None → SharedPtr.ptrs h !! other = Some o →
  this ≠ other →
  let h2 := SharedPtr.set_object other SharedPtr.null
              (SharedPtr.set_object this o (SharedPtr.released sp h)) in
  SharedPtr.move_assign this other h = Return h2 ∧ SharedPtr.wf h2.
Proof.
  intros Hwf Hthis Hsp Hother Hne.
  destruct (SharedPtr_wf_between h this sp other o Hwf Hthis Hsp Hother Hne)
    as (Hwf1 & Hother1 & Hvac1 & Hsize1).
  cbv zeta. pose proof (SharedPtr.wf_size h Hwf) as Hsz. split.
  - unfold SharedPtr.move_assign, SharedPtr.object_at. rewrite Hthis, Hother.
    cbn [mbind outcome_bind]. rewrite decide_True by done.
    by rewrite (SharedPtr_release_spec h this sp Hwf Hthis Hsp).
  - pose proof (SharedPtr_wf_move _ this other o Hwf1 Hvac1 Hother1 Hne) as Hmove.
    rewrite SharedPtr_set_object_twice in Hmove. apply Hmove.
    rewrite Hsize1. lia.
Qed.

Lemma SharedPtr_assign_self h this sp :
  SharedPtr.ptrs h !! this = Some sp →
  SharedPtr.copy_assign this this h = Return h
  ∧ SharedPtr.move_assign this this h = Return h.
Proof.
  intros Hthis. unfold SharedPtr.copy_assign, SharedPtr.move_assign,
    SharedPtr.object_at. rewrite Hthis. cbn [mbind outcome_bind].
  rewrite !decide_False by (intros Hne; by apply Hne). done.
Qed.

Lemma SharedPtr_dtor_spec h this sp :
  SharedPtr.wf h → SharedPtr.ptrs h !! this = Some sp →
  SharedPtr.dtor this h
  = Return (SharedPtr.removed this (SharedPtr.released sp h))
  ∧ SharedPtr.wf (SharedPtr.removed this (SharedPtr.released sp h)).
Proof.
  intros Hwf Hthis. destruct (SharedPtr.counter sp) as [l|] eqn:Hl.
  - assert (SharedPtr.counter sp ≠ None) as Hsp by congruence.
    destruct (SharedPtr_wf_cell h this sp l Hwf Hthis Hl) as (Hcell & Hpos & Hlt & _).
    pose proof (SharedPtr_release_spec h this sp Hwf Hthis Hsp) as Hrel.
    split.
    + unfold SharedPtr.dtor, SharedPtr.object_at. rewrite Hthis.
      cbn [mbind outcome_bind]. rewrite Hl.
      rewrite (SharedPtr_read_cell_Some h l _ Hcell). cbn [mbind outcome_bind].
      destruct (Z.gtb_spec (Z.of_nat (SharedPtr.owners l (SharedPtr.ptrs h))) 0);
        [|lia].
      unfold SharedPtr.release in Hrel. rewrite Hl in Hrel.
      rewrite (SharedPtr_read_cell_Some h l _ Hcell) in Hrel.
      cbn [mbind outcome_bind] in Hrel.
      destruct (SharedPtr.write_cell (Some l) _ h) as [h1| |]; [|done..].
      cbn [mbind outcome_bind] in *.
      destruct (SharedPtr.read_cell (Some l) h1) as [n'| |]; [|done..].
      cbn [mbind outcome_bind] in *. destruct (n' =? 0)%Z.
      * destruct (SharedPtr.delete_object (SharedPtr.rawPointer sp) h1)
          as [h2| |]; [|done..].
        cbn [mbind outcome_bind] in *. rewrite Hrel. cbn [mbind outcome_bind].
        unfold SharedPtr.removed.
        cbn [SharedPtr.set_object SharedPtr.cells SharedPtr.ptrs SharedPtr.objects
             SharedPtr.next_cell].
        by rewrite delete_insert_eq.
      * cbn [mbind outcome_bind]. by injection Hrel as ->.
    + pose proof (SharedPtr_wf_removed _ this
                    (SharedPtr_wf_detach h this sp Hwf Hthis Hsp)
                    (SharedPtr_vacant_null this _)) as Hrem.
      unfold SharedPtr.removed in *.
      cbn [SharedPtr.set_object SharedPtr.cells SharedPtr.ptrs SharedPtr.objects
           SharedPtr.next_cell] in Hrem.
      by rewrite delete_insert_eq in Hrem.
  - assert (SharedPtr.released sp h = h) as -> by (unfold SharedPtr.released; by rewrite Hl).
    split.
    + unfold SharedPtr.dtor, SharedPtr.object_at. rewrite Hthis.
      cbn [mbind outcome_bind]. by rewrite Hl.
    + apply SharedPtr_wf_removed; [done|]. intros sp'. rewrite Hthis. by intros [= <-].
Qed.

Lemma SharedPtr_wf_start (objs : gmap nat T) : SharedPtr.wf (SharedPtr.start objs).
Proof.
  split; cbn [SharedPtr.start SharedPtr.cells SharedPtr.ptrs SharedPtr.objects
              SharedPtr.next_cell].
  - intros l. by rewrite SharedPtr_owners_empty, lookup_empty.
  - intros l _. apply SharedPtr_owners_empty.
  - rewrite map_size_empty. lia.
  - intros a sp. by rewrite lookup_empty.
  - intros a b sp sp'. by rewrite lookup_empty.
  - intros a sp x. by rewrite lookup_empty.
  - intros a b sp sp' x. by rewrite lookup_empty.
Qed.

Lemma SharedPtr_step_wf h (o : SharedPtr.op) :
  SharedPtr.wf h → SharedPtr.pre o h →
  ∃ h', SharedPtr.step o h = Return h' ∧ SharedPtr.wf h'.
Proof.
  intros Hwf Hpre. destruct o as [this p|this other|this other|this other|this other|this];
    cbn [SharedPtr.step SharedPtr.pre] in *.
  - destruct Hpre as (Hthis & Hroom & Hp). eexists. split; [done|].
    by apply SharedPtr_wf_ctor.
  - destruct Hpre as (Hthis & Hroom & o & Hother & Ho). eexists.
    by apply SharedPtr_copy_ctor_spec.
  - destruct Hpre as (Hthis & Hroom & o & Hother). eexists.
    by apply SharedPtr_move_ctor_spec.
  - destruct Hpre as ((sp & Hthis & Hsp) & o & Hother & Ho).
    destruct (decide (this = other)) as [->|Hne].
    + exists h. split; [|done]. by apply (SharedPtr_assign_self h other sp).
    + eexists. by apply (SharedPtr_copy_assign_spec h this other sp o).
  - destruct Hpre as ((sp & Hthis & Hsp) & o & Hother).
    destruct (decide (this = other)) as [->|Hne].
    + exists h. split; [|done]. by apply (SharedPtr_assign_self h other sp).
    + eexists. by apply (SharedPtr_move_assign_spec h this other sp o).
  - destruct Hpre as [sp Hthis]. eexists. by apply SharedPtr_dtor_spec.
Qed.

Lemma SharedPtr_run_wf h (ops : list SharedPtr.op) :
  SharedPtr.wf h → SharedPtr.allowed ops h →
  ∃ h', SharedPtr.run ops h = Return h' ∧ SharedPtr.wf h'.
Proof.
  revert h. induction ops as [|o ops IH]; intros h Hwf Hok; [by exists h|].
  destruct Hok as [Hpre Hok]. cbn [SharedPtr.run].
  destruct (SharedPtr_step_wf h o Hwf Hpre) as (h1 & Hstep & Hwf1).
  rewrite Hstep. cbn [mbind outcome_bind]. apply IH; [done|]. by apply Hok.
Qed.
End shared_ptr_operations.

Section shared_ptr_reach.
Context {T : Type}.
Implicit Types (h : SharedPtr.heap T) (l a b x : nat) (sp o : SharedPtr.t).

Lemma SharedPtr_reached_wf (objs : gmap nat T) ops h :
  SharedPtr.allowed ops (SharedPtr.start objs) →
  SharedPtr.run ops (SharedPtr.start objs) = Return h →
  SharedPtr.wf h.
Proof.
  intros Hok Hrun.
  destruct (SharedPtr_run_wf _ ops (SharedPtr_wf_start objs) Hok) as (h' & Hrun' & Hwf).
  congruence.
Qed.

Lemma SharedPtr_use_count_engaged h a sp l :
  SharedPtr.wf h → SharedPtr.ptrs h !! a = Some sp → SharedPtr.counter sp = Some l →
  SharedPtr.use_count a h
  = Return (Z.of_nat (SharedPtr.owners l (SharedPtr.ptrs h))).
Proof.
  intros Hwf Ha Hl.
  destruct (SharedPtr_wf_cell h a sp l Hwf Ha Hl) as (Hcell & _).
  unfold SharedPtr.use_count, SharedPtr.object_at. rewrite Ha.
  cbn [mbind outcome_bind]. rewrite Hl. by apply SharedPtr_read_cell_Some.
Qed.

Lemma SharedPtr_use_count_moved h a sp :
  SharedPtr.ptrs h !! a = Some sp → SharedPtr.counter sp = None →
  SharedPtr.use_count a h = Return 0%Z.
Proof.
  intros Ha Hl. unfold SharedPtr.use_count, SharedPtr.object_at. rewrite Ha.
  cbn [mbind outcome_bind]. by rewrite Hl.
Qed.
End shared_ptr_reach.




Section shared_ptr_effects.
Context {T : Type}.
Implicit Types (h : SharedPtr.heap T) (l a b x : nat) (sp o : SharedPtr.t).

Lemma SharedPtr_objects_released h sp l :
  SharedPtr.counter sp = Some l →
  SharedPtr.objects (SharedPtr.released sp h)
  = if decide (SharedPtr.owners l (SharedPtr.ptrs h) = 1)
    then match SharedPtr.rawPointer sp with
         | Some x => delete x (SharedPtr.objects h)
         | None => SharedPtr.objects h
         end
    else SharedPtr.objects h.
Proof. intros Hl. unfold SharedPtr.released. rewrite Hl. by case_decide. Qed.

Lemma SharedPtr_cells_released_last h sp l :
  SharedPtr.counter sp = Some l → SharedPtr.owners l (SharedPtr.ptrs h) = 1 →
  SharedPtr.cells (SharedPtr.released sp h) = delete l (SharedPtr.cells h).
Proof.
  intros Hl Hone. unfold SharedPtr.released. rewrite Hl. by rewrite decide_True.
Qed.
End shared_ptr_effects.

(** X17 — the destructor and the last owner.  Destroying a [SharedPtr] that
    has a cell ends its lifetime.  When it was the only one on its cell, the
    managed object (if any) and the cell are deleted; otherwise nothing is
    deleted and every other [SharedPtr] on that cell reports a [use_count]
    lower by one. *)
Theorem SharedPtr_dtor_last_owner {T : Type} (objs : gmap nat T)
    (ops : list SharedPtr.op) (h : SharedPtr.heap T) (a l : nat) (sp : SharedPtr.t) :
  SharedPtr.allowed ops (SharedPtr.start objs) →
  SharedPtr.run ops (SharedPtr.start objs) = Return h →
  SharedPtr.ptrs h !! a = Some sp →
  SharedPtr.counter sp = Some l →
  ∃ h', SharedPtr.dtor a h = Return h'
        ∧ SharedPtr.ptrs h' = delete a (SharedPtr.ptrs h)
        ∧ if decide (SharedPtr.owners l (SharedPtr.ptrs h) = 1)
          then SharedPtr.cells h' = delete l (SharedPtr.cells h)
               ∧ SharedPtr.objects h'
                 = match SharedPtr.rawPointer sp with
                   | Some x => delete x (SharedPtr.objects h)
                   | None => SharedPtr.objects h
                   end
          else SharedPtr.objects h' = SharedPtr.objects h
               ∧ ∀ b sp', b ≠ a → SharedPtr.ptrs h !! b = Some sp' →
                   SharedPtr.counter sp' = Some l →
                   SharedPtr.use_count b h'
                   = Return (Z.of_nat (SharedPtr.owners l (SharedPtr.ptrs h)) - 1)%Z.
Proof.
  intros Hok Hrun Ha Hl. pose proof (SharedPtr_reached_wf objs ops h Hok Hrun) as Hwf.
  destruct (SharedPtr_dtor_spec h a sp Hwf Ha) as [Hdtor Hwf'].
  eexists. split; [exact Hdtor|].
  cbn [SharedPtr.removed SharedPtr.ptrs SharedPtr.cells SharedPtr.objects].
  rewrite SharedPtr_ptrs_released. split; [done|].
  rewrite (SharedPtr_objects_released h sp l Hl). case_decide as Hone.
  - split; [|done]. by apply SharedPtr_cells_released_last.
  - split; [done|]. intros b sp' Hne Hb Hl'.
    rewrite (SharedPtr_use_count_engaged _ b sp' l Hwf').
    + cbn [SharedPtr.removed SharedPtr.ptrs]. rewrite SharedPtr_ptrs_released.
      rewrite (SharedPtr_owners_delete l a sp _ Ha).
      rewrite (SharedPtr_points_to_Some sp l Hl). f_equal. lia.
    + cbn [SharedPtr.removed SharedPtr.ptrs]. rewrite SharedPtr_ptrs_released.
      by rewrite lookup_delete_ne.
    + done.
Qed.

Lemma SharedPtr_dtor_program_allowed :
  SharedPtr.allowed [SharedPtr.Ctor 0 (Some 0); SharedPtr.CopyCtor 1 0]
    (SharedPtr.start {[0 := 20%Z]}).
Proof.
  split; [|intros ? Hstep; vm_compute in Hstep; injection Hstep as <-; split;
           [|done]].
  - split; [done|]. split; [unfold SharedPtr.room; vm_compute; done|].
    split; [by eexists|]. intros a sp.
    cbn [SharedPtr.start SharedPtr.ptrs]. by rewrite lookup_empty.
  - split; [done|]. split; [unfold SharedPtr.room; vm_compute; done|].
    eexists. split; [vm_compute; reflexivity|done].
Qed.

Lemma SharedPtr_dtor_last_owner_witness :
  let h := SharedPtr.mk_heap {[0 := 2%Z]} {[0 := 20%Z]}
             {[0 := SharedPtr.mk (Some 0) (Some 0);
               1 := SharedPtr.mk (Some 0) (Some 0)]} 1 in
  ∃ h', SharedPtr.dtor 1 h = Return h'
        ∧ SharedPtr.ptrs h' = delete 1 (SharedPtr.ptrs h)
        ∧ if decide (SharedPtr.owners 0 (SharedPtr.ptrs h) = 1)
          then SharedPtr.cells h' = delete 0 (SharedPtr.cells h)
               ∧ SharedPtr.objects h'
                 = match SharedPtr.rawPointer (SharedPtr.mk (Some 0) (Some 0)) with
                   | Some x => delete x (SharedPtr.objects h)
                   | None => SharedPtr.objects h
                   end
          else SharedPtr.objects h' = SharedPtr.objects h
               ∧ ∀ b sp', b ≠ 1 → SharedPtr.ptrs h !! b = Some sp' →
                   SharedPtr.counter sp' = Some 0 →
                   SharedPtr.use_count b h'
                   = Return (Z.of_nat (SharedPtr.owners 0 (SharedPtr.ptrs h)) - 1)%Z.
Proof.
  apply (SharedPtr_dtor_last_owner {[0 := 20%Z]}
           [SharedPtr.Ctor 0 (Some 0); SharedPtr.CopyCtor 1 0]).
  - apply SharedPtr_dtor_program_allowed.
  - vm_compute. reflexivity.
  - vm_compute. reflexivity.
  - reflexivity.
Defined.

(** X18 — what an assignment does.  Assigning [other] to a different
    [SharedPtr] [this] that has a cell first gives up the share of [this]:
    the object [this] managed is deleted exactly when [this] was the only
    [SharedPtr] on its cell.  Then [this] holds what [other] held; after a
    copy assignment both report the same [use_count], after a move
    assignment [other] holds nothing and reports 0.  Assigning a
    [SharedPtr] to itself changes nothing. *)
Theorem SharedPtr_assign_effect {T : Type} (objs : gmap nat T)
    (ops : list SharedPtr.op) (h : SharedPtr.heap T) (this other l : nat)
    (sp o : SharedPtr.t) :
  SharedPtr.allowed ops (SharedPtr.start objs) →
  SharedPtr.run ops (SharedPtr.start objs) = Return h →
  SharedPtr.ptrs h !! this = Some sp →
  SharedPtr.counter sp = Some l →
  SharedPtr.ptrs h !! other = Some o →
  this ≠ other →
  let kept :=
    if decide (SharedPtr.owners l (SharedPtr.ptrs h) = 1)
    then match SharedPtr.rawPointer sp with
         | Some x => delete x (SharedPtr.objects h)
         | None => SharedPtr.objects h
         end
    else SharedPtr.objects h in
  (∃ h', SharedPtr.move_assign this other h = Return h'
         ∧ SharedPtr.ptrs h'
           = <[other:=SharedPtr.null]> (<[this:=o]> (SharedPtr.ptrs h))
         ∧ SharedPtr.objects h' = kept
         ∧ SharedPtr.use_count other h' = Return 0%Z)
  ∧ (SharedPtr.counter o ≠ None →
     ∃ h' n, SharedPtr.copy_assign this other h = Return h'
             ∧ SharedPtr.ptrs h' = <[this:=o]> (SharedPtr.ptrs h)
             ∧ SharedPtr.objects h' = kept
             ∧ SharedPtr.use_count this h' = Return n
             ∧ SharedPtr.use_count other h' = Return n)
  ∧ SharedPtr.copy_assign this this h = Return h
  ∧ SharedPtr.move_assign this this h = Return h.
Proof.
  intros Hok Hrun Hthis Hl Hother Hne kept.
  pose proof (SharedPtr_reached_wf objs ops h Hok Hrun) as Hwf.
  assert (SharedPtr.counter sp ≠ None) as Hsp by congruence.
  split; [|split; [|by apply (SharedPtr_assign_self h this sp)]].
  - destruct (SharedPtr_move_assign_spec h this other sp o Hwf Hthis Hsp Hother Hne)
      as [Hmove Hwf'].
    eexists. split; [exact Hmove|].
    cbn [SharedPtr.set_object SharedPtr.ptrs SharedPtr.objects].
    rewrite SharedPtr_ptrs_released. split; [done|].
    split; [by apply SharedPtr_objects_released|].
    apply (SharedPtr_use_count_moved _ other SharedPtr.null); [|done].
    cbn [SharedPtr.set_object SharedPtr.ptrs]. apply lookup_insert_eq.
  - intros Ho. destruct (SharedPtr.counter o) as [lo|] eqn:Hlo; [|done].
    destruct (SharedPtr_copy_assign_spec h this other sp o Hwf Hthis Hsp Hother)
      as [Hcopy Hwf']; [congruence|done|].
    eexists _, _. split; [exact Hcopy|].
    cbn [SharedPtr.attached SharedPtr.set_object SharedPtr.ptrs SharedPtr.objects].
    rewrite SharedPtr_ptrs_released, insert_insert_eq. split; [done|].
    split; [by apply SharedPtr_objects_released|]. split.
    + apply (SharedPtr_use_count_engaged _ this o lo Hwf'); [|done].
      cbn [SharedPtr.attached SharedPtr.ptrs]. apply lookup_insert_eq.
    + apply (SharedPtr_use_count_engaged _ other o lo Hwf'); [|done].
      cbn [SharedPtr.attached SharedPtr.set_object SharedPtr.ptrs].
      rewrite SharedPtr_ptrs_released, insert_insert_eq.
      by rewrite lookup_insert_ne.
Qed.

Lemma SharedPtr_assign_program_allowed :
  SharedPtr.allowed [SharedPtr.Ctor 0 (Some 0); SharedPtr.Ctor 1 None]
    (SharedPtr.start {[0 := 30%Z]}).
Proof.
  split; [|intros ? Hstep; vm_compute in Hstep; injection Hstep as <-; split;
           [|done]].
  - split; [done|]. split; [unfold SharedPtr.room; vm_compute; done|].
    split; [by eexists|]. intros a sp.
    cbn [SharedPtr.start SharedPtr.ptrs]. by rewrite lookup_empty.
  - split; [done|]. split; [unfold SharedPtr.room; vm_compute; done|done].
Qed.

Lemma SharedPtr_assign_effect_witness :
  let h := SharedPtr.mk_heap {[0 := 1%Z; 1 := 1%Z]} {[0 := 30%Z]}
             {[0 := SharedPtr.mk (Some 0) (Some 0);
               1 := SharedPtr.mk (Some 1) None]} 2 in
  let kept :=
    if decide (SharedPtr.owners 1 (SharedPtr.ptrs h) = 1)
    then match SharedPtr.rawPointer (SharedPtr.mk (Some 1) None) with
         | Some x => delete x (SharedPtr.objects h)
         | None => SharedPtr.objects h
         end
    else SharedPtr.objects h in
  (∃ h', SharedPtr.move_assign 1 0 h = Return h'
         ∧ SharedPtr.ptrs h'
           = <[0:=SharedPtr.null]>
               (<[1:=SharedPtr.mk (Some 0) (Some 0)]> (SharedPtr.ptrs h))
         ∧ SharedPtr.objects h' = kept
         ∧ SharedPtr.use_count 0 h' = Return 0%Z)
  ∧ (SharedPtr.counter (SharedPtr.mk (Some 0) (Some 0)) ≠ None →
     ∃ h' n, SharedPtr.copy_assign 1 0 h = Return h'
             ∧ SharedPtr.ptrs h'
               = <[1:=SharedPtr.mk (Some 0) (Some 0)]> (SharedPtr.ptrs h)
             ∧ SharedPtr.objects h' = kept
             ∧ SharedPtr.use_count 1 h' = Return n
             ∧ SharedPtr.use_count 0 h' = Return n)
  ∧ SharedPtr.copy_assign 1 1 h = Return h
  ∧ SharedPtr.move_assign 1 1 h = Return h.
Proof.
  apply (SharedPtr_assign_effect {[0 := 30%Z]}
           [SharedPtr.Ctor 0 (Some 0); SharedPtr.Ctor 1 None]).
  - apply SharedPtr_assign_program_allowed.
  - vm_compute. reflexivity.
  - vm_compute. reflexivity.
  - reflexivity.
  - vm_compute. reflexivity.
  - done.
Defined.

(** X19 — a moved-from [SharedPtr].  Move-constructing [c] from [b] hands
    the share of [b] over: [c] reports the [use_count] that [b] reported,
    [b] reports 0 and holds the null pointer, and destroying [b] then frees
    nothing.  But [b] has lost its cell for good: copy-constructing from
    [b], assigning to [b] and copy-assigning [b] to [c] all dereference the
    null [counter], which is undefined behaviour. *)
Theorem SharedPtr_moved_from_misuse {T : Type} (objs : gmap nat T)
    (ops : list SharedPtr.op) (h : SharedPtr.heap T) (b c d : nat)
    (o : SharedPtr.t) :
  SharedPtr.allowed ops (SharedPtr.start objs) →
  SharedPtr.run ops (SharedPtr.start objs) = Return h →
  SharedPtr.ptrs h !! b = Some o →
  SharedPtr.counter o ≠ None →
  SharedPtr.ptrs h !! c = None →
  SharedPtr.room h →
  ∃ h', SharedPtr.move_ctor c b h = Return h'
        ∧ SharedPtr.use_count c h' = SharedPtr.use_count b h
        ∧ SharedPtr.use_count b h' = Return 0%Z
        ∧ SharedPtr.arrow b h' = Return None
        ∧ SharedPtr.copy_ctor d b h' = Undefined null_dereference
        ∧ SharedPtr.copy_assign b c h' = Undefined null_dereference
        ∧ SharedPtr.move_assign b c h' = Undefined null_dereference
        ∧ SharedPtr.copy_assign c b h' = Undefined null_dereference
        ∧ ∃ h'', SharedPtr.dtor b h' = Return h''
                 ∧ SharedPtr.ptrs h'' = delete b (SharedPtr.ptrs h')
                 ∧ SharedPtr.cells h'' = SharedPtr.cells h'
                 ∧ SharedPtr.objects h'' = SharedPtr.objects h'.
Proof.
  intros Hok Hrun Hb Ho Hc Hroom.
  pose proof (SharedPtr_reached_wf objs ops h Hok Hrun) as Hwf.
  assert (c ≠ b) as Hne by congruence.
  destruct (SharedPtr_move_ctor_spec h c b o Hwf Hc Hb Hroom) as [Hmove Hwf'].
  set (h' := SharedPtr.set_object b SharedPtr.null (SharedPtr.set_object c o h)) in *.
  assert (SharedPtr.ptrs h' !! b = Some SharedPtr.null) as Hb' by apply lookup_insert_eq.
  assert (SharedPtr.ptrs h' !! c = Some o) as Hc'.
  { unfold h'. cbn [SharedPtr.set_object SharedPtr.ptrs].
    by rewrite lookup_insert_ne, lookup_insert_eq. }
  exists h'. split; [done|]. split; [|split; [|split; [|split; [|split; [|split;
    [|split]]]]]].
  - unfold SharedPtr.use_count, SharedPtr.object_at. rewrite Hc', Hb.
    cbn [mbind outcome_bind]. by destruct (SharedPtr.counter o).
  - by apply (SharedPtr_use_count_moved h' b SharedPtr.null).
  - unfold SharedPtr.arrow, SharedPtr.object_at. by rewrite Hb'.
  - unfold SharedPtr.copy_ctor, SharedPtr.object_at. by rewrite Hb'.
  - unfold SharedPtr.copy_assign, SharedPtr.object_at. rewrite Hb', Hc'.
    cbn [mbind outcome_bind]. by rewrite decide_True by done.
  - unfold SharedPtr.move_assign, SharedPtr.object_at. rewrite Hb', Hc'.
    cbn [mbind outcome_bind]. by rewrite decide_True by done.
  - unfold SharedPtr.copy_assign, SharedPtr.object_at. rewrite Hb', Hc'.
    cbn [mbind outcome_bind]. rewrite decide_True by done.
    by rewrite (SharedPtr_release_spec h' c o Hwf' Hc' Ho).
  - destruct (SharedPtr_dtor_spec h' b SharedPtr.null Hwf' Hb') as [Hdtor _].
    eexists. split; [exact Hdtor|]. done.
Qed.

Lemma SharedPtr_moved_from_misuse_witness :
  let h := SharedPtr.mk_heap {[0 := 2%Z]} {[0 := 20%Z]}
             {[0 := SharedPtr.mk (Some 0) (Some 0);
               1 := SharedPtr.mk (Some 0) (Some 0)]} 1 in
  ∃ h', SharedPtr.move_ctor 2 1 h = Return h'
        ∧ SharedPtr.use_count 2 h' = SharedPtr.use_count 1 h
        ∧ SharedPtr.use_count 1 h' = Return 0%Z
        ∧ SharedPtr.arrow 1 h' = Return None
        ∧ SharedPtr.copy_ctor 3 1 h' = Undefined null_dereference
        ∧ SharedPtr.copy_assign 1 2 h' = Undefined null_dereference
        ∧ SharedPtr.move_assign 1 2 h' = Undefined null_dereference
        ∧ SharedPtr.copy_assign 2 1 h' = Undefined null_dereference
        ∧ ∃ h'', SharedPtr.dtor 1 h' = Return h''
                 ∧ SharedPtr.ptrs h'' = delete 1 (SharedPtr.ptrs h')
                 ∧ SharedPtr.cells h'' = SharedPtr.cells h'
                 ∧ SharedPtr.objects h'' = SharedPtr.objects h'.
Proof.
  apply (SharedPtr_moved_from_misuse {[0 := 20%Z]}
           [SharedPtr.Ctor 0 (Some 0); SharedPtr.CopyCtor 1 0] _ 1 2 3
           (SharedPtr.mk (Some 0) (Some 0))).
  - apply SharedPtr_dtor_program_allowed.
  - vm_compute. reflexivity.
  - vm_compute. reflexivity.
  - done.
  - vm_compute. reflexivity.
  - unfold SharedPtr.room. vm_compute. done.
Defined.

Section shared_ptr_tracking.
Context {T : Type}.
Implicit Types (h : SharedPtr.heap T) (l a b x : nat) (sp o : SharedPtr.t)
  (m : gmap nat SharedPtr.t) (ops : list SharedPtr.op).

Lemma SharedPtr_owners_pos_inv l m :
  0 < SharedPtr.owners l m →
  ∃ a sp, m !! a = Some sp ∧ SharedPtr.counter sp = Some l.
Proof.
  unfold SharedPtr.owners. intros Hpos.
  destruct (map_size_ne_0_lookup_1
              (filter (λ kv, SharedPtr.counter kv.2 = Some l) m)) as [a [sp Ha]];
    [lia|].
  apply map_lookup_filter_Some in Ha as [Ha Hsp]. by exists a, sp.
Qed.

Lemma SharedPtr_objects_released_sub h sp x (v : T) :
  SharedPtr.objects (SharedPtr.released sp h) !! x = Some v →
  SharedPtr.objects h !! x = Some v.
Proof.
  unfold SharedPtr.released. destruct (SharedPtr.counter sp); [|done].
  case_decide; [|done]. cbn [SharedPtr.objects].
  destruct (SharedPtr.rawPointer sp); [|done]. by intros [_ ?]%lookup_delete_Some.
Qed.

Lemma SharedPtr_objects_released_ne h sp x :
  SharedPtr.rawPointer sp ≠ Some x →
  SharedPtr.objects (SharedPtr.released sp h) !! x = SharedPtr.objects h !! x.
Proof.
  intros Hx. unfold SharedPtr.released. destruct (SharedPtr.counter sp); [|done].
  case_decide; [|done]. cbn [SharedPtr.objects].
  destruct (SharedPtr.rawPointer sp); [|done]. apply lookup_delete_ne. congruence.
Qed.

Lemma SharedPtr_objects_released_gone h sp l x :
  SharedPtr.counter sp = Some l → SharedPtr.owners l (SharedPtr.ptrs h) = 1 →
  SharedPtr.rawPointer sp = Some x →
  SharedPtr.objects (SharedPtr.released sp h) !! x = None.
Proof.
  intros Hl Hone Hx. rewrite (SharedPtr_objects_released h sp l Hl).
  rewrite decide_True by done. rewrite Hx. apply lookup_delete_eq.
Qed.

Lemma SharedPtr_handed_snoc_ctor x ops a p :
  SharedPtr.handed x (ops ++ [SharedPtr.Ctor a p])
  ↔ SharedPtr.handed x ops ∨ p = Some x.
Proof.
  unfold SharedPtr.handed. split.
  - intros [a' [Hin|Hin%list_elem_of_singleton]%elem_of_app]; [left; by exists a'|].
    right. congruence.
  - intros [[a' Hin]| ->].
    + exists a'. apply elem_of_app. by left.
    + exists a. apply elem_of_app. right. by apply list_elem_of_singleton.
Qed.

Lemma SharedPtr_handed_snoc_other x ops (o : SharedPtr.op) :
  (∀ a y, o ≠ SharedPtr.Ctor a (Some y)) →
  SharedPtr.handed x (ops ++ [o]) ↔ SharedPtr.handed x ops.
Proof.
  intros Ho. unfold SharedPtr.handed. split.
  - intros [a' [Hin|Hin%list_elem_of_singleton]%elem_of_app]; [by exists a'|].
    by destruct (Ho a' x).
  - intros [a' Hin]. exists a'. apply elem_of_app. by left.
Qed.

(** A call that releases the share of [this] and rearranges the [SharedPtr]
    objects without creating a new way to an object. *)
Lemma SharedPtr_release_tracks (objs : gmap nat T) ops ops' h h' this sp :
  SharedPtr.wf h → SharedPtr.tracks objs ops h →
  SharedPtr.ptrs h !! this = Some sp →
  (∀ x, SharedPtr.handed x ops' ↔ SharedPtr.handed x ops) →
  (∀ x, SharedPtr.managed x (SharedPtr.ptrs h') →
        SharedPtr.managed x (SharedPtr.ptrs h)) →
  (∀ a' sp' x, a' ≠ this → SharedPtr.ptrs h !! a' = Some sp' →
               SharedPtr.rawPointer sp' = Some x →
               SharedPtr.managed x (SharedPtr.ptrs h')) →
  SharedPtr.objects h' = SharedPtr.objects (SharedPtr.released sp h) →
  SharedPtr.tracks objs ops' h'.
Proof.
  intros Hwf [K1 K2 K3 K4] Hthis Hhanded Hback Hkeep Hobjects.
  assert (∀ x, SharedPtr.managed x (SharedPtr.ptrs h) →
               ¬ SharedPtr.managed x (SharedPtr.ptrs h') →
               SharedPtr.objects h' !! x = None) as Hgone.
  { intros x (a' & sp' & Ha' & Hx) Hnot.
    destruct (decide (a' = this)) as [->|Hne]; [|by destruct Hnot; eapply Hkeep].
    assert (sp' = sp) as -> by congruence.
    destruct (SharedPtr.counter sp) as [l|] eqn:Hl;
      [|by rewrite (SharedPtr.wf_null h Hwf this sp Hthis Hl) in Hx].
    rewrite Hobjects. apply (SharedPtr_objects_released_gone h sp l x Hl); [|done].
    pose proof (SharedPtr_owners_delete l this sp _ Hthis) as Hown.
    rewrite (SharedPtr_points_to_Some sp l Hl) in Hown.
    destruct (decide (SharedPtr.owners l (delete this (SharedPtr.ptrs h)) = 0))
      as [Hzero|Hpos]; [lia|].
    destruct (SharedPtr_owners_pos_inv l (delete this (SharedPtr.ptrs h)))
      as (a'' & sp'' & [Hne Ha'']%lookup_delete_Some & Hl''); [lia|].
    destruct Hnot. apply (Hkeep a'' sp'' x); [done..|].
    rewrite <- Hx. apply (SharedPtr.wf_same h Hwf a'' this); congruence. }
  split.
  - intros x Hx. apply Hhanded, K1, Hback, Hx.
  - intros x Hx%Hhanded Hnot.
    destruct (SharedPtr.objects h' !! x) as [v|] eqn:Hv; [|done]. exfalso.
    assert (SharedPtr.objects h !! x = Some v) as Hv'.
    { rewrite Hobjects in Hv. by apply SharedPtr_objects_released_sub in Hv. }
    assert (¬ SharedPtr.managed x (SharedPtr.ptrs h)) as Hnm.
    { intros Hm. by rewrite (Hgone x Hm Hnot) in Hv. }
    by rewrite (K2 x Hx Hnm) in Hv'.
  - intros x Hx. rewrite Hhanded in Hx. rewrite <- (K3 x Hx), Hobjects.
    apply SharedPtr_objects_released_ne. intros Hsp. apply Hx, K1.
    by exists this, sp.
  - intros x v Hv. rewrite Hobjects in Hv.
    by apply K4, (SharedPtr_objects_released_sub h sp).
Qed.
End shared_ptr_tracking.

Section shared_ptr_tracking_steps.
Context {T : Type}.
Implicit Types (h : SharedPtr.heap T) (l a b x : nat) (sp o : SharedPtr.t)
  (m : gmap nat SharedPtr.t) (ops : list SharedPtr.op).

Lemma SharedPtr_tracks_same (objs : gmap nat T) ops ops' h h' :
  SharedPtr.tracks objs ops h →
  (∀ x, SharedPtr.handed x ops' ↔ SharedPtr.handed x ops) →
  (∀ x, SharedPtr.managed x (SharedPtr.ptrs h')
        ↔ SharedPtr.managed x (SharedPtr.ptrs h)) →
  SharedPtr.objects h' = SharedPtr.objects h →
  SharedPtr.tracks objs ops' h'.
Proof.
  intros [K1 K2 K3 K4] Hhanded Hmanaged Hobjects. split; rewrite ?Hobjects.
  - intros x Hx. apply Hhanded, K1, Hmanaged, Hx.
  - intros x Hx Hnm. apply K2; [by apply Hhanded|]. by rewrite <- Hmanaged.
  - intros x Hx. apply K3. by rewrite <- Hhanded.
  - done.
Qed.

Lemma SharedPtr_managed_insert_new x a sp m :
  m !! a = None →
  SharedPtr.managed x (<[a:=sp]> m)
  ↔ SharedPtr.managed x m ∨ SharedPtr.rawPointer sp = Some x.
Proof.
  intros Ha. unfold SharedPtr.managed. split.
  - intros (a' & sp' & [[_ <-]|[_ Ha']]%lookup_insert_Some & Hx); [by right|].
    left. by exists a', sp'.
  - intros [(a' & sp' & Ha' & Hx)|Hx].
    + exists a', sp'. split; [|done]. rewrite lookup_insert_ne; [done|congruence].
    + exists a, sp. by rewrite lookup_insert_eq.
Qed.

Lemma SharedPtr_managed_dec x m :
  SharedPtr.managed x m ∨ ¬ SharedPtr.managed x m.
Proof.
  induction m as [|a sp m Ha _ IH] using map_first_key_ind.
  { right. intros (a & sp & Ha & _). by rewrite lookup_empty in Ha. }
  rewrite !SharedPtr_managed_insert_new by done.
  destruct (decide (SharedPtr.rawPointer sp = Some x)) as [Hx|Hx]; [by left; right|].
  destruct IH as [IH|IH]; [by left; left|]. right. by intros [?|?].
Qed.

Lemma SharedPtr_managed_copy x a b o m :
  m !! b = Some o → a ≠ b →
  SharedPtr.managed x (<[a:=o]> m) → SharedPtr.managed x m.
Proof.
  intros Hb Hne (a' & sp' & [[_ <-]|[_ Ha']]%lookup_insert_Some & Hx).
  - by exists b, o.
  - by exists a', sp'.
Qed.

Lemma SharedPtr_managed_move x a b o m :
  m !! b = Some o → a ≠ b →
  SharedPtr.managed x (<[b:=SharedPtr.null]> (<[a:=o]> m)) → SharedPtr.managed x m.
Proof.
  intros Hb Hne (a' & sp' & [[_ <-]|[_ Ha']]%lookup_insert_Some & Hx); [done|].
  by apply (SharedPtr_managed_copy x a b o m Hb Hne); exists a', sp'.
Qed.

Lemma SharedPtr_step_tracks (objs : gmap nat T) ops h (o : SharedPtr.op) h' :
  SharedPtr.wf h → SharedPtr.tracks objs ops h → SharedPtr.pre o h →
  SharedPtr.step o h = Return h' →
  SharedPtr.tracks objs (ops ++ [o]) h'.
Proof.
  intros Hwf Htr Hpre Hstep.
  destruct o as [this p|this other|this other|this other|this other|this];
    cbn [SharedPtr.step SharedPtr.pre] in *.
  - destruct Hpre as (Hthis & _ & _). unfold SharedPtr.ctor in Hstep.
    injection Hstep as <-. destruct Htr as [K1 K2 K3 K4].
    split; cbn [SharedPtr.ptrs SharedPtr.objects]; [| | |done].
    + intros x Hx. apply SharedPtr_managed_insert_new in Hx; [|done].
      apply SharedPtr_handed_snoc_ctor. destruct Hx as [Hx|Hx]; [left|by right].
      by apply K1.
    + intros x Hx Hnm. apply SharedPtr_handed_snoc_ctor in Hx.
      destruct Hx as [Hx|Hx].
      * apply K2; [done|]. intros Hm. apply Hnm.
        apply SharedPtr_managed_insert_new; [done|]. by left.
      * destruct Hnm. apply SharedPtr_managed_insert_new; [done|]. by right.
    + intros x Hx. apply K3. intros Hh. apply Hx.
      apply SharedPtr_handed_snoc_ctor. by left.
  - destruct Hpre as (Hthis & Hroom & o & Hother & Ho).
    destruct (SharedPtr_copy_ctor_spec h this other o Hwf Hthis Hother Ho Hroom)
      as [Hspec _].
    rewrite Hspec in Hstep. injection Hstep as <-.
    apply (SharedPtr_tracks_same objs ops _ h); [done| | |done].
    + intros x. by apply SharedPtr_handed_snoc_other.
    + intros x. cbn [SharedPtr.attached SharedPtr.ptrs]. split.
      * apply (SharedPtr_managed_copy x this other o); [done|congruence].
      * intros Hx. apply SharedPtr_managed_insert_new; [done|]. by left.
  - destruct Hpre as (Hthis & Hroom & o & Hother).
    destruct (SharedPtr_move_ctor_spec h this other o Hwf Hthis Hother Hroom)
      as [Hspec _].
    rewrite Hspec in Hstep. injection Hstep as <-.
    assert (this ≠ other) as Hne by congruence.
    apply (SharedPtr_tracks_same objs ops _ h); [done| | |done].
    + intros x. by apply SharedPtr_handed_snoc_other.
    + intros x. cbn [SharedPtr.set_object SharedPtr.ptrs]. split.
      * by apply (SharedPtr_managed_move x this other o).
      * intros (a' & sp' & Ha' & Hx). destruct (decide (a' = other)) as [->|Hne'].
        -- exists this, o. rewrite lookup_insert_ne, lookup_insert_eq by done.
           split; [done|]. congruence.
        -- exists a', sp'. split; [|done].
           rewrite !lookup_insert_ne; [done|congruence|done].
  - destruct Hpre as ((sp & Hthis & Hsp) & o & Hother & Ho).
    destruct (decide (this = other)) as [->|Hne].
    { rewrite (proj1 (SharedPtr_assign_self h other sp Hthis)) in Hstep.
      injection Hstep as <-.
      apply (SharedPtr_tracks_same objs ops _ h); [done| |done|done].
      intros x. by apply SharedPtr_handed_snoc_other. }
    destruct (SharedPtr_copy_assign_spec h this other sp o Hwf Hthis Hsp Hother Ho Hne)
      as [Hspec _].
    rewrite Hspec in Hstep. injection Hstep as <-.
    apply (SharedPtr_release_tracks objs ops _ h _ this sp); [done..| | | |done];
      cbn [SharedPtr.attached SharedPtr.set_object SharedPtr.ptrs];
      rewrite ?SharedPtr_ptrs_released, ?insert_insert_eq.
    + intros x. by apply SharedPtr_handed_snoc_other.
    + intros x. by apply (SharedPtr_managed_copy x this other o).
    + intros a' sp' x Hne' Ha' Hx. exists a', sp'. by rewrite lookup_insert_ne.
  - destruct Hpre as ((sp & Hthis & Hsp) & o & Hother).
    destruct (decide (this = other)) as [->|Hne].
    { rewrite (proj2 (SharedPtr_assign_self h other sp Hthis)) in Hstep.
      injection Hstep as <-.
      apply (SharedPtr_tracks_same objs ops _ h); [done| |done|done].
      intros x. by apply SharedPtr_handed_snoc_other. }
    destruct (SharedPtr_move_assign_spec h this other sp o Hwf Hthis Hsp Hother Hne)
      as [Hspec _].
    rewrite Hspec in Hstep. injection Hstep as <-.
    apply (SharedPtr_release_tracks objs ops _ h _ this sp); [done..| | | |done];
      cbn [SharedPtr.set_object SharedPtr.ptrs]; rewrite ?SharedPtr_ptrs_released.
    + intros x. by apply SharedPtr_handed_snoc_other.
    + intros x. by apply (SharedPtr_managed_move x this other o).
    + intros a' sp' x Hne' Ha' Hx. destruct (decide (a' = other)) as [->|Hne''].
      * exists this, o. rewrite lookup_insert_ne, lookup_insert_eq by done.
        split; [done|]. congruence.
      * exists a', sp'. by rewrite !lookup_insert_ne.
  - destruct Hpre as [sp Hthis].
    destruct (SharedPtr_dtor_spec h this sp Hwf Hthis) as [Hspec _].
    rewrite Hspec in Hstep. injection Hstep as <-.
    apply (SharedPtr_release_tracks objs ops _ h _ this sp); [done..| | | |done];
      cbn [SharedPtr.removed SharedPtr.ptrs]; rewrite ?SharedPtr_ptrs_released.
    + intros x. by apply SharedPtr_handed_snoc_other.
    + intros x (a' & sp' & [_ Ha']%lookup_delete_Some & Hx). by exists a', sp'.
    + intros a' sp' x Hne' Ha' Hx. exists a', sp'. by rewrite lookup_delete_ne.
Qed.

Lemma SharedPtr_run_snoc ops (o : SharedPtr.op) h :
  SharedPtr.run (ops ++ [o]) h = (h' ← SharedPtr.run ops h; SharedPtr.step o h').
Proof.
  revert h. induction ops as [|o' ops IH]; intros h; cbn [app SharedPtr.run].
  - cbn [mbind outcome_bind]. by destruct (SharedPtr.step o h).
  - destruct (SharedPtr.step o' h) as [h1| |]; cbn [mbind outcome_bind]; [|done..].
    apply IH.
Qed.

Lemma SharedPtr_allowed_snoc ops (o : SharedPtr.op) h :
  SharedPtr.allowed (ops ++ [o]) h →
  SharedPtr.allowed ops h
  ∧ ∀ h', SharedPtr.run ops h = Return h' → SharedPtr.pre o h'.
Proof.
  revert h. induction ops as [|o' ops IH]; intros h; cbn [app SharedPtr.allowed].
  - intros [Hpre _]. split; [done|]. by intros h' [= <-].
  - intros [Hpre Hok]. split.
    + split; [done|]. intros h1 Hstep. by apply IH, Hok.
    + intros h'. cbn [SharedPtr.run].
      destruct (SharedPtr.step o' h) as [h1| |] eqn:Hstep; [|done..].
      cbn [mbind outcome_bind]. by apply IH, Hok.
Qed.

Lemma SharedPtr_reached_tracks (objs : gmap nat T) ops h :
  SharedPtr.allowed ops (SharedPtr.start objs) →
  SharedPtr.run ops (SharedPtr.start objs) = Return h →
  SharedPtr.wf h ∧ SharedPtr.tracks objs ops h.
Proof.
  revert h. induction ops as [|o ops IH] using rev_ind; intros h Hok Hrun.
  { injection Hrun as <-. split; [apply SharedPtr_wf_start|].
    split; cbn [SharedPtr.start SharedPtr.ptrs SharedPtr.objects]; try done.
    - intros x (a & sp & Ha & _). by rewrite lookup_empty in Ha.
    - intros x [a Ha]. by apply elem_of_nil in Ha. }
  apply SharedPtr_allowed_snoc in Hok as [Hok Hpre].
  rewrite SharedPtr_run_snoc in Hrun.
  destruct (SharedPtr.run ops (SharedPtr.start objs)) as [h1| |] eqn:Hrun1; [|done..].
  cbn [mbind outcome_bind] in Hrun. destruct (IH h1 Hok eq_refl) as [Hwf1 Htr1].
  specialize (Hpre h1 eq_refl). split.
  - destruct (SharedPtr_step_wf h1 o Hwf1 Hpre) as (h' & Hstep & Hwf'). congruence.
  - by apply (SharedPtr_step_tracks objs ops h1 o h).
Qed.
End shared_ptr_tracking_steps.

(** X20 — the managed object lives exactly as long as it is managed.  After
    a program that respects the call conditions, an object that was handed
    to a [SharedPtr] constructor is live if and only if some [SharedPtr]
    still points to it: it is not deleted while managed and it is deleted
    with its last owner.  An object never handed over is untouched, and
    once no [SharedPtr] is left no cell remains allocated. *)
Theorem SharedPtr_object_lifetime {T : Type} (objs : gmap nat T)
    (ops : list SharedPtr.op) (h : SharedPtr.heap T) :
  SharedPtr.allowed ops (SharedPtr.start objs) →
  SharedPtr.run ops (SharedPtr.start objs) = Return h →
  (∀ x, SharedPtr.handed x ops →
        is_Some (SharedPtr.objects h !! x) ↔ SharedPtr.managed x (SharedPtr.ptrs h))
  ∧ (∀ x, ¬ SharedPtr.handed x ops → SharedPtr.objects h !! x = objs !! x)
  ∧ (∀ x v, SharedPtr.objects h !! x = Some v → objs !! x = Some v)
  ∧ (SharedPtr.ptrs h = ∅ → SharedPtr.cells h = ∅).
Proof.
  intros Hok Hrun.
  destruct (SharedPtr_reached_tracks objs ops h Hok Hrun) as [Hwf [K1 K2 K3 K4]].
  split; [|split; [done|split; [done|]]].
  - intros x Hx. split.
    + intros [v Hv].
      destruct (SharedPtr_managed_dec x (SharedPtr.ptrs h)) as [Hm|Hnm]; [done|].
      by rewrite (K2 x Hx Hnm) in Hv.
    + intros (a & sp & Ha & Hsp). by apply (SharedPtr.wf_live h Hwf a sp).
  - intros Hempty. apply map_empty. intros l.
    rewrite (SharedPtr.wf_cells h Hwf), Hempty, SharedPtr_owners_empty. done.
Qed.

Lemma SharedPtr_lifetime_program_allowed :
  SharedPtr.allowed
    [SharedPtr.Ctor 0 (Some 0); SharedPtr.CopyCtor 1 0; SharedPtr.Ctor 2 (Some 1);
     SharedPtr.Dtor 2; SharedPtr.Dtor 0]
    (SharedPtr.start {[0 := 20%Z; 1 := 30%Z; 2 := 40%Z]}).
Proof.
  split; [|intros ? Hstep; vm_compute in Hstep; injection Hstep as <-; split;
           [|intros ? Hstep; vm_compute in Hstep; injection Hstep as <-; split;
             [|intros ? Hstep; vm_compute in Hstep; injection Hstep as <-; split;
               [|intros ? Hstep; vm_compute in Hstep; injection Hstep as <-; split;
                 [|done]]]]].
  - split; [done|]. split; [unfold SharedPtr.room; vm_compute; done|].
    split; [by eexists|]. intros a sp.
    cbn [SharedPtr.start SharedPtr.ptrs]. by rewrite lookup_empty.
  - split; [done|]. split; [unfold SharedPtr.room; vm_compute; done|].
    eexists. split; [vm_compute; reflexivity|done].
  - split; [done|]. split; [unfold SharedPtr.room; vm_compute; done|].
    split; [by eexists|]. cbn [SharedPtr.ptrs].
    apply (bool_decide_unpack
             (map_Forall (λ _ (sp : SharedPtr.t), SharedPtr.rawPointer sp ≠ Some 1) _)).
    vm_compute. exact I.
  - eexists. vm_compute. reflexivity.
  - eexists. vm_compute. reflexivity.
Qed.

Lemma SharedPtr_object_lifetime_witness :
  let ops := [SharedPtr.Ctor 0 (Some 0); SharedPtr.CopyCtor 1 0;
              SharedPtr.Ctor 2 (Some 1); SharedPtr.Dtor 2; SharedPtr.Dtor 0] in
  let h := SharedPtr.mk_heap {[0 := 1%Z]} {[0 := 20%Z; 2 := 40%Z]}
             {[1 := SharedPtr.mk (Some 0) (Some 0)]} 2 in
  (∀ x, SharedPtr.handed x ops →
        is_Some (SharedPtr.objects h !! x) ↔ SharedPtr.managed x (SharedPtr.ptrs h))
  ∧ (∀ x, ¬ SharedPtr.handed x ops →
          SharedPtr.objects h !! x
          = ({[0 := 20%Z; 1 := 30%Z; 2 := 40%Z]} : gmap nat Z) !! x)
  ∧ (∀ x v, SharedPtr.objects h !! x = Some v →
            ({[0 := 20%Z; 1 := 30%Z; 2 := 40%Z]} : gmap nat Z) !! x = Some v)
  ∧ (SharedPtr.ptrs h = ∅ → SharedPtr.cells h = ∅).
Proof.
  apply (SharedPtr_object_lifetime {[0 := 20%Z; 1 := 30%Z; 2 := 40%Z]}).
  - apply SharedPtr_lifetime_program_allowed.
  - vm_compute. reflexivity.
Defined.
